(** * css-sync: the change-propagation pipeline, embedded and verified

    A shallow embedding of the JavaScript sources of the agent that writes
    DevTools style edits back to authored CSS/SCSS files, one module per
    source file:

    - [JS], [Regex], [Path], [MD5]: the string primitives, the regular
      expression literals, the posix path functions and the digest that the
      sources call;
    - [FS]: the project files the agent reads and writes;
    - [LoopGuard] (safety/loop-guard.js), [Registry] (cdp/registry.js),
      [Differ] (diff/css-parser.js), [URLResolver] (mapper/url-resolver.js),
      [SelectorResolver] (mapper/selector-resolver.js), [Patcher]
      (patcher/css-patcher.js, patcher/scss-patcher.js), [Agent] (agent.js),
      [TextDiff] (diff/text-diff.js), [CDPClient] (cdp/client.js);
    - [Samples]: a small project used in the examples;
    - [Notions]: the predicates the properties are stated with.

    Strings are Rocq strings, one character per UTF-16 code unit; texts with
    code units above 255 are outside the model.  Numbers are integers,
    which agree with the code's doubles within [2 ^ 53] in magnitude.
    External collaborators
    (the CSS parser and stringifier, the browser session, the source-map
    library, URL parsing) are fields of explicit environment records.  A
    handler runs at one instant of the clock and alone, so a task given to
    the file queue runs at once. *)

From Stdlib Require Import ZArith Lia Bool Ascii String List NArith.
From stdpp Require Import base option list gmap strings pretty.

Import ListNotations.
Set Warnings "-register-all".
Local Open Scope list_scope.
Local Open Scope string_scope.

(* ===================================================================== *)
(** ** JavaScript string primitives *)
(* ===================================================================== *)

Module JS.

Definition code (c : ascii) : N := N_of_ascii c.

Definition in_range (lo hi : N) (c : ascii) : bool :=
  ((lo <=? code c) && (code c <=? hi))%N.

Definition is_upper (c : ascii) : bool := in_range 65 90 c.
Definition is_lower (c : ascii) : bool := in_range 97 122 c.
Definition is_digit (c : ascii) : bool := in_range 48 57 c.
Definition is_letter (c : ascii) : bool := is_upper c || is_lower c.
Definition is_alnum (c : ascii) : bool := is_letter c || is_digit c.

(** Line terminators below U+0100: LF and CR. *)
Definition is_line_terminator (c : ascii) : bool :=
  ((code c =? 10) || (code c =? 13))%N.

(** White space as [\s] and [trim] see it, below U+0100:
    TAB, LF, VT, FF, CR, SP, NBSP. *)
Definition is_space (c : ascii) : bool :=
  (in_range 9 13 c || (code c =? 32) || (code c =? 160))%N.

(** [s.startsWith(p)] *)
Fixpoint startsWith (p s : string) : bool :=
  match p, s with
  | EmptyString, _ => true
  | String a p', String b s' => Ascii.eqb a b && startsWith p' s'
  | String _ _, EmptyString => false
  end.

(** [s.includes(p)] *)
Fixpoint includes (p s : string) : bool :=
  startsWith p s ||
  match s with
  | EmptyString => false
  | String _ s' => includes p s'
  end.

(** [s.slice(n)] for [0 <= n] *)
Fixpoint drop (n : nat) (s : string) : string :=
  match n, s with
  | O, _ => s
  | S n', String _ s' => drop n' s'
  | S _, EmptyString => EmptyString
  end.

(** [s.substring(0, n)] *)
Fixpoint take (n : nat) (s : string) : string :=
  match n, s with
  | O, _ => EmptyString
  | S n', String c s' => String c (take n' s')
  | S _, EmptyString => EmptyString
  end.

Fixpoint rev_onto (s acc : string) : string :=
  match s with
  | EmptyString => acc
  | String c s' => rev_onto s' (String c acc)
  end.

Definition rev (s : string) : string := rev_onto s EmptyString.

Fixpoint trimStart (s : string) : string :=
  match s with
  | String c s' => if is_space c then trimStart s' else s
  | EmptyString => EmptyString
  end.

(** [s.trim()] *)
Definition trim (s : string) : string :=
  rev (trimStart (rev (trimStart s))).

(** [s.endsWith(p)] *)
Definition endsWith (p s : string) : bool := startsWith (rev p) (rev s).

(** [s.split(c)] for a one-character separator: the pieces between the
    occurrences of [c]; always at least one piece. *)
Fixpoint split_go (sep : ascii) (s : string) (cur : string) : list string :=
  match s with
  | EmptyString => [rev cur]
  | String c s' =>
      if Ascii.eqb c sep then rev cur :: split_go sep s' EmptyString
      else split_go sep s' (String c cur)
  end.

Definition split (sep : ascii) (s : string) : list string :=
  split_go sep s EmptyString.

(** [parts.join(sep)] *)
Fixpoint join (sep : string) (parts : list string) : string :=
  match parts with
  | [] => EmptyString
  | [p] => p
  | p :: rest => p ++ sep ++ join sep rest
  end.

(** [s.replace(p, '')] for a string pattern: its first occurrence
    removed. *)
Fixpoint removeFirst (p s : string) : string :=
  if startsWith p s then drop (String.length p) s
  else match s with
       | EmptyString => EmptyString
       | String c s' => String c (removeFirst p s')
       end.

(** [c.toLowerCase()] below U+0100. *)
Definition lower_char (c : ascii) : ascii :=
  if is_upper c
     || (in_range 192 222 c && negb (code c =? 215)%N)
  then ascii_of_N (code c + 32) else c.

Fixpoint toLowerCase (s : string) : string :=
  match s with
  | EmptyString => EmptyString
  | String c s' => String (lower_char c) (toLowerCase s')
  end.

(** JavaScript truthiness of a value that is a string or [null]. *)
Definition truthy (v : option string) : bool :=
  match v with
  | Some (String _ _) => true
  | _ => false
  end.

(** [a || b] on values that are strings or [null], as an option:
    the result when it is truthy. *)
Definition or_else (a b : option string) : option string :=
  if truthy a then a else if truthy b then b else None.

End JS.

(* ===================================================================== *)
(** ** Regular expressions *)
(* ===================================================================== *)

Module Regex.

Inductive regex : Type :=
| Eps
| Chr (c : ascii)
| Cls (p : ascii -> bool)
| Seq (r1 r2 : regex)
| Alt (r1 r2 : regex)
| Star (greedy : bool) (r : regex)
| Grp (i : nat) (r : regex)
| Bol
| Eol
| EolM.

(** A position: the index reached and the text still to read. *)
Definition pos : Type := nat * string.

(** Capture groups, most recent binding first. *)
Definition caps : Type := list (nat * string).

Fixpoint capture (i : nat) (cs : caps) : option string :=
  match cs with
  | [] => None
  | (j, w) :: cs' => if Nat.eqb i j then Some w else capture i cs'
  end.

Definition or_try {R} (a b : option R) : option R :=
  match a with
  | Some x => Some x
  | None => b
  end.

(** The loop of a star over its body: a greedy star tries one more
    iteration first, a lazy one the continuation first; an iteration that
    consumes nothing is rejected.  [fuel] bounds the iterations and is
    started above the length of the text. *)
Fixpoint star_loop {R}
         (body : pos -> caps -> (pos -> caps -> option R) -> option R)
         (greedy : bool) (k : pos -> caps -> option R)
         (fuel : nat) (p0 : pos) (cs0 : caps) : option R :=
  match fuel with
  | O => k p0 cs0
  | S fuel' =>
      let more :=
        body p0 cs0
             (fun p1 cs1 =>
                if Nat.ltb (fst p0) (fst p1)
                then star_loop body greedy k fuel' p1 cs1
                else None) in
      if greedy then or_try more (k p0 cs0)
      else or_try (k p0 cs0) more
  end.

(** Backtracking matcher in continuation-passing style.  Alternatives are
    tried left to right. *)
Fixpoint run {R} (r : regex) (p : pos) (cs : caps)
         (k : pos -> caps -> option R) : option R :=
  match r with
  | Eps => k p cs
  | Chr c =>
      match snd p with
      | String d s' => if Ascii.eqb c d then k (S (fst p), s') cs else None
      | EmptyString => None
      end
  | Cls f =>
      match snd p with
      | String d s' => if f d then k (S (fst p), s') cs else None
      | EmptyString => None
      end
  | Seq r1 r2 => run r1 p cs (fun p1 cs1 => run r2 p1 cs1 k)
  | Alt r1 r2 => or_try (run r1 p cs k) (run r2 p cs k)
  | Star greedy r' =>
      star_loop (run r') greedy k (S (String.length (snd p))) p cs
  | Grp i r' =>
      run r' p cs
          (fun p1 cs1 =>
             k p1 ((i, JS.take (fst p1 - fst p) (snd p)) :: cs1))
  | Bol => if Nat.eqb (fst p) 0 then k p cs else None
  | Eol =>
      match snd p with
      | EmptyString => k p cs
      | String _ _ => None
      end
  | EolM =>
      match snd p with
      | EmptyString => k p cs
      | String d _ => if JS.is_line_terminator d then k p cs else None
      end
  end.

(** One match: start index, end index, captures. *)
Definition found : Type := nat * nat * caps.

(** Leftmost match at or after index [i], [s] being the text from [i]. *)
Fixpoint search (r : regex) (i : nat) (s : string) : option found :=
  match run r (i, s) [] (fun p1 cs1 => Some (fst p1, cs1)) with
  | Some (e, cs) => Some (i, e, cs)
  | None =>
      match s with
      | EmptyString => None
      | String _ s' => search r (S i) s'
      end
  end.

(** [re.exec(s)] without the [g] flag. *)
Definition exec (r : regex) (s : string) : option found := search r 0 s.

(** [re.test(s)] *)
Definition test (r : regex) (s : string) : bool :=
  match exec r s with Some _ => true | None => false end.

(** [s.replace(re, '')] without the [g] flag: the first match removed. *)
Definition remove_first (r : regex) (s : string) : string :=
  match exec r s with
  | Some (i, e, _) => JS.take i s ++ JS.drop e s
  | None => s
  end.

(** [s.replace(re, rep)] with the [g] flag, [rep] without dollar signs:
    every match, left to right, replaced; after an empty match the scan
    moves one character on.  [s] is the text from index [i]. *)
Fixpoint replace_all_go (r : regex) (rep : string) (fuel : nat)
         (i : nat) (s : string) : string :=
  match fuel with
  | O => s
  | S fuel' =>
      match run r (i, s) [] (fun p1 _ => Some (fst p1)) with
      | Some e =>
          if Nat.eqb e i then
            match s with
            | EmptyString => rep
            | String c s' =>
                rep ++ String c (replace_all_go r rep fuel' (S i) s')
            end
          else rep ++ replace_all_go r rep fuel' e (JS.drop (e - i) s)
      | None =>
          match s with
          | EmptyString => EmptyString
          | String c s' => String c (replace_all_go r rep fuel' (S i) s')
          end
      end
  end.

Definition replace_all (r : regex) (rep : string) (s : string) : string :=
  replace_all_go r rep (S (String.length s)) 0 s.

(** [s.split(re)] for a pattern without capture groups: at each index [q]
    the pattern is tried at [q] exactly; an empty match at the start of
    the current piece is skipped.  A step moves [q] on or, after an empty
    match, has the next step do so: twice the length bounds the steps. *)
Fixpoint split_go (r : regex) (fuel : nat) (s : string)
         (p q : nat) : list string :=
  match fuel with
  | O => [JS.drop p s]
  | S fuel' =>
      if Nat.leb (String.length s) q then [JS.drop p s]
      else
        match run r (q, JS.drop q s) [] (fun p1 _ => Some (fst p1)) with
        | None => split_go r fuel' s p (S q)
        | Some e =>
            let e' := Nat.min e (String.length s) in
            if Nat.eqb e' p then split_go r fuel' s p (S q)
            else JS.take (q - p) (JS.drop p s) :: split_go r fuel' s e' e'
        end
  end.

Definition split (r : regex) (s : string) : list string :=
  match s with
  | EmptyString =>
      match run r (0, s) [] (fun _ _ => Some tt) with
      | Some _ => []
      | None => [s]
      end
  | String _ _ => split_go r (2 * S (String.length s)) s 0 0
  end.

(** Notation-level helpers for writing the literals of the sources. *)
Fixpoint lit (s : string) : regex :=
  match s with
  | EmptyString => Eps
  | String c s' => Seq (Chr c) (lit s')
  end.

Fixpoint seqs (rs : list regex) : regex :=
  match rs with
  | [] => Eps
  | r :: rs' => Seq r (seqs rs')
  end.

Definition star (r : regex) : regex := Star true r.
Definition plus (r : regex) : regex := Seq r (Star true r).
Definition lazy_plus (r : regex) : regex := Seq r (Star false r).
Definition opt (r : regex) : regex := Alt r Eps.

Definition dot : regex := Cls (fun c => negb (JS.is_line_terminator c)).
Definition space : regex := Cls JS.is_space.
Definition letter : regex := Cls JS.is_letter.
Definition alnum : regex := Cls JS.is_alnum.
Definition alnum_dash : regex :=
  Cls (fun c => JS.is_alnum c || Ascii.eqb c "-").
Definition not_slash : regex := Cls (fun c => negb (Ascii.eqb c "/")).

End Regex.

(* ===================================================================== *)
(** ** Node's posix [path] module *)
(* ===================================================================== *)

Module Path.

(** One step of [normalizeString]: the segments kept so far, innermost
    first. *)
Definition pushSegment (allowAboveRoot : bool) (acc : list string)
           (seg : string) : list string :=
  if String.eqb seg "" || String.eqb seg "." then acc
  else if String.eqb seg ".." then
    match acc with
    | last :: rest =>
        if String.eqb last ".." then
          (if allowAboveRoot then ".." :: acc else acc)
        else rest
    | [] => if allowAboveRoot then [".."] else []
    end
  else seg :: acc.

Definition normalizeString (path : string) (allowAboveRoot : bool) : string :=
  JS.join "/"
    (List.rev (List.fold_left (pushSegment allowAboveRoot)
                              (JS.split "/" path) [])).

Definition isAbsolute (path : string) : bool := JS.startsWith "/" path.

Definition normalize (path : string) : string :=
  match path with
  | EmptyString => "."
  | String _ _ =>
      let absolute := isAbsolute path in
      let trailing := JS.endsWith "/" path in
      let body := normalizeString path (negb absolute) in
      match body with
      | EmptyString =>
          if absolute then "/" else if trailing then "./" else "."
      | String _ _ =>
          let body' := if trailing then body ++ "/" else body in
          if absolute then "/" ++ body' else body'
      end
  end.

Definition nonEmpty (s : string) : bool :=
  match s with EmptyString => false | String _ _ => true end.

(** [path.join(...parts)] *)
Definition join (parts : list string) : string :=
  match JS.join "/" (List.filter nonEmpty parts) with
  | EmptyString => "."
  | joined => normalize joined
  end.

(** [path.resolve(...parts)], [cwd] being the absolute working directory:
    the parts are taken right to left up to the first absolute one. *)
Fixpoint resolveFrom (revParts : list string) (acc : string) : string :=
  match revParts with
  | [] => acc
  | p :: rest =>
      if nonEmpty p then
        let acc' := p ++ "/" ++ acc in
        if isAbsolute p then acc' else resolveFrom rest acc'
      else resolveFrom rest acc
  end.

Definition resolve (cwd : string) (parts : list string) : string :=
  let joined := resolveFrom (List.rev (cwd :: parts)) "" in
  let absolute := isAbsolute joined in
  let body := normalizeString joined (negb absolute) in
  if absolute then "/" ++ body
  else match body with EmptyString => "." | String _ _ => body end.

(** The index [end] that [dirname] cuts at, scanning from the right over
    the characters at index 1 and above; [rs] is the text reversed, [i]
    the index of its head. *)
Fixpoint dirnameEnd (rs : string) (i : nat) (matchedSlash : bool)
  : option nat :=
  match rs, i with
  | String c rs', S i' =>
      if Ascii.eqb c "/" then
        if matchedSlash then dirnameEnd rs' i' true else Some i
      else dirnameEnd rs' i' false
  | _, _ => None
  end.

(** [path.dirname(p)] *)
Definition dirname (path : string) : string :=
  match path with
  | EmptyString => "."
  | String _ _ =>
      let hasRoot := isAbsolute path in
      match dirnameEnd (JS.rev path) (String.length path - 1) true with
      | None => if hasRoot then "/" else "."
      | Some e =>
          if hasRoot && Nat.eqb e 1 then "//" else JS.take e path
      end
  end.

Fixpoint stripTrailingSlashes (rs : string) : string :=
  match rs with
  | String c rs' => if Ascii.eqb c "/" then stripTrailingSlashes rs' else rs
  | EmptyString => EmptyString
  end.

Fixpoint untilSlash (rs : string) : string :=
  match rs with
  | String c rs' =>
      if Ascii.eqb c "/" then EmptyString else String c (untilSlash rs')
  | EmptyString => EmptyString
  end.

(** [path.basename(p, ext)] *)
Definition basename (path ext : string) : string :=
  if String.eqb ext path && nonEmpty ext then ""
  else
    let name := JS.rev (untilSlash (stripTrailingSlashes (JS.rev path))) in
    if nonEmpty ext && JS.endsWith ext name
       && Nat.ltb (String.length ext) (String.length name)
    then JS.take (String.length name - String.length ext) name
    else name.

End Path.

(* ===================================================================== *)
(** ** The file system the agent works on *)
(* ===================================================================== *)

Module FS.

(** Regular files with their text, and directories with the names of
    their entries. *)
Record t : Type := {
  files : gmap string string;
  dirs : gmap string (list string)
}.

(** [fs.existsSync(p)] *)
Definition existsSync (fs : t) (p : string) : bool :=
  bool_decide (is_Some (files fs !! p))
  || bool_decide (is_Some (dirs fs !! p)).

(** [fs.readdirSync(p)]; [None] when the call throws. *)
Definition readdirSync (fs : t) (p : string) : option (list string) :=
  dirs fs !! p.

Inductive Kind : Type := Directory | File.

(** [fs.statSync(p)], as far as [isDirectory()] and [isFile()] tell;
    [None] when the call throws. *)
Definition statSync (fs : t) (p : string) : option Kind :=
  match dirs fs !! p with
  | Some _ => Some Directory
  | None =>
      match files fs !! p with
      | Some _ => Some File
      | None => None
      end
  end.

(** [fs.readFile(p, 'utf-8')]; [None] when the call rejects. *)
Definition readFile (fs : t) (p : string) : option string := files fs !! p.

Definition put (p content : string) (fs : t) : t :=
  {| files := <[p := content]> (files fs); dirs := dirs fs |}.

Definition remove (p : string) (fs : t) : t :=
  {| files := delete p (files fs); dirs := dirs fs |}.

End FS.

(* ===================================================================== *)
(** ** MD5 (RFC 1321), the digest of [createHash('md5')] *)
(* ===================================================================== *)

Module MD5.
Local Open Scope N_scope.

Definition w32 : N := 0x100000000.
Definition add32 (a b : N) : N := (a + b) mod w32.
Definition not32 (a : N) : N := N.lxor a 0xffffffff.
Definition rotl32 (x c : N) : N :=
  N.lor (N.shiftl x c mod w32) (N.shiftr x (32 - c)).

Definition K : list N :=
  [0xd76aa478; 0xe8c7b756; 0x242070db; 0xc1bdceee;
   0xf57c0faf; 0x4787c62a; 0xa8304613; 0xfd469501;
   0x698098d8; 0x8b44f7af; 0xffff5bb1; 0x895cd7be;
   0x6b901122; 0xfd987193; 0xa679438e; 0x49b40821;
   0xf61e2562; 0xc040b340; 0x265e5a51; 0xe9b6c7aa;
   0xd62f105d; 0x02441453; 0xd8a1e681; 0xe7d3fbc8;
   0x21e1cde6; 0xc33707d6; 0xf4d50d87; 0x455a14ed;
   0xa9e3e905; 0xfcefa3f8; 0x676f02d9; 0x8d2a4c8a;
   0xfffa3942; 0x8771f681; 0x6d9d6122; 0xfde5380c;
   0xa4beea44; 0x4bdecfa9; 0xf6bb4b60; 0xbebfbc70;
   0x289b7ec6; 0xeaa127fa; 0xd4ef3085; 0x04881d05;
   0xd9d4d039; 0xe6db99e5; 0x1fa27cf8; 0xc4ac5665;
   0xf4292244; 0x432aff97; 0xab9423a7; 0xfc93a039;
   0x655b59c3; 0x8f0ccc92; 0xffeff47d; 0x85845dd1;
   0x6fa87e4f; 0xfe2ce6e0; 0xa3014314; 0x4e0811a1;
   0xf7537e82; 0xbd3af235; 0x2ad7d2bb; 0xeb86d391].

Definition shifts : list N :=
  [7; 12; 17; 22; 7; 12; 17; 22; 7; 12; 17; 22; 7; 12; 17; 22;
   5; 9; 14; 20; 5; 9; 14; 20; 5; 9; 14; 20; 5; 9; 14; 20;
   4; 11; 16; 23; 4; 11; 16; 23; 4; 11; 16; 23; 4; 11; 16; 23;
   6; 10; 15; 21; 6; 10; 15; 21; 6; 10; 15; 21; 6; 10; 15; 21].

(** UTF-8 bytes of a text whose code units are below U+0100. *)
Fixpoint utf8 (s : string) : list N :=
  match s with
  | EmptyString => []
  | String c s' =>
      let n := N_of_ascii c in
      if n <? 128 then n :: utf8 s'
      else N.lor 0xc0 (N.shiftr n 6) :: N.lor 0x80 (N.land n 0x3f) :: utf8 s'
  end.

Fixpoint leBytes (count : nat) (x : N) : list N :=
  match count with
  | O => []
  | S count' => x mod 256 :: leBytes count' (x / 256)
  end.

(** The message, one 1 bit, zeros up to 56 modulo 64, then the bit length
    in 8 little-endian bytes. *)
Definition pad (msg : list N) : list N :=
  let len := N.of_nat (List.length msg) in
  let zeros := (55 + 64 - len mod 64) mod 64 in
  msg ++ [0x80] ++ List.repeat 0 (N.to_nat zeros) ++ leBytes 8 (8 * len).

Fixpoint leWord (bs : list N) : N :=
  match bs with
  | [] => 0
  | b :: bs' => b + 256 * leWord bs'
  end.

Fixpoint words (count : nat) (bs : list N) : list N :=
  match count with
  | O => []
  | S count' => leWord (List.firstn 4 bs) :: words count' (List.skipn 4 bs)
  end.

Record State : Type := { sa : N; sb : N; sc : N; sd : N }.

Definition init : State :=
  {| sa := 0x67452301; sb := 0xefcdab89; sc := 0x98badcfe; sd := 0x10325476 |}.

Definition step (M : list N) (st : State) (i : N) : State :=
  let '(f, g) :=
    if i <? 16 then
      (N.lor (N.land (sb st) (sc st)) (N.land (not32 (sb st)) (sd st)), i)
    else if i <? 32 then
      (N.lor (N.land (sd st) (sb st)) (N.land (not32 (sd st)) (sc st)),
       (5 * i + 1) mod 16)
    else if i <? 48 then
      (N.lxor (sb st) (N.lxor (sc st) (sd st)), (3 * i + 5) mod 16)
    else
      (N.lxor (sc st) (N.lor (sb st) (not32 (sd st))), (7 * i) mod 16) in
  let f' := add32 (add32 (add32 f (sa st)) (List.nth (N.to_nat i) K 0))
                  (List.nth (N.to_nat g) M 0) in
  {| sa := sd st;
     sb := add32 (sb st) (rotl32 f' (List.nth (N.to_nat i) shifts 0));
     sc := sb st;
     sd := sc st |}.

Definition block (st : State) (M : list N) : State :=
  let st' := List.fold_left (step M) (List.map N.of_nat (List.seq 0 64)) st in
  {| sa := add32 (sa st) (sa st'); sb := add32 (sb st) (sb st');
     sc := add32 (sc st) (sc st'); sd := add32 (sd st) (sd st') |}.

Fixpoint blocks (count : nat) (bs : list N) (st : State) : State :=
  match count with
  | O => st
  | S count' => blocks count' (List.skipn 64 bs) (block st (words 16 bs))
  end.

Definition hexDigit (n : N) : ascii :=
  if n <? 10 then ascii_of_N (48 + n) else ascii_of_N (87 + n).

Fixpoint hexBytes (bs : list N) : string :=
  match bs with
  | [] => EmptyString
  | b :: bs' => String (hexDigit (b / 16)) (String (hexDigit (b mod 16)) (hexBytes bs'))
  end.

(** [createHash('md5').update(content).digest('hex')] *)
Definition hex (content : string) : string :=
  let bs := pad (utf8 content) in
  let st := blocks (List.length bs / 64) bs init in
  hexBytes (leBytes 4 (sa st) ++ leBytes 4 (sb st)
            ++ leBytes 4 (sc st) ++ leBytes 4 (sd st)).

End MD5.

(* ===================================================================== *)
(** ** src/safety/loop-guard.js *)
(* ===================================================================== *)

Module LoopGuard.

Record WriteRecord : Type := {
  hash : string;
  timestamp : Z
}.

(** [recentWrites] maps a file path or a [sheet:<id>] marker to the
    record of the last write; [ttl] is in milliseconds. *)
Record t : Type := {
  recentWrites : gmap string WriteRecord;
  ttl : Z
}.

(** [new LoopGuard(options)]: [options.ttl || 2000]. *)
Definition create (ttlOption : option Z) : t :=
  {| recentWrites := ∅;
     ttl := match ttlOption with
            | Some n => if (n =? 0)%Z then 2000%Z else n
            | None => 2000%Z
            end |}.

Definition computeHash (content : string) : string := MD5.hex content.

Definition registerWrite (now : Z) (filePath content : string) (g : t) : t :=
  {| recentWrites :=
       <[filePath := {| hash := computeHash content; timestamp := now |}]>
         (recentWrites g);
     ttl := ttl g |}.

(** The answer and the guard afterwards: an expired record is deleted. *)
Definition shouldIgnore (now : Z) (filePath content : string) (g : t)
  : bool * t :=
  match recentWrites g !! filePath with
  | None => (false, g)
  | Some record =>
      if (ttl g <? now - timestamp record)%Z then
        (false, {| recentWrites := delete filePath (recentWrites g);
                   ttl := ttl g |})
      else (String.eqb (hash record) (computeHash content), g)
  end.

Definition sheetKey (styleSheetId : string) : string :=
  "sheet:" ++ styleSheetId.

Definition registerStyleSheetWrite (now : Z) (styleSheetId content : string)
           (g : t) : t :=
  {| recentWrites :=
       <[sheetKey styleSheetId :=
           {| hash := computeHash content; timestamp := now |}]>
         (recentWrites g);
     ttl := ttl g |}.

Definition shouldIgnoreStyleSheet (now : Z) (styleSheetId content : string)
           (g : t) : bool * t :=
  shouldIgnore now (sheetKey styleSheetId) content g.

(** The periodic sweep. *)
Definition cleanup (now : Z) (g : t) : t :=
  {| recentWrites :=
       filter (fun kv => ¬ (ttl g < now - timestamp (snd kv))%Z)
              (recentWrites g);
     ttl := ttl g |}.

Definition destroy (g : t) : t := {| recentWrites := ∅; ttl := ttl g |}.

End LoopGuard.

(* ===================================================================== *)
(** ** src/cdp/registry.js *)
(* ===================================================================== *)

Module Registry.

(** The header the browser sends with [styleSheetAdded]. *)
Record Header : Type := {
  styleSheetId : string;
  sourceURL : string;
  isInline : bool;
  sourceMapURL : string
}.

(** One entry of [sheets]; [viteDevId] and [originalSource] are absent
    until set. *)
Record Sheet : Type := {
  header : Header;
  text : option string;
  lastModified : option Z;
  viteDevId : option string;
  originalSource : option string
}.

Definition register (h : Header) (sheets : gmap string Sheet)
  : gmap string Sheet :=
  match sheets !! styleSheetId h with
  | Some _ => sheets
  | None =>
      <[styleSheetId h :=
          {| header := h; text := None; lastModified := None;
             viteDevId := None; originalSource := None |}]> sheets
  end.

Definition get (id : string) (sheets : gmap string Sheet) : option Sheet :=
  sheets !! id.

Definition updateText (now : Z) (id newText : string)
           (sheets : gmap string Sheet) : gmap string Sheet :=
  match sheets !! id with
  | Some sheet =>
      <[id := {| header := header sheet; text := Some newText;
                 lastModified := Some now;
                 viteDevId := viteDevId sheet;
                 originalSource := originalSource sheet |}]> sheets
  | None => sheets
  end.

(** [sheet?.text || null] *)
Definition getPreviousText (id : string) (sheets : gmap string Sheet)
  : option string :=
  match sheets !! id with
  | Some sheet => JS.or_else (text sheet) None
  | None => None
  end.

(** [sheet?.viteDevId || sheet?.header?.sourceURL || null] *)
Definition getSourceURL (id : string) (sheets : gmap string Sheet)
  : option string :=
  match sheets !! id with
  | Some sheet =>
      JS.or_else (viteDevId sheet) (Some (sourceURL (header sheet)))
  | None => None
  end.

Definition setViteDevId (id path : string) (sheets : gmap string Sheet)
  : gmap string Sheet :=
  match sheets !! id with
  | Some sheet =>
      <[id := {| header := header sheet; text := text sheet;
                 lastModified := lastModified sheet;
                 viteDevId := Some path;
                 originalSource := originalSource sheet |}]> sheets
  | None => sheets
  end.

Definition getViteDevId (id : string) (sheets : gmap string Sheet)
  : option string :=
  match sheets !! id with
  | Some sheet => JS.or_else (viteDevId sheet) None
  | None => None
  end.

Definition setOriginalSource (id path : string) (sheets : gmap string Sheet)
  : gmap string Sheet :=
  match sheets !! id with
  | Some sheet =>
      <[id := {| header := header sheet; text := text sheet;
                 lastModified := lastModified sheet;
                 viteDevId := viteDevId sheet;
                 originalSource := Some path |}]> sheets
  | None => sheets
  end.

Definition getOriginalSource (id : string) (sheets : gmap string Sheet)
  : option string :=
  match sheets !! id with
  | Some sheet => JS.or_else (originalSource sheet) None
  | None => None
  end.

(** The predicate of [getFileBasedSheets]. *)
Definition isFileBased (sheet : Sheet) : bool :=
  JS.truthy (viteDevId sheet)
  || JS.truthy (originalSource sheet)
  || (JS.truthy (Some (sourceURL (header sheet)))
      && negb (isInline (header sheet))
      && (JS.startsWith "http" (sourceURL (header sheet))
          || JS.startsWith "file" (sourceURL (header sheet)))).

Definition remove (id : string) (sheets : gmap string Sheet)
  : gmap string Sheet := delete id sheets.

Definition clear (sheets : gmap string Sheet) : gmap string Sheet := ∅.

End Registry.

(* ===================================================================== *)
(** ** The postcss tree, as the sources read and edit it *)
(* ===================================================================== *)

Module PostCSS.

(** [line] and [column] are both 1-based in postcss. *)
Record Position : Type := { line : Z; column : Z }.

Record Source : Type := {
  start : option Position;
  finish : option Position
}.

Inductive Node : Type :=
| Decl (prop value : string) (important : bool) (source : option Source)
| Rule (selector : string) (nodes : list Node)
| AtRule (name : string) (nodes : list Node)
| Comment (text : string).

(** A root is the list of its top-level nodes. *)
Definition Root : Type := list Node.

(** The external library: [postcss.parse], [postcss-scss]'s [parse]
    ([None] when the call throws) and [root.toString()] for each
    syntax. *)
Record Lib : Type := {
  css_parse : string -> option Root;
  scss_parse : string -> option Root;
  css_stringify : Root -> string;
  scss_stringify : Root -> string
}.

Fixpoint height (n : Node) : nat :=
  match n with
  | Rule _ ns | AtRule _ ns =>
      S (List.fold_right (fun x h => Nat.max (height x) h) 0%nat ns)
  | _ => 0%nat
  end.

Definition maxHeight (l : list Node) : nat :=
  List.fold_right (fun x h => Nat.max (height x) h) 0%nat l.

Definition rootHeight (root : Root) : nat := S (maxHeight root).

End PostCSS.

(* ===================================================================== *)
(** ** src/diff/text-diff.js *)
(* ===================================================================== *)

Module TextDiff.

(** The tag of a piece that [fast-diff] returns: [fastDiff.DELETE] is -1,
    [fastDiff.EQUAL] is 0 and [fastDiff.INSERT] is 1; the library uses no
    other. *)
Inductive Op : Type := DELETE | EQUAL | INSERT.

(** ['replace'], ['delete'] and ['insert']. *)
Inductive Kind : Type := Replace | Delete | Insert.

Record Change : Type := {
  type : Kind;
  oldStart : nat;
  oldEnd : nat;
  newStart : nat;
  newEnd : nat;
  oldContent : string;
  newContent : string
}.

(** The [while] loop of [findChanges], [diffs] being the pieces from index
    [i] on: a [DELETE] directly followed by an [INSERT] is one
    replacement. *)
Fixpoint collect (diffs : list (Op * string)) (oldPos newPos : nat)
  : list Change :=
  match diffs with
  | [] => []
  | (EQUAL, text) :: rest =>
      collect rest (oldPos + String.length text) (newPos + String.length text)
  | (DELETE, text) :: rest =>
      match rest with
      | (INSERT, insertText) :: rest' =>
          {| type := Replace;
             oldStart := oldPos;
             oldEnd := oldPos + String.length text;
             newStart := newPos;
             newEnd := newPos + String.length insertText;
             oldContent := text;
             newContent := insertText |}
          :: collect rest' (oldPos + String.length text)
                     (newPos + String.length insertText)
      | _ =>
          {| type := Delete;
             oldStart := oldPos;
             oldEnd := oldPos + String.length text;
             newStart := newPos;
             newEnd := newPos;
             oldContent := text;
             newContent := "" |}
          :: collect rest (oldPos + String.length text) newPos
      end
  | (INSERT, text) :: rest =>
      {| type := Insert;
         oldStart := oldPos;
         oldEnd := oldPos;
         newStart := newPos;
         newEnd := newPos + String.length text;
         oldContent := "";
         newContent := text |}
      :: collect rest oldPos (newPos + String.length text)
  end.

(** [findChanges(oldText, newText)], the library call being a
    parameter. *)
Definition findChanges (fastDiff : string -> string -> list (Op * string))
           (oldText newText : string) : list Change :=
  collect (fastDiff oldText newText) 0 0.

(** A 1-based line and a 0-based column. *)
Record Position : Type := { line : Z; column : Z }.

Definition newline : ascii := "010"%char.

(** The loop of [offsetToPosition]: [text] is the text from [pos] on,
    [steps] the iterations that [pos < offset] still allows. *)
Fixpoint scan (text : string) (steps : nat) (l c : Z) {struct steps}
  : Position :=
  match steps, text with
  | S steps', String ch text' =>
      if Ascii.eqb ch newline then scan text' steps' (l + 1) 0
      else scan text' steps' l (c + 1)
  | _, _ => {| line := l; column := c |}
  end.

(** [offsetToPosition(text, offset)] for an integral [offset]. *)
Definition offsetToPosition (text : string) (offset : Z) : Position :=
  scan text (Z.to_nat offset) 1 0.

(** The loop of [positionToOffset]: [lines] from index [i] on, [steps] the
    iterations that [i < line - 1] still allows. *)
Fixpoint lineOffsets (lines : list string) (steps : nat) {struct steps}
  : Z :=
  match steps, lines with
  | S steps', l :: rest =>
      Z.of_nat (String.length l) + 1 + lineOffsets rest steps'
  | _, _ => 0
  end.

(** [positionToOffset(text, line, column)] for integral arguments.  The
    sums are sums of integers, which is what the code's additions of
    doubles give as long as the operands and the result stay within
    [2 ^ 53] in magnitude; past that the code rounds and this definition
    does not. *)
Definition positionToOffset (text : string) (line column : Z) : Z :=
  lineOffsets (JS.split newline text) (Z.to_nat (line - 1)) + column.

End TextDiff.

(* ===================================================================== *)
(** ** src/diff/css-parser.js *)
(* ===================================================================== *)

Module Differ.
Import PostCSS.

(** One entry of [parseDeclarations]; [d_start] has a 0-based column. *)
Record Declaration : Type := {
  d_selector : string;
  d_prop : string;
  d_value : string;
  d_important : bool;
  d_start : Position;
  d_end : option Position
}.

Inductive ChangeType : Type := add | change | delete.

(** One entry of [findChangedDeclarations]; a deletion carries no
    [important] field. *)
Record Change : Type := {
  type : ChangeType;
  selector : string;
  prop : string;
  oldValue : option string;
  newValue : option string;
  important : option bool;
  position : Position
}.

(** [x || '(unknown)'] for a name that is a string or absent. *)
Definition orUnknown (name : string) : string :=
  match name with
  | EmptyString => "(unknown)"
  | String _ _ => name
  end.

Definition zeroBased (p : Position) : Position :=
  {| line := line p; column := column p - 1 |}.

(** [root.walkDecls(cb)] with the callback of [parseDeclarations]:
    every declaration, in document order, under the name of its parent
    ([rule.selector || rule.name || '(unknown)']). *)
Fixpoint walkDecls (parentName : string) (n : Node) : list Declaration :=
  match n with
  | Decl p v i src =>
      match src with
      | Some {| start := Some st; finish := e |} =>
          [{| d_selector := parentName; d_prop := p; d_value := v;
              d_important := i; d_start := zeroBased st;
              d_end := option_map zeroBased e |}]
      | _ => []
      end
  | Rule sel ns => List.flat_map (walkDecls (orUnknown sel)) ns
  | AtRule name ns => List.flat_map (walkDecls (orUnknown name)) ns
  | Comment _ => []
  end.

(** A parse error is caught and logged; the list filled so far, which is
    empty, is returned. *)
Definition parseDeclarations (lib : Lib) (cssText : string)
  : list Declaration :=
  match css_parse lib cssText with
  | None => []
  | Some root => List.flat_map (walkDecls (orUnknown "")) root
  end.

(** [`${decl.selector}|${decl.prop}`] *)
Definition keyOf (d : Declaration) : string :=
  d_selector d ++ "|" ++ d_prop d.

(** A [Map] from keys to lists, in insertion order. *)
Definition DeclMap : Type := list (string * list Declaration).

Fixpoint mapGet (key : string) (m : DeclMap) : option (list Declaration) :=
  match m with
  | [] => None
  | (k, ds) :: m' => if String.eqb k key then Some ds else mapGet key m'
  end.

(** [if (!map.has(key)) map.set(key, []); map.get(key).push(decl)] *)
Fixpoint mapPush (key : string) (d : Declaration) (m : DeclMap) : DeclMap :=
  match m with
  | [] => [(key, [d])]
  | (k, ds) :: m' =>
      if String.eqb k key then (k, (ds ++ [d])%list) :: m'
      else (k, ds) :: mapPush key d m'
  end.

Definition buildMap (decls : list Declaration) : DeclMap :=
  List.fold_left (fun m d => mapPush (keyOf d) d m) decls [].

Definition withImportant (d : Declaration) : string :=
  d_value d ++ (if d_important d then " !important" else "").

Definition addOf (newDecl : Declaration) : Change :=
  {| type := add; selector := d_selector newDecl; prop := d_prop newDecl;
     oldValue := None; newValue := Some (d_value newDecl);
     important := Some (d_important newDecl);
     position := d_start newDecl |}.

Definition changeOf (oldDecl newDecl : Declaration) : Change :=
  {| type := change; selector := d_selector newDecl; prop := d_prop newDecl;
     oldValue := Some (withImportant oldDecl);
     newValue := Some (withImportant newDecl);
     important := Some (d_important newDecl);
     position := d_start newDecl |}.

Definition deleteOf (oldDecl : Declaration) : Change :=
  {| type := delete; selector := d_selector oldDecl; prop := d_prop oldDecl;
     oldValue := Some (d_value oldDecl); newValue := None;
     important := None;
     position := d_start oldDecl |}.

Definition differs (oldDecl newDecl : Declaration) : bool :=
  negb (String.eqb (d_value oldDecl) (d_value newDecl))
  || negb (Bool.eqb (d_important oldDecl) (d_important newDecl)).

(** The inner loop over [newDeclList], [oldDeclList[i]] read alongside. *)
Fixpoint compareLists (newDeclList oldDeclList : list Declaration)
  : list Change :=
  match newDeclList with
  | [] => []
  | newDecl :: news =>
      match oldDeclList with
      | [] => addOf newDecl :: compareLists news []
      | oldDecl :: olds =>
          if differs oldDecl newDecl
          then changeOf oldDecl newDecl :: compareLists news olds
          else compareLists news olds
      end
  end.

Definition orEmpty (l : option (list Declaration)) : list Declaration :=
  match l with Some ds => ds | None => [] end.

Definition changedPart (oldDeclMap newDeclMap : DeclMap) : list Change :=
  List.flat_map
    (fun entry => compareLists (snd entry)
                               (orEmpty (mapGet (fst entry) oldDeclMap)))
    newDeclMap.

Definition deletedPart (oldDeclMap newDeclMap : DeclMap) : list Change :=
  List.flat_map
    (fun entry =>
       List.map deleteOf
         (List.skipn
            (List.length (orEmpty (mapGet (fst entry) newDeclMap)))
            (snd entry)))
    oldDeclMap.

Definition diffDeclarations (oldDecls newDecls : list Declaration)
  : list Change :=
  let oldDeclMap := buildMap oldDecls in
  let newDeclMap := buildMap newDecls in
  (changedPart oldDeclMap newDeclMap
   ++ deletedPart oldDeclMap newDeclMap)%list.

Definition findChangedDeclarations (lib : Lib) (oldCss newCss : string)
  : list Change :=
  diffDeclarations (parseDeclarations lib oldCss)
                   (parseDeclarations lib newCss).

End Differ.

(* ===================================================================== *)
(** ** src/mapper/url-resolver.js *)
(* ===================================================================== *)

Module URLResolver.
Import Regex.

(** The resolver's options and the two library calls it makes:
    [new URL(url, devServerBase).pathname] ([None] when the constructor
    throws) and [fileURLToPath(url)] ([None] when it throws); [cwd] is
    the working directory of the process. *)
Record t : Type := {
  cwd : string;
  projectRoot : string;
  mappings : list (string * string);
  urlPathname : string -> option string;
  fileURLToPath : string -> option string
}.

(** Result of a call that may throw. *)
Inductive Outcome (A : Type) : Type :=
| Returned (a : A)
| Thrown.
Arguments Returned {A} a.
Arguments Thrown {A}.

Fixpoint firstExisting (fs : FS.t) (candidates : list string)
  : option string :=
  match candidates with
  | [] => None
  | p :: rest => if FS.existsSync fs p then Some p else firstExisting fs rest
  end.

Definition findInProject (r : t) (fs : FS.t) (filename : string)
  : option string :=
  firstExisting fs
    [Path.join [projectRoot r; "src"; "styles"; filename];
     Path.join [projectRoot r; "src"; "css"; filename];
     Path.join [projectRoot r; "styles"; filename];
     Path.join [projectRoot r; "css"; filename];
     Path.join [projectRoot r; "public"; "styles"; filename];
     Path.join [projectRoot r; "public"; "css"; filename]].

(** The literal /\?.*$/ *)
Definition queryString : regex := seqs [Chr "?"; star dot; Eol].

Definition nextBuildPath (r : t) (cssPath : string) : string :=
  Path.join [projectRoot r; ".next"; "static"; "css"; cssPath].

Definition globalPaths (r : t) (dirname : string) : list string :=
  [Path.join [projectRoot r; dirname; "globals.css"];
   Path.join [projectRoot r; dirname; "global.css"];
   Path.join [projectRoot r; dirname; "globals.scss"];
   Path.join [projectRoot r; dirname; "global.scss"];
   Path.join [projectRoot r; "app"; "globals.css"];
   Path.join [projectRoot r; "app"; "global.scss"];
   Path.join [projectRoot r; "styles"; "globals.css"];
   Path.join [projectRoot r; "styles"; "global.scss"]].

Definition modulePaths (r : t) (dirname : string) : list string :=
  [Path.join [projectRoot r; dirname; "page.module.scss"];
   Path.join [projectRoot r; dirname; "page.module.css"];
   Path.join [projectRoot r; dirname; "styles.module.scss"];
   Path.join [projectRoot r; dirname; "styles.module.css"]].

Definition findNextJSSource (r : t) (fs : FS.t) (cssPath0 : string)
  : option string :=
  let cssPath := remove_first queryString cssPath0 in
  if FS.existsSync fs (nextBuildPath r cssPath) then
    Some (nextBuildPath r cssPath)
  else
    let pathParts := JS.split "/" cssPath in
    let filename := List.last pathParts "" in
    let dirname := JS.join "/" (List.removelast pathParts) in
    match
      (if String.eqb filename "layout.css"
       then firstExisting fs (globalPaths r dirname) else None)
    with
    | Some p => Some p
    | None =>
        if String.eqb filename "page.css"
        then firstExisting fs (modulePaths r dirname)
        else None
    end.

(** The literal /^(?:\/[^/]+)?\/_next\/static\/css\/(.+?)(?:\?.* )?$/
    (a blank added after the star). *)
Definition nextPattern : regex :=
  seqs [Bol; opt (Seq (Chr "/") (plus not_slash));
        lit "/_next/static/css/"; Grp 1 (lazy_plus dot);
        opt (Seq (Chr "?") (star dot)); Eol].

(** The literals /^\/<dir>\/(.+\.css)$/ and, for the empty [prefix],
    /^\/(.+\.css)$/ *)
Definition cssUnder (prefix : string) : regex :=
  seqs [Bol; lit prefix; Grp 1 (Seq (plus dot) (lit ".css")); Eol].

Definition Mapping : Type := regex * (t -> FS.t -> string -> option string).

Definition defaultMappings : list Mapping :=
  [(nextPattern, findNextJSSource);
   (cssUnder "/src/",
    fun r _ m1 => Some (Path.join [projectRoot r; "src"; m1]));
   (cssUnder "/assets/", findInProject);
   (cssUnder "/static/",
    fun r _ m1 => Some (Path.join [projectRoot r; "static"; m1]));
   (cssUnder "/styles/",
    fun r _ m1 => Some (Path.join [projectRoot r; "styles"; m1]));
   (cssUnder "/css/",
    fun r _ m1 => Some (Path.join [projectRoot r; "css"; m1]));
   (cssUnder "/",
    fun r _ m1 => Some (Path.join [projectRoot r; "public"; m1]))].

(** [match[1]] of [pathname.match(pattern)] *)
Definition matchGroup1 (pattern : regex) (pathname : string)
  : option string :=
  match exec pattern pathname with
  | Some (_, _, cs) => capture 1 cs
  | None => None
  end.

Fixpoint applyDefaults (r : t) (fs : FS.t) (pathname : string)
         (ms : list Mapping) : option string :=
  match ms with
  | [] => None
  | (pattern, resolveFn) :: rest =>
      let hit :=
        match matchGroup1 pattern pathname with
        | Some m1 =>
            match resolveFn r fs m1 with
            | Some localPath =>
                if Path.nonEmpty localPath && FS.existsSync fs localPath
                then Some localPath else None
            | None => None
            end
        | None => None
        end in
      match hit with
      | Some p => Some p
      | None => applyDefaults r fs pathname rest
      end
  end.

(** The replacement text of [String.prototype.replace] for a string
    pattern matched at the start of [subject]: dollar-dollar is a dollar
    sign, dollar-ampersand the matched text, dollar-backquote the text
    before it (empty here), dollar-quote the text after it. *)
Fixpoint expandReplacement (replacement matched after : string) : string :=
  match replacement with
  | String "$" (String "$" rest) =>
      String "$" (expandReplacement rest matched after)
  | String "$" (String "&" rest) =>
      matched ++ expandReplacement rest matched after
  | String "$" (String "`" rest) => expandReplacement rest matched after
  | String "$" (String "'" rest) =>
      after ++ expandReplacement rest matched after
  | String c rest => String c (expandReplacement rest matched after)
  | EmptyString => EmptyString
  end.

(** [pathname.replace(pattern, replacement)] when [pathname] starts with
    [pattern]. *)
Definition replacePrefix (pattern replacement pathname : string) : string :=
  let after := JS.drop (String.length pattern) pathname in
  expandReplacement replacement pattern after ++ after.

Fixpoint applyMappings (r : t) (fs : FS.t) (pathname : string)
         (ms : list (string * string)) : option string :=
  match ms with
  | [] => None
  | (pattern, replacement) :: rest =>
      let fullPath :=
        Path.resolve (cwd r)
                     [projectRoot r;
                      replacePrefix pattern replacement pathname] in
      if JS.startsWith pattern pathname && FS.existsSync fs fullPath
      then Some fullPath
      else applyMappings r fs pathname rest
  end.

Definition directPaths (r : t) (pathname : string) : list string :=
  [Path.join [projectRoot r; pathname];
   Path.join [projectRoot r; "src"; pathname];
   Path.join [projectRoot r; "public"; pathname]].

(** [resolve(url)], [url] being a string or [null]. *)
Definition resolve (r : t) (fs : FS.t) (url : option string)
  : Outcome (option string) :=
  match url with
  | None | Some EmptyString => Returned None
  | Some u =>
      if JS.startsWith "file://" u then
        match fileURLToPath r u with
        | Some p => Returned (Some p)
        | None => Thrown
        end
      else
        let pathname :=
          match urlPathname r u with Some p => p | None => u end in
        Returned
          (match applyMappings r fs pathname (mappings r) with
           | Some p => Some p
           | None =>
               match applyDefaults r fs pathname defaultMappings with
               | Some p => Some p
               | None => firstExisting fs (directPaths r pathname)
               end
           end)
  end.

End URLResolver.

(* ===================================================================== *)
(** ** src/mapper/selector-resolver.js *)
(* ===================================================================== *)

Module SelectorResolver.
Import Regex.

Record Parsed : Type := {
  component : string;
  className : string;
  originalSelector : string;
  hasNested : bool;
  nestedParts : list string
}.

(** "[A-Za-z][A-Za-z0-9]*" *)
Definition componentName : regex := Seq letter (star alnum).
(** "[a-zA-Z][a-zA-Z0-9-]*" *)
Definition classIdent : regex := Seq letter (star alnum_dash).
(** "[a-zA-Z0-9]+" *)
Definition hashPart : regex := plus alnum.

(** The literal
    /^\.([A-Za-z][A-Za-z0-9]* )-module_([a-zA-Z][a-zA-Z0-9-]* )__[a-zA-Z0-9]+$/
    with a blank after each star that precedes a closing parenthesis. *)
Definition nextjsPattern : regex :=
  seqs [Bol; Chr "."; Grp 1 componentName; lit "-module_";
        Grp 2 classIdent; lit "__"; hashPart; Eol].

(** The literal
    /^\.(?:[a-zA-Z0-9]+_)*([A-Za-z][A-Za-z0-9]* )-module_([a-zA-Z][a-zA-Z0-9-]* )__[a-zA-Z0-9]+$/
    with a blank after each star that precedes a closing parenthesis. *)
Definition pathNextjsPattern : regex :=
  seqs [Bol; Chr "."; star (Seq (plus alnum) (Chr "_"));
        Grp 1 componentName; lit "-module_";
        Grp 2 classIdent; lit "__"; hashPart; Eol].

(** The literal
    /^\.(?:[a-zA-Z0-9]+-)*([A-Za-z][A-Za-z0-9]* )-module__([a-zA-Z][a-zA-Z0-9-]* )--[a-zA-Z0-9]+$/
    with a blank after each star that precedes a closing parenthesis. *)
Definition bemPattern : regex :=
  seqs [Bol; Chr "."; star (Seq (plus alnum) (Chr "-"));
        Grp 1 componentName; lit "-module__";
        Grp 2 classIdent; lit "--"; hashPart; Eol].

(** The literal
    /^\.(?:[a-zA-Z0-9]+_)*([A-Za-z][A-Za-z0-9]* )_([a-zA-Z][a-zA-Z0-9-]* )__[a-zA-Z0-9]+$/
    with a blank after each star that precedes a closing parenthesis. *)
Definition pathPattern : regex :=
  seqs [Bol; Chr "."; star (Seq (plus alnum) (Chr "_"));
        Grp 1 componentName; Chr "_";
        Grp 2 classIdent; lit "__"; hashPart; Eol].

(** The literal
    /^\.([A-Za-z][A-Za-z0-9]* )_([a-zA-Z][a-zA-Z0-9-]* )__[a-zA-Z0-9]+$/
    with a blank after each star that precedes a closing parenthesis. *)
Definition simplePattern : regex :=
  seqs [Bol; Chr "."; Grp 1 componentName; Chr "_";
        Grp 2 classIdent; lit "__"; hashPart; Eol].

Definition patterns : list regex :=
  [nextjsPattern; pathNextjsPattern; bemPattern; pathPattern; simplePattern].

(** [mainSelector.match(p)] and the object built from [match[1]],
    [match[2]]. *)
Definition tryPattern (p : regex) (mainSelector : string)
           (nested : list string) : option Parsed :=
  match exec p mainSelector with
  | Some (_, _, cs) =>
      match capture 1 cs, capture 2 cs with
      | Some comp, Some cls =>
          Some {| component := comp;
                  className := cls;
                  originalSelector := "." ++ cls;
                  hasNested := Nat.ltb 0 (List.length nested);
                  nestedParts := nested |}
      | _, _ => None
      end
  | None => None
  end.

Fixpoint firstPattern (ps : list regex) (mainSelector : string)
         (nested : list string) : option Parsed :=
  match ps with
  | [] => None
  | p :: ps' =>
      match tryPattern p mainSelector nested with
      | Some r => Some r
      | None => firstPattern ps' mainSelector nested
      end
  end.

Definition parseCSSModuleSelector (selector : string) : option Parsed :=
  let parts := Regex.split (plus space) selector in
  let mainSelector := List.hd EmptyString parts in
  firstPattern patterns mainSelector (List.tl parts).

(** The two resolver caches: [cache] maps a compiled selector to the file
    and the original selector found for it, [fileCache] a path to the
    text read from it. *)
Record Caches : Type := {
  cache : gmap string (string * string);
  fileCache : gmap string string
}.

Definition excludeDirs : list string :=
  ["node_modules"; ".next"; ".git"; "dist"; "build"].

Definition includes (names : list string) (entry : string) : bool :=
  List.existsb (String.eqb entry) names.

(** [searchFiles(dir, patterns, results, componentName, depth)]: [fuel] is
    [11 - depth], the levels still allowed by [if (depth > 10) return];
    an entry that cannot be listed or examined is skipped. *)
Fixpoint searchFiles (fuel : nat) (fs : FS.t) (dir : string)
         (filePatterns : list string) : list string :=
  match fuel with
  | O => []
  | S fuel' =>
      match FS.readdirSync fs dir with
      | None => []
      | Some entries =>
          List.flat_map
            (fun entry =>
               let fullPath := Path.join [dir; entry] in
               match FS.statSync fs fullPath with
               | Some FS.Directory =>
                   if includes excludeDirs entry then []
                   else searchFiles fuel' fs fullPath filePatterns
               | Some FS.File =>
                   if includes filePatterns entry then [fullPath] else []
               | None => []
               end)
            entries
      end
  end.

Definition findModuleFiles (fs : FS.t) (projectRoot componentName : string)
  : list string :=
  searchFiles 11 fs projectRoot
              [componentName ++ ".module.scss";
               componentName ++ ".module.css"].

(** The four expressions built from [className] with the [m] flag; a
    class name taken from [parseCSSModuleSelector] has no character that
    is special in a regular expression. *)
Definition selectorPatterns (cls : string) : list regex :=
  [seqs [Chr "."; lit cls; star space; Chr "{"];
   seqs [Chr "&"; Chr "."; lit cls; star space; Chr "{"];
   seqs [Chr "."; lit cls; star space; Chr ","];
   seqs [Chr "."; lit cls; star space; EolM]].

(** [hasSelector(filePath, className)]; a file that cannot be read gives
    [false]. *)
Definition hasSelector (fs : FS.t) (filePath cls : string) (c : Caches)
  : bool * Caches :=
  let cached := fileCache c !! filePath in
  let loaded :=
    if JS.truthy cached then Some (cached, c)
    else match FS.readFile fs filePath with
         | Some content =>
             Some (Some content,
                   {| cache := cache c;
                      fileCache := <[filePath := content]> (fileCache c) |})
         | None => None
         end in
  match loaded with
  | Some (Some content, c') =>
      (List.existsb (fun p => test p content) (selectorPatterns cls), c')
  | _ => (false, c)
  end.

Definition remember (selector filePath original : string) (c : Caches)
  : Caches :=
  {| cache := <[selector := (filePath, original)]> (cache c);
     fileCache := fileCache c |}.

(** One of the two loops of [resolve] over [moduleFiles]; [onlyNamed]
    selects the first loop, which looks only at files named after the
    component. *)
Fixpoint firstWithSelector (fs : FS.t) (onlyNamed : bool)
         (comp cls : string) (moduleFiles : list string) (c : Caches)
  : option string * Caches :=
  match moduleFiles with
  | [] => (None, c)
  | filePath :: rest =>
      let fileName :=
        JS.removeFirst ".module.css"
                       (Path.basename filePath ".module.scss") in
      if negb onlyNamed
         || String.eqb (JS.toLowerCase fileName) (JS.toLowerCase comp)
      then
        let '(has, c') := hasSelector fs filePath cls c in
        if has then (Some filePath, c')
        else firstWithSelector fs onlyNamed comp cls rest c'
      else firstWithSelector fs onlyNamed comp cls rest c
  end.

(** [resolve(selector)]: the file and the original selector, or [null]. *)
Definition resolve (fs : FS.t) (projectRoot selector : string) (c : Caches)
  : option (string * string) * Caches :=
  match cache c !! selector with
  | Some hit => (Some hit, c)
  | None =>
      match parseCSSModuleSelector selector with
      | None => (None, c)
      | Some parsed =>
          let moduleFiles :=
            findModuleFiles fs projectRoot (component parsed) in
          match firstWithSelector fs true (component parsed)
                                  (className parsed) moduleFiles c with
          | (Some filePath, c1) =>
              (Some (filePath, originalSelector parsed),
               remember selector filePath (originalSelector parsed) c1)
          | (None, c1) =>
              match firstWithSelector fs false (component parsed)
                                      (className parsed) moduleFiles c1 with
              | (Some filePath, c2) =>
                  (Some (filePath, originalSelector parsed),
                   remember selector filePath (originalSelector parsed) c2)
              | (None, c2) => (None, c2)
              end
          end
      end
  end.

End SelectorResolver.

(* ===================================================================== *)
(** ** src/patcher/css-patcher.js and src/patcher/scss-patcher.js *)
(* ===================================================================== *)

Module Patcher.
Import PostCSS Differ Regex.

(** [s.replace(/\s+/g, ' ').trim()] *)
Definition normalize (s : string) : string :=
  JS.trim (replace_all (plus space) " " s).

Definition matchSelector (fileSelector targetSelector : string) : bool :=
  String.eqb (normalize fileSelector) (normalize targetSelector).

(** The literal /\s*!important\s*$/ *)
Definition importantSuffix : regex :=
  seqs [star space; lit "!important"; star space; Eol].

Definition hasImportant (v : string) : bool := JS.includes "!important" v.
Definition cleanValue (v : string) : string :=
  JS.trim (remove_first importantSuffix v).

(** What the callback given to [rule.walkDecls(change.prop, cb)] does to
    a declaration it visits: remove it, assign value and flag, or throw
    (the plain patcher calls [includes] on a [newValue] that is
    [null]). *)
Inductive DeclEdit : Type :=
| Remove
| Assign (value : string) (important : bool)
| Throw.

(** The optional chaining of the SCSS patcher assigns [undefined] where
    [newValue] is [null]; the tree keeps the text the stringifier prints
    for it. *)
Definition editFor (scss : bool) (c : Change) : DeclEdit :=
  match type c with
  | delete => Remove
  | _ =>
      match newValue c with
      | Some v => Assign (cleanValue v) (hasImportant v)
      | None => if scss then Assign "undefined" false else Throw
      end
  end.

(** [node.walkDecls(prop, cb)] on one child: the nodes that replace it,
    and whether the callback ran; [None] when it threw. *)
Fixpoint editDecls (p : string) (e : DeclEdit) (n : Node)
  : option (list Node * bool) :=
  let editAll :=
    fix editAll (l : list Node) : option (list Node * bool) :=
      match l with
      | [] => Some ([], false)
      | x :: l' =>
          match editDecls p e x with
          | None => None
          | Some (xs, f1) =>
              match editAll l' with
              | None => None
              | Some (ls, f2) => Some ((xs ++ ls)%list, f1 || f2)
              end
          end
      end in
  match n with
  | Decl q v i src =>
      if String.eqb q p then
        match e with
        | Remove => Some ([], true)
        | Assign v' i' => Some ([Decl q v' i' src], true)
        | Throw => None
        end
      else Some ([n], false)
  | Rule sel ns =>
      match editAll ns with
      | Some (ns', f) => Some ([Rule sel ns'], f)
      | None => None
      end
  | AtRule name ns =>
      match editAll ns with
      | Some (ns', f) => Some ([AtRule name ns'], f)
      | None => None
      end
  | Comment _ => Some ([n], false)
  end.

Fixpoint editChildren (p : string) (e : DeclEdit) (l : list Node)
  : option (list Node * bool) :=
  match l with
  | [] => Some ([], false)
  | x :: l' =>
      match editDecls p e x with
      | None => None
      | Some (xs, f1) =>
          match editChildren p e l' with
          | None => None
          | Some (ls, f2) => Some ((xs ++ ls)%list, f1 || f2)
          end
      end
  end.

(** What one walk over the rules leaves behind: the tree, [found], and
    [targetRule] as the child indices leading to it. *)
Record Walked : Type := {
  tree : list Node;
  found : bool;
  targetRule : option (list nat)
}.

Definition later (a b : option (list nat)) : option (list nat) :=
  match b with Some _ => b | None => a end.

(** What visiting one node gives: the node afterwards, [found] and
    [targetRule]. *)
Definition Visited : Type := Node * bool * option (list nat).

(** [container.each(visit)]: the children in order, [idx] being the index
    of the first; [None] when a visit threw. *)
Fixpoint eachNode (visit : list nat -> Node -> option Visited)
         (prefix : list nat) (idx : nat) (l : list Node) : option Walked :=
  match l with
  | [] => Some {| tree := []; found := false; targetRule := None |}
  | x :: l' =>
      match visit (prefix ++ [idx])%list x with
      | None => None
      | Some (x', f1, t1) =>
          match eachNode visit prefix (S idx) l' with
          | None => None
          | Some w =>
              Some {| tree := x' :: tree w;
                      found := f1 || found w;
                      targetRule := later t1 (targetRule w) |}
          end
      end
  end.

(** The callback of the plain patcher on a rule, then the walk through the
    rule's children. *)
Definition visitRule (walkKids : list nat -> list Node -> option Walked)
           (c : Change) (here : list nat) (x : Node) : option Visited :=
  match x with
  | Rule sel kids =>
      let called :=
        if matchSelector sel (selector c) then
          match editChildren (prop c) (editFor false c) kids with
          | Some (kids1, f1) => Some (kids1, f1, Some here)
          | None => None
          end
        else Some (kids, false, None) in
      match called with
      | None => None
      | Some (kids1, f1, t1) =>
          match walkKids here kids1 with
          | None => None
          | Some w =>
              Some (Rule sel (tree w), f1 || found w,
                    later t1 (targetRule w))
          end
      end
  | AtRule name kids =>
      match walkKids here kids with
      | None => None
      | Some w => Some (AtRule name (tree w), found w, targetRule w)
      end
  | _ => Some (x, false, None)
  end.

(** [root.walkRules(cb)] with the callback of the plain patcher: each
    rule before its descendants, rules inside at-rules included; [fuel]
    bounds the nesting depth. *)
Fixpoint walkRules (fuel : nat) (c : Change)
         (prefix : list nat) (nodes : list Node) : option Walked :=
  match fuel with
  | O => Some {| tree := nodes; found := false; targetRule := None |}
  | S fuel' => eachNode (visitRule (walkRules fuel' c) c) prefix 0 nodes
  end.

(** How [walkRulesDeep] turns one selector of a nested rule into the full
    selector. *)
Definition fullSelector (parentSelector s : string) : string :=
  if JS.startsWith "&" s then parentSelector ++ JS.drop 1 s
  else if Path.nonEmpty parentSelector then parentSelector ++ " " ++ s
  else s.

Definition fullSelectors (parentSelector sel : string) : list string :=
  List.map (fun s => fullSelector parentSelector (JS.trim s))
           (JS.split "," sel).

(** The first loop over [fullSelectors]: the callback of the SCSS patcher
    on the rule, once per full selector. *)
Fixpoint callbacks (c : Change) (here : list nat) (fulls : list string)
         (kids : list Node) (f : bool) (t : option (list nat))
  : option (list Node * bool * option (list nat)) :=
  match fulls with
  | [] => Some (kids, f, t)
  | full :: rest =>
      if matchSelector full (selector c) then
        match editChildren (prop c) (editFor true c) kids with
        | Some (kids1, f1) => callbacks c here rest kids1 (f || f1) (Some here)
        | None => None
        end
      else callbacks c here rest kids f t
  end.

(** The second loop over [fullSelectors]: one walk through the rule's
    children per full selector. *)
Fixpoint nestedWalks (walk : string -> list Node -> option Walked)
         (fulls : list string) (kids : list Node) (f : bool)
         (t : option (list nat))
  : option (list Node * bool * option (list nat)) :=
  match fulls with
  | [] => Some (kids, f, t)
  | full :: rest =>
      match walk full kids with
      | None => None
      | Some w =>
          nestedWalks walk rest (tree w) (f || found w)
                      (later t (targetRule w))
      end
  end.

(** What [walkRulesDeep] does with one child: only a rule is looked at. *)
Definition visitDeep
           (walkKids : list nat -> string -> list Node -> option Walked)
           (c : Change) (parentSelector : string) (here : list nat)
           (x : Node) : option Visited :=
  match x with
  | Rule sel kids =>
      let fulls := fullSelectors parentSelector sel in
      match callbacks c here fulls kids false None with
      | None => None
      | Some (kids1, f1, t1) =>
          match nestedWalks (walkKids here) fulls kids1 f1 t1 with
          | None => None
          | Some (kids2, f2, t2) => Some (Rule sel kids2, f2, t2)
          end
      end
  | _ => Some (x, false, None)
  end.

(** [walkRulesDeep(node, cb, parentSelector)]; [fuel] bounds the nesting
    depth. *)
Fixpoint walkRulesDeep (fuel : nat) (c : Change) (parentSelector : string)
         (prefix : list nat) (nodes : list Node) : option Walked :=
  match fuel with
  | O => Some {| tree := nodes; found := false; targetRule := None |}
  | S fuel' =>
      eachNode
        (visitDeep (fun here full => walkRulesDeep fuel' c full here)
                   c parentSelector)
        prefix 0 nodes
  end.

(** [targetRule.append({ prop, value, important })] *)
Fixpoint appendAt (path : list nat) (d : Node) (nodes : list Node)
  : list Node :=
  match path with
  | [] => nodes
  | i :: path' =>
      (fix at_ (k : nat) (l : list Node) : list Node :=
         match l with
         | [] => []
         | x :: l' =>
             match k with
             | O =>
                 match x with
                 | Rule sel kids =>
                     match path' with
                     | [] => Rule sel (kids ++ [d])%list :: l'
                     | _ => Rule sel (appendAt path' d kids) :: l'
                     end
                 | AtRule name kids =>
                     AtRule name (appendAt path' d kids) :: l'
                 | _ => x :: l'
                 end
             | S k' => x :: at_ k' l'
             end
         end) i nodes
  end.

(** The body of the loop over [changes] for one change: the tree
    afterwards and [found]; [None] when an exception escaped. *)
Definition applyChange (scss : bool) (root : Root) (c : Change)
  : option (Root * bool) :=
  let walked :=
    if scss then walkRulesDeep (rootHeight root) c "" [] root
    else walkRules (rootHeight root) c [] root in
  match walked with
  | None => None
  | Some w =>
      match found w, targetRule w, type c, JS.truthy (newValue c),
            newValue c with
      | false, Some path, add, true, Some v =>
          Some (appendAt path
                         (Decl (prop c) (cleanValue v) (hasImportant v) None)
                         (tree w),
                true)
      | _, _, _, _, _ => Some (tree w, found w)
      end
  end.

Record Counts : Type := { success : nat; failed : nat }.

(** The loop over [changes]. *)
Fixpoint applyAll (scss : bool) (root : Root) (changes : list Change)
         (n : Counts) : option (Root * Counts) :=
  match changes with
  | [] => Some (root, n)
  | c :: rest =>
      match applyChange scss root c with
      | None => None
      | Some (root', true) =>
          applyAll scss root' rest
                   {| success := S (success n); failed := failed n |}
      | Some (root', false) =>
          applyAll scss root' rest
                   {| success := success n; failed := S (failed n) |}
      end
  end.

(** The failures of the file system calls a write makes: whether
    [writeFile] or [rename] rejects for a path.  A call that rejects
    leaves the file system as it was. *)
Record Faults : Type := {
  writeFails : string -> bool;
  renameFails : string -> string -> bool
}.

(** [this.writeFile(filePath, content)] at time [now]; [None] in the
    first component when the call rejects. *)
Definition writeFile (io : Faults) (atomicWrite : bool) (now : Z)
           (fs : FS.t) (filePath content : string) : bool * FS.t :=
  if atomicWrite then
    let tempPath :=
      Path.join [Path.dirname filePath; "." ++ pretty now ++ ".tmp"] in
    if writeFails io tempPath then (false, fs)
    else
      let fs1 := FS.put tempPath content fs in
      if renameFails io tempPath filePath then (false, fs1)
      else (true, FS.put filePath content (FS.remove tempPath fs1))
  else
    if writeFails io filePath then (false, fs)
    else (true, FS.put filePath content fs).

(** [patchMultiple(filePath, changes)] of [CSSPatcher] ([scss = false])
    and of [SCSSPatcher] ([scss = true]): the counts returned and the
    file system afterwards. *)
Definition patchMultiple (lib : Lib) (io : Faults) (scss atomicWrite : bool)
           (now : Z) (fs : FS.t) (filePath : string) (changes : list Change)
  : Counts * FS.t :=
  let allFailed := {| success := 0; failed := List.length changes |} in
  if negb (FS.existsSync fs filePath) then (allFailed, fs)
  else
    match FS.readFile fs filePath with
    | None => (allFailed, fs)
    | Some content =>
        match (if scss then scss_parse lib else css_parse lib) content with
        | None => (allFailed, fs)
        | Some root =>
            match applyAll scss root changes
                           {| success := 0; failed := 0 |} with
            | None => (allFailed, fs)
            | Some (root', n) =>
                if Nat.ltb 0 (success n) then
                  let text :=
                    (if scss then scss_stringify lib
                     else css_stringify lib) root' in
                  match writeFile io atomicWrite now fs filePath text with
                  | (true, fs') => (n, fs')
                  | (false, fs') => (allFailed, fs')
                  end
                else (n, fs)
            end
        end
    end.

(** The change record whose callback in [patchMultiple] is the callback
    of [patchDeclaration]: the value is assigned, nothing is removed or
    appended. *)
Definition assignment (selector prop newValue : string) : Change :=
  {| type := change; selector := selector; prop := prop;
     oldValue := None; newValue := Some newValue; important := None;
     position := {| line := 0; column := 0 |} |}.

(** [patchDeclaration(filePath, selector, prop, newValue)] of
    [CSSPatcher]: whether a declaration was patched, and the file system
    afterwards. *)
Definition patchDeclaration (lib : Lib) (io : Faults) (atomicWrite : bool)
           (now : Z) (fs : FS.t) (filePath selector prop newValue : string)
  : bool * FS.t :=
  if negb (FS.existsSync fs filePath) then (false, fs)
  else
    match FS.readFile fs filePath with
    | None => (false, fs)
    | Some content =>
        match css_parse lib content with
        | None => (false, fs)
        | Some root =>
            match walkRules (rootHeight root)
                            (assignment selector prop newValue) [] root with
            | None => (false, fs)
            | Some w =>
                if found w then
                  writeFile io atomicWrite now fs filePath
                            (css_stringify lib (tree w))
                else (false, fs)
            end
        end
    end.

End Patcher.

(* ===================================================================== *)
(** ** src/cdp/client.js, the part that pairs fresh texts with sheets *)
(* ===================================================================== *)

Module CDPClient.

(** One entry of what [getAllFreshStyleSheets] returns. *)
Record FreshSheet : Type := {
  styleSheetId : string;
  text : string;
  contentKey : string
}.

(** [text.substring(0, 100).trim()] *)
Definition keyOf (text : string) : string := JS.trim (JS.take 100 text).

(** The entry pushed for a sheet whose text the session delivered. *)
Definition fresh (styleSheetId text : string) : FreshSheet :=
  {| styleSheetId := styleSheetId; text := text; contentKey := keyOf text |}.

(** The loop of [getAllFreshStyleSheets] over the sheets the new session
    announced; a sheet whose text cannot be fetched is left out. *)
Definition collectFresh (getText : string -> option string)
           (announced : list string) : list FreshSheet :=
  List.flat_map
    (fun id => match getText id with
               | Some text => [fresh id text]
               | None => []
               end)
    announced.

(** [findFreshTextByContentKey(freshSheets, contentKey)]; the key is
    [undefined] when the caller has no text to take it from. *)
Definition findFreshTextByContentKey (freshSheets : list FreshSheet)
           (key : option string) : option string :=
  match key with
  | None => None
  | Some k =>
      option_map text
                 (List.find (fun s => String.eqb (contentKey s) k) freshSheets)
  end.

End CDPClient.

(* ===================================================================== *)
(** ** src/agent.js *)
(* ===================================================================== *)

Module Agent.
Import Differ Regex.

(** What the agent is configured with and the collaborators it calls:
    the parser library, the faults of the file system, the URL resolver
    (whose [projectRoot] the selector resolver shares),
    [cdp.getStyleSheetText] ([None] when it rejects) and
    [sourceMapResolver.findOriginalSource(cssPath, selector, cssContent)]
    ([None] when it rejects, [Some None] for [null], [Some (Some p)] for
    a result whose [source] is [p]). *)
Record Env : Type := {
  lib : PostCSS.Lib;
  io : Patcher.Faults;
  urlResolver : URLResolver.t;
  getStyleSheetText : string -> option string;
  findOriginalSource :
    FS.t -> string -> string -> string -> option (option string)
}.

(** What the agent hands to a patcher. *)
Inductive Event : Type :=
| DifferCalled (oldText newText : string)
| PatchCalled (scss : bool) (filePath : string) (changes : list Change)
              (result : Patcher.Counts).

(** The mutable state: registry, loop guard, project files, the selector
    resolver's caches, the clock read by [Date.now()], and the calls made
    so far, oldest first. *)
Record World : Type := {
  registry : gmap string Registry.Sheet;
  loopGuard : LoopGuard.t;
  files : FS.t;
  caches : SelectorResolver.Caches;
  now : Z;
  calls : list Event
}.

Definition withRegistry (r : gmap string Registry.Sheet) (w : World) : World :=
  {| registry := r; loopGuard := loopGuard w; files := files w;
     caches := caches w; now := now w; calls := calls w |}.

Definition withGuard (g : LoopGuard.t) (w : World) : World :=
  {| registry := registry w; loopGuard := g; files := files w;
     caches := caches w; now := now w; calls := calls w |}.

Definition withFiles (fs : FS.t) (w : World) : World :=
  {| registry := registry w; loopGuard := loopGuard w; files := fs;
     caches := caches w; now := now w; calls := calls w |}.

Definition withCaches (c : SelectorResolver.Caches) (w : World) : World :=
  {| registry := registry w; loopGuard := loopGuard w; files := files w;
     caches := c; now := now w; calls := calls w |}.

Definition record (e : Event) (w : World) : World :=
  {| registry := registry w; loopGuard := loopGuard w; files := files w;
     caches := caches w; now := now w; calls := (calls w ++ [e])%list |}.

(** [this.registry.updateText(styleSheetId, newText)] *)
Definition updateText (id newText : string) (w : World) : World :=
  withRegistry (Registry.updateText (now w) id newText (registry w)) w.

(** The literal /\.(scss|sass)$/ *)
Definition scssExtension : regex :=
  seqs [Chr "."; Grp 1 (Alt (lit "scss") (lit "sass")); Eol].

(** The literal /\.(scss|sass|less)$/ *)
Definition preprocessorExtension : regex :=
  seqs [Chr "."; Grp 1 (Alt (lit "scss") (Alt (lit "sass") (lit "less")));
        Eol].

(** The task given to [fileQueue.enqueue(filePath, task)]; with one
    handler running at a time the queue for the path is empty and the
    task runs at once.  Both patchers are built with
    [atomicWrite: true]. *)
Definition patchTask (env : Env) (useScss : bool) (id newText : string)
           (filePath : string) (changes : list Change) (w : World) : World :=
  let '(result, fs') :=
    Patcher.patchMultiple (lib env) (io env) useScss true (now w)
                          (files w) filePath changes in
  let w1 := record (PatchCalled useScss filePath changes result)
                   (withFiles fs' w) in
  if Nat.ltb 0 (Patcher.success result) then
    withGuard
      (LoopGuard.registerWrite (now w1) filePath newText
         (LoopGuard.registerStyleSheetWrite (now w1) id newText
                                            (loopGuard w1)))
      w1
  else w1.

(** [changesByFile]: a [Map] from file to changes, in insertion order. *)
Fixpoint pushByFile (filePath : string) (c : Change)
         (m : list (string * list Change)) : list (string * list Change) :=
  match m with
  | [] => [(filePath, [c])]
  | (k, cs) :: m' =>
      if String.eqb k filePath then (k, (cs ++ [c])%list) :: m'
      else (k, cs) :: pushByFile filePath c m'
  end.

Definition withSelector (original : string) (c : Change) : Change :=
  {| type := type c; selector := original; prop := prop c;
     oldValue := oldValue c; newValue := newValue c;
     important := important c; position := position c |}.

(** The first loop of [handleCSSModuleChanges]. *)
Fixpoint groupByFile (env : Env) (fs : FS.t) (changes : list Change)
         (m : list (string * list Change)) (c : SelectorResolver.Caches)
  : list (string * list Change) * SelectorResolver.Caches :=
  match changes with
  | [] => (m, c)
  | ch :: rest =>
      match SelectorResolver.resolve
              fs (URLResolver.projectRoot (urlResolver env))
              (selector ch) c with
      | (Some (filePath, original), c') =>
          groupByFile env fs rest
                      (pushByFile filePath (withSelector original ch) m) c'
      | (None, c') => groupByFile env fs rest m c'
      end
  end.

(** The second loop of [handleCSSModuleChanges]. *)
Fixpoint patchEach (env : Env) (id newText : string)
         (m : list (string * list Change)) (w : World) : World :=
  match m with
  | [] => w
  | (filePath, fileChanges) :: rest =>
      patchEach env id newText rest
                (patchTask env (test scssExtension filePath) id newText
                           filePath fileChanges w)
  end.

(** [handleCSSModuleChanges(styleSheetId, changes, newText)]: whether a
    change was resolved to a module file, and the world afterwards. *)
Definition handleCSSModuleChanges (env : Env) (id : string)
           (changes : list Change) (newText : string) (w : World)
  : bool * World :=
  let '(changesByFile, c') :=
    groupByFile env (files w) changes [] (caches w) in
  let w1 := withCaches c' w in
  match changesByFile with
  | [] => (false, w1)
  | _ :: _ => (true, updateText id newText (patchEach env id newText changesByFile w1))
  end.

(** The part of [handleStyleSheetChange] after the target file is
    known. *)
Definition patchResolved (env : Env) (id newText : string)
           (localPath : string) (changes : list Change) (w : World)
  : World :=
  let target : option (string * bool) :=
    if test scssExtension localPath then Some (localPath, true)
    else
      match changes with
      | [] => Some (localPath, false)
      | firstChange :: _ =>
          match findOriginalSource env (files w) localPath
                                   (selector firstChange) newText with
          | None => None
          | Some (Some source) =>
              if test preprocessorExtension source
              then Some (source, true)
              else Some (localPath, false)
          | Some None => Some (localPath, false)
          end
      end in
  match target with
  | None => w
  | Some (path, useScss) =>
      updateText id newText (patchTask env useScss id newText path changes w)
  end.

(** [viteDevId || originalSource || this.urlResolver.resolve(sourceURL)],
    the three read from the registry. *)
Definition localPathOf (env : Env) (id : string) (w : World)
  : URLResolver.Outcome (option string) :=
  let sourceURL := Registry.getSourceURL id (registry w) in
  let viteDevId := Registry.getViteDevId id (registry w) in
  let originalSource := Registry.getOriginalSource id (registry w) in
  match JS.or_else viteDevId originalSource with
  | Some p => URLResolver.Returned (Some p)
  | None => URLResolver.resolve (urlResolver env) (files w) sourceURL
  end.

(** [freshText || await this.cdp.getStyleSheetText(styleSheetId)]; [None]
    when the fetch rejects. *)
Definition obtained (env : Env) (id : string) (freshText : option string)
  : option string :=
  if JS.truthy freshText then freshText else getStyleSheetText env id.

(** [handleStyleSheetChange(styleSheetId, freshText = null)].  An
    exception raised on the way is caught and logged, which ends the
    call with the state reached. *)
Definition handleStyleSheetChange (env : Env) (id : string)
           (freshText : option string) (w : World) : World :=
  match obtained env id freshText with
  | None => w
  | Some newText =>
      let oldText := Registry.getPreviousText id (registry w) in
      let '(ignore, g') :=
        LoopGuard.shouldIgnoreStyleSheet (now w) id newText (loopGuard w) in
      let w0 := withGuard g' w in
      if ignore then w0
      else
        match oldText with
        | None => updateText id newText w0
        | Some old =>
            if String.eqb old newText then updateText id newText w0
            else
              let changes := findChangedDeclarations (lib env) old newText in
              let w1 := record (DifferCalled old newText) w0 in
              match changes with
              | [] => updateText id newText w1
              | _ :: _ =>
                  match localPathOf env id w1 with
                  | URLResolver.Thrown => w1
                  | URLResolver.Returned found =>
                      let localPath := JS.or_else found None in
                      let isNextJSBundle :=
                        match localPath with
                        | Some p => JS.includes "/.next/" p
                        | None => false
                        end in
                      let '(handled, w2) :=
                        match localPath with
                        | Some _ =>
                            if isNextJSBundle
                            then handleCSSModuleChanges env id changes
                                                        newText w1
                            else (false, w1)
                        | None =>
                            handleCSSModuleChanges env id changes newText w1
                        end in
                      if handled then w2
                      else
                        match localPath with
                        | None => updateText id newText w2
                        | Some p => patchResolved env id newText p changes w2
                        end
                  end
              end
        end
  end.

(** The body of the polling loop for one tracked sheet, [newText] being
    the fresh text matched to it (or nothing). *)
Definition pollSheet (env : Env) (id : string) (newText : option string)
           (w : World) : World :=
  match newText with
  | None | Some EmptyString => w
  | Some fresh =>
      match Registry.getPreviousText id (registry w) with
      | None => updateText id fresh w
      | Some oldText =>
          if String.eqb oldText fresh then w
          else
            let '(ignore, g') :=
              LoopGuard.shouldIgnoreStyleSheet (now w) id fresh
                                               (loopGuard w) in
            let w0 := withGuard g' w in
            if ignore then updateText id fresh w0
            else handleStyleSheetChange env id (Some fresh) w0
      end
  end.

(** How the polling loop picks the fresh text of a tracked sheet from
    the texts of the new session: by the content key of the stored text,
    else by its length. *)
Definition freshTextFor (freshSheets : list CDPClient.FreshSheet)
           (oldText : option string) : option string :=
  let contentKey := option_map CDPClient.keyOf oldText in
  JS.or_else
    (CDPClient.findFreshTextByContentKey freshSheets contentKey)
    (match oldText with
     | Some old =>
         option_map CDPClient.text
           (List.find
              (fun f => Nat.eqb (String.length (CDPClient.text f))
                                (String.length old))
              freshSheets)
     | None => None
     end).

(** One round of the polling loop for one tracked sheet, its stored text
    being read from the registry. *)
Definition pollEntry (env : Env) (freshSheets : list CDPClient.FreshSheet)
           (id : string) (w : World) : World :=
  match registry w !! id with
  | Some sheet =>
      pollSheet env id (freshTextFor freshSheets (Registry.text sheet)) w
  | None => w
  end.

End Agent.

(* ===================================================================== *)
(** ** Sample project: texts, parse results and states used in examples *)
(* ===================================================================== *)

Module Samples.
Import PostCSS.

Definition redText : string := ".btn { color: red; }".
Definition blueText : string := ".btn { color: blue; }".
(** The closing brace is missing: postcss throws "Unclosed block". *)
Definition brokenText : string := ".btn { color: blue;".
(** [redText] with a space for its closing brace: of the same length, and
    postcss throws "Unclosed block". *)
Definition cutText : string := ".btn { color: red;  ".
(** An edit of [redText] of the same length. *)
Definition tanText : string := ".btn { color: tan; }".
Definition moduleText : string := ".menu_item__abc123 { color: red; }".
Definition moduleBlueText : string := ".menu_item__abc123 { color: blue; }".
Definition itemText : string := ".item { color: red; }".

Definition colorDecl (startColumn : Z) (value : string) (endColumn : Z)
  : Node :=
  Decl "color" value false
       (Some {| start := Some {| line := 1; column := startColumn |};
                finish := Some {| line := 1; column := endColumn |} |}).

(** What postcss returns for the sample texts; every other text is
    treated as one it rejects. *)
Definition parseSample (cssText : string) : option Root :=
  if String.eqb cssText redText
  then Some [Rule ".btn" [colorDecl 8 "red" 18]]
  else if String.eqb cssText blueText
  then Some [Rule ".btn" [colorDecl 8 "blue" 19]]
  else if String.eqb cssText moduleText
  then Some [Rule ".menu_item__abc123" [colorDecl 22 "red" 32]]
  else if String.eqb cssText moduleBlueText
  then Some [Rule ".menu_item__abc123" [colorDecl 22 "blue" 33]]
  else if String.eqb cssText itemText
  then Some [Rule ".item" [colorDecl 9 "red" 19]]
  else None.

(** Printing of the trees above, one rule per line in postcss's default
    spacing. *)
Fixpoint printNode (n : Node) : string :=
  match n with
  | Decl p v i _ =>
      p ++ ": " ++ v ++ (if i then " !important" else "") ++ "; "
  | Rule sel ns => sel ++ " { " ++ String.concat "" (List.map printNode ns) ++ "}"
  | AtRule name ns =>
      "@" ++ name ++ " { " ++ String.concat "" (List.map printNode ns) ++ "}"
  | Comment t => "/*" ++ t ++ "*/"
  end.

Definition printRoot (root : Root) : string :=
  String.concat "" (List.map printNode root).

Definition lib : Lib :=
  {| css_parse := parseSample; scss_parse := parseSample;
     css_stringify := printRoot; scss_stringify := printRoot |}.

Definition noFaults : Patcher.Faults :=
  {| Patcher.writeFails := fun _ => false;
     Patcher.renameFails := fun _ _ => false |}.

Definition origin : string := "http://localhost:3000".

(** The path of a URL on the development server. *)
Definition pathnameOf (url : string) : option string :=
  if JS.startsWith origin url
  then Some (JS.drop (String.length origin) url) else None.

Definition resolver : URLResolver.t :=
  {| URLResolver.cwd := "/proj";
     URLResolver.projectRoot := "/proj";
     URLResolver.mappings := [];
     URLResolver.urlPathname := pathnameOf;
     URLResolver.fileURLToPath := fun u => Some (JS.drop 7 u) |}.

Definition env : Agent.Env :=
  {| Agent.lib := lib;
     Agent.io := noFaults;
     Agent.urlResolver := resolver;
     Agent.getStyleSheetText := fun _ => None;
     Agent.findOriginalSource := fun _ _ _ _ => Some None |}.

Definition header (url : string) : Registry.Header :=
  {| Registry.styleSheetId := "1"; Registry.sourceURL := url;
     Registry.isInline := false; Registry.sourceMapURL := "" |}.

Definition sheet (url : string) (stored : option string)
           (devId : option string) : Registry.Sheet :=
  {| Registry.header := header url; Registry.text := stored;
     Registry.lastModified := None; Registry.viteDevId := devId;
     Registry.originalSource := None |}.

Definition noCaches : SelectorResolver.Caches :=
  {| SelectorResolver.cache := ∅; SelectorResolver.fileCache := ∅ |}.

Definition world (sh : Registry.Sheet) (g : LoopGuard.t) (fs : FS.t)
  : Agent.World :=
  {| Agent.registry := {[ "1" := sh ]};
     Agent.loopGuard := g;
     Agent.files := fs;
     Agent.caches := noCaches;
     Agent.now := 1500;
     Agent.calls := [] |}.

Definition emptyFS : FS.t := {| FS.files := ∅; FS.dirs := ∅ |}.

(** A guard that has just seen the agent write [blueText] for sheet 1. *)
Definition guardAfterWrite : LoopGuard.t :=
  LoopGuard.registerStyleSheetWrite 1000 "1" blueText
                                    (LoopGuard.create None).

Definition stylesUrl : string := "http://localhost:3000/src/styles.css".

(** A project with one authored stylesheet. *)
Definition plainFS : FS.t :=
  {| FS.files := {[ "/proj/src/styles.css" := redText ]};
     FS.dirs := {[ "/proj" := ["src"]; "/proj/src" := ["styles.css"] ]} |}.

Definition layoutUrl : string :=
  "http://localhost:3000/_next/static/css/app/layout.css".

(** A Next.js project: the bundled stylesheet under [.next] and the
    authored [app/globals.css]. *)
Definition nextFS : FS.t :=
  {| FS.files := {[ "/proj/.next/static/css/app/layout.css" := redText;
                    "/proj/app/globals.css" := redText ]};
     FS.dirs := {[ "/proj" := [".next"; "app"];
                   "/proj/app" := ["globals.css"] ]} |}.

(** The same project with a CSS module next to the bundle. *)
Definition moduleFS : FS.t :=
  {| FS.files := {[ "/proj/.next/static/css/app/layout.css" := moduleText;
                    "/proj/app/menu.module.css" := itemText ]};
     FS.dirs := {[ "/proj" := [".next"; "app"];
                   "/proj/app" := ["menu.module.css"] ]} |}.

(** A stylesheet that a dependency ships, announced by the bundler under
    its path in [node_modules]. *)
Definition vendorPath : string := "/proj/node_modules/ui/button.css".

Definition vendorFS : FS.t :=
  {| FS.files := {[ vendorPath := redText ]};
     FS.dirs := {[ "/proj" := ["node_modules"] ]} |}.

End Samples.

(* ===================================================================== *)
(** ** Notions the properties are stated with *)
(* ===================================================================== *)

Module Notions.
Import Differ.

(** The keys of a [Map], in insertion order. *)
Definition keys (m : DeclMap) : list string := List.map fst m.

(** Every declaration filed in the map satisfies [P]. *)
Definition allOf (P : Declaration -> Prop) (m : DeclMap) : Prop :=
  forall k l d, List.In (k, l) m -> List.In d l -> P d.

(** A declaration as postcss delivers it: a trailing [!important] has been
    moved from the value into the flag. *)
Definition plainValue (d : Declaration) : Prop :=
  d_important d = false -> JS.endsWith " !important" (d_value d) = false.

(** The invariants of the three kinds of change record. *)
Definition kindInvariant (c : Change) : Prop :=
  match type c with
  | add => oldValue c = None /\ newValue c <> None
  | change =>
      exists o n, oldValue c = Some o /\ newValue c = Some n /\ o <> n
  | delete => oldValue c <> None /\ newValue c = None
  end.


(** The authored files probed for a bundled CSS path whose build output is
    not on disk, in the order of the two lists of [findNextJSSource]. *)
Definition sourceCandidates (r : URLResolver.t) (cssPath : string)
  : list string :=
  let pathParts := JS.split "/" cssPath in
  let filename := List.last pathParts "" in
  let dirname := JS.join "/" (List.removelast pathParts) in
  if String.eqb filename "layout.css" then URLResolver.globalPaths r dirname
  else if String.eqb filename "page.css"
       then URLResolver.modulePaths r dirname
       else [].

Import Regex.

(** [p'] is a position further on in the text that [p] is in. *)
Definition ahead (p p' : pos) : Prop :=
  (fst p <= fst p')%nat
  /\ (fst p' + String.length (snd p') = fst p + String.length (snd p))%nat.

(** What it means for a pattern to match between two positions, threading
    the captures. *)
Inductive Matches : regex -> pos -> caps -> pos -> caps -> Prop :=
| M_Eps p cs : Matches Eps p cs p cs
| M_Chr c i s cs : Matches (Chr c) (i, String c s) cs (S i, s) cs
| M_Cls f d i s cs :
    f d = true -> Matches (Cls f) (i, String d s) cs (S i, s) cs
| M_Seq r1 r2 p cs p1 cs1 p2 cs2 :
    Matches r1 p cs p1 cs1 -> Matches r2 p1 cs1 p2 cs2 ->
    Matches (Seq r1 r2) p cs p2 cs2
| M_AltL r1 r2 p cs p1 cs1 :
    Matches r1 p cs p1 cs1 -> Matches (Alt r1 r2) p cs p1 cs1
| M_AltR r1 r2 p cs p1 cs1 :
    Matches r2 p cs p1 cs1 -> Matches (Alt r1 r2) p cs p1 cs1
| M_StarNil g r p cs : Matches (Star g r) p cs p cs
| M_StarCons g r p cs p1 cs1 p2 cs2 :
    Matches r p cs p1 cs1 -> (fst p < fst p1)%nat ->
    Matches (Star g r) p1 cs1 p2 cs2 ->
    Matches (Star g r) p cs p2 cs2
| M_Grp i r p cs p1 cs1 :
    Matches r p cs p1 cs1 ->
    Matches (Grp i r) p cs p1 ((i, JS.take (fst p1 - fst p) (snd p)) :: cs1)
| M_Bol s cs : Matches Bol (0%nat, s) cs (0%nat, s) cs
| M_Eol i cs : Matches Eol (i, "") cs (i, "") cs
| M_EolM_end i cs : Matches EolM (i, "") cs (i, "") cs
| M_EolM_line i d s cs :
    JS.is_line_terminator d = true ->
    Matches EolM (i, String d s) cs (i, String d s) cs.

(** Group 1, wherever the pattern has it, begins with a character class
    that admits ASCII letters only. *)
Fixpoint letterLed (r : regex) : Prop :=
  match r with
  | Seq a b | Alt a b => letterLed a /\ letterLed b
  | Star _ a => letterLed a
  | Grp i a =>
      letterLed a
      /\ (i = 1%nat ->
          exists f rest, a = Seq (Cls f) rest
                         /\ forall c, f c = true -> JS.is_letter c = true)
  | _ => True
  end.

Definition startsWithLetter (w : string) : Prop :=
  exists c rest, w = String c rest /\ JS.is_letter c = true.

Definition group1Led (cs : caps) : Prop :=
  forall w, capture 1 cs = Some w -> startsWithLetter w.


(** The directories the search for module files enters from [root]: no
    entry on the way is one of [excludeDirs]. *)
Inductive Entered (fs : FS.t) (root : string) : string -> Prop :=
| Entered_root : Entered fs root root
| Entered_sub dir entries entry :
    Entered fs root dir ->
    FS.readdirSync fs dir = Some entries ->
    List.In entry entries ->
    SelectorResolver.includes SelectorResolver.excludeDirs entry = false ->
    FS.statSync fs (Path.join [dir; entry]) = Some FS.Directory ->
    Entered fs root (Path.join [dir; entry]).


(** The module files the selector resolver finds for the changes of a
    diff, in the state [w]: the keys of [changesByFile]. *)
Definition moduleTargets (env : Agent.Env) (w : Agent.World)
           (diff : list Differ.Change) : list string :=
  List.map fst
           (fst (Agent.groupByFile env (Agent.files w) diff []
                                   (Agent.caches w))).

(** [e] is a call of a patcher on [path]. *)
Definition patches (e : Agent.Event) (path : string) : Prop :=
  exists scss changes result, e = Agent.PatchCalled scss path changes result.


(** *** The sentences of the specification that the code does not
    follow, worded as the specification has them *)

(** "The agent never writes to files under [.next/] or [node_modules/]":
    no call of a patcher made by the handler has such a path. *)
Definition writesOutsideBuildDirs (env : Agent.Env) (id : string)
           (freshText : option string) (w : Agent.World) : Prop :=
  forall e path,
    patches e path ->
    List.In e (Agent.calls (Agent.handleStyleSheetChange env id freshText w)) ->
    ~ List.In e (Agent.calls w) ->
    JS.includes "/.next/" path = false
    /\ JS.includes "/node_modules/" path = false.

(** "Parse failures are surfaced to the caller and abort the change cycle":
    no patch is attempted and the stored text is left unchanged. *)
Definition parseFailureAborts (env : Agent.Env) (id : string)
           (freshText : option string) (w : Agent.World) : Prop :=
  forall oldText newText,
    Agent.obtained env id freshText = Some newText ->
    Registry.getPreviousText id (Agent.registry w) = Some oldText ->
    PostCSS.css_parse (Agent.lib env) oldText = None
    \/ PostCSS.css_parse (Agent.lib env) newText = None ->
    (forall e path,
        patches e path ->
        List.In e (Agent.calls
                     (Agent.handleStyleSheetChange env id freshText w)) ->
        List.In e (Agent.calls w))
    /\ Registry.getPreviousText
         id (Agent.registry (Agent.handleStyleSheetChange env id freshText w))
       = Some oldText.

(** The candidates as the specification lists them: for [layout.css] the
    directory, [app/] and [styles/], crossed with [globals], [global] and
    [.css], [.scss]; for [page.css] the sibling module files. *)
Definition specifiedCandidates (r : URLResolver.t) (cssPath : string)
  : list string :=
  let pathParts := JS.split "/" cssPath in
  let filename := List.last pathParts "" in
  let dirname := JS.join "/" (List.removelast pathParts) in
  if String.eqb filename "layout.css" then
    List.flat_map
      (fun dir =>
         List.flat_map
           (fun name =>
              List.map
                (fun ext =>
                   Path.join [URLResolver.projectRoot r; dir; name ++ ext])
                [".css"; ".scss"])
           ["globals"; "global"])
      [dirname; "app"; "styles"]
  else if String.eqb filename "page.css" then
    [Path.join [URLResolver.projectRoot r; dirname; "page.module.scss"];
     Path.join [URLResolver.projectRoot r; dirname; "page.module.css"];
     Path.join [URLResolver.projectRoot r; dirname; "styles.module.scss"];
     Path.join [URLResolver.projectRoot r; dirname; "styles.module.css"]]
  else [].

(** "Returns the path inside [.next/static/css/] only when none of those
    candidates exists on disk." *)
Definition bundleOnlyAsFallback (r : URLResolver.t) (fs : FS.t)
           (cssPath : string) : Prop :=
  URLResolver.findNextJSSource r fs cssPath
  = Some (URLResolver.nextBuildPath r cssPath) ->
  forall p, List.In p (specifiedCandidates r cssPath) ->
            FS.existsSync fs p = false.

(** "[<Comp>] must start with a capital letter." *)
Definition capitalRequired (selector : string) : Prop :=
  forall parsed,
    SelectorResolver.parseCSSModuleSelector selector = Some parsed ->
    exists c rest,
      SelectorResolver.component parsed = String c rest
      /\ JS.is_upper c = true.

(** *** Notions for the properties of the remaining code *)

(** The text a list of diff pieces starts from: the pieces kept and the
    pieces deleted. *)
Fixpoint before (diffs : list (TextDiff.Op * string)) : string :=
  match diffs with
  | [] => ""
  | (TextDiff.INSERT, _) :: rest => before rest
  | (_, text) :: rest => text ++ before rest
  end.

(** The text it leads to: the pieces kept and the pieces inserted. *)
Fixpoint after (diffs : list (TextDiff.Op * string)) : string :=
  match diffs with
  | [] => ""
  | (TextDiff.DELETE, _) :: rest => after rest
  | (_, text) :: rest => text ++ after rest
  end.

(** [s.substring(i, j)] for [i <= j]. *)
Definition slice (i j : nat) (s : string) : string :=
  JS.take (j - i) (JS.drop i s).

(** The edit a change of [findChanges] stands for, made on a text. *)
Definition splice (c : TextDiff.Change) (s : string) : string :=
  JS.take (TextDiff.oldStart c) s ++ TextDiff.newContent c
  ++ JS.drop (TextDiff.oldEnd c) s.

(** The declarations filed under [key], in document order. *)
Definition keyed (key : string) (decls : list Declaration)
  : list Declaration :=
  List.filter (fun d => String.eqb (keyOf d) key) decls.

(** What the differ compares of a declaration. *)
Definition compared (d : Declaration) : string * bool :=
  (d_value d, d_important d).

(** The declarations named [p] that the plain patcher's callback reaches:
    those inside a rule whose selector matches [target], at any depth;
    [inside] tells whether an enclosing rule matched.  Each is listed
    once, in document order, with its value and flag. *)
Fixpoint targeted (target p : string) (inside : bool) (n : PostCSS.Node)
  : list (string * bool) :=
  match n with
  | PostCSS.Decl q v i _ =>
      if inside && String.eqb q p then [(v, i)] else []
  | PostCSS.Rule sel ns =>
      List.flat_map
        (targeted target p (inside || Patcher.matchSelector sel target)) ns
  | PostCSS.AtRule _ ns => List.flat_map (targeted target p inside) ns
  | PostCSS.Comment _ => []
  end.

(** The tree without those declarations, written as a sequence of
    tokens: a rule or an at-rule opens and closes, every other node is a
    leaf. *)
Inductive Token : Type :=
| Open (isRule : bool) (name : string)
| Close
| Leaf (n : PostCSS.Node).

Fixpoint outline (target p : string) (inside : bool) (n : PostCSS.Node)
  : list Token :=
  match n with
  | PostCSS.Decl q _ _ _ =>
      if inside && String.eqb q p then [] else [Leaf n]
  | PostCSS.Rule sel ns =>
      (Open true sel
       :: List.flat_map
            (outline target p (inside || Patcher.matchSelector sel target))
            ns
       ++ [Close])%list
  | PostCSS.AtRule name ns =>
      (Open false name :: List.flat_map (outline target p inside) ns
       ++ [Close])%list
  | PostCSS.Comment _ => [Leaf n]
  end.

(** The rules whose selector matches [target], at any depth. *)
Fixpoint matching (target : string) (n : PostCSS.Node) : list string :=
  match n with
  | PostCSS.Rule sel ns =>
      ((if Patcher.matchSelector sel target then [sel] else [])
       ++ List.flat_map (matching target) ns)%list
  | PostCSS.AtRule _ ns => List.flat_map (matching target) ns
  | _ => []
  end.

Definition isRule (n : PostCSS.Node) : bool :=
  match n with PostCSS.Rule _ _ => true | _ => false end.

(** What an edit of the patcher makes of the declarations it reaches. *)
Definition edited (e : Patcher.DeclEdit) (l : list (string * bool))
  : list (string * bool) :=
  match e with
  | Patcher.Remove => []
  | Patcher.Assign v i => List.map (fun _ => (v, i)) l
  | Patcher.Throw => l
  end.

Definition nonNil {A} (l : list A) : bool :=
  match l with [] => false | _ :: _ => true end.

(** [targeted] and [outline] over a list of nodes. *)
Definition reached (target p : string) (inside : bool)
           (l : list PostCSS.Node) : list (string * bool) :=
  List.flat_map (targeted target p inside) l.

Definition remaining (target p : string) (inside : bool)
           (l : list PostCSS.Node) : list Token :=
  List.flat_map (outline target p inside) l.

(** What a walk of the plain patcher with the edit [e] makes of [nodes]:
    outside the reached declarations nothing changes, the reached ones
    are edited, and [f] tells whether there was one; below a rule that
    matched already, nodes that were edited stay as they are. *)
Definition walked (target p : string) (e : Patcher.DeclEdit)
           (nodes nodes' : list PostCSS.Node) (f : bool) : Prop :=
  remaining target p false nodes' = remaining target p false nodes
  /\ reached target p false nodes' = edited e (reached target p false nodes)
  /\ f = nonNil (reached target p false nodes)
  /\ remaining target p true nodes' = remaining target p true nodes
  /\ (edited e (reached target p true nodes) = reached target p true nodes ->
      reached target p true nodes' = reached target p true nodes).

(** The child indices [rel] lead, through rules and at-rules, to a rule
    whose selector matches [target]. *)
Fixpoint hits (target : string) (rel : list nat) (l : list PostCSS.Node)
  : Prop :=
  match rel with
  | [] => False
  | i :: rel' =>
      match List.nth_error l i with
      | Some (PostCSS.Rule sel kids) =>
          match rel' with
          | [] => Patcher.matchSelector sel target = true
          | _ :: _ => hits target rel' kids
          end
      | Some (PostCSS.AtRule _ kids) =>
          match rel' with
          | [] => False
          | _ :: _ => hits target rel' kids
          end
      | _ => False
      end
  end.

(** [map.get(key) || []] *)
Definition groupOf (key : string) (m : DeclMap) : list Declaration :=
  orEmpty (mapGet key m).

(** The loop guard of [w] holds the marker of a write of [newText] for
    the sheet, made at the instant of [w]. *)
Definition marked (id newText : string) (w : Agent.World) : Prop :=
  LoopGuard.recentWrites (Agent.loopGuard w) !! LoopGuard.sheetKey id
  = Some {| LoopGuard.hash := LoopGuard.computeHash newText;
            LoopGuard.timestamp := Agent.now w |}.

(** [w'] is reached from [w] by steps of one run of the change handler:
    the calls grow by [news], clock and TTL stay, a marker stays, and a
    patch that applied something leaves the marker. *)
Definition reaches (id newText : string) (w w' : Agent.World) : Prop :=
  exists news,
    Agent.calls w' = (Agent.calls w ++ news)%list
    /\ Agent.now w' = Agent.now w
    /\ LoopGuard.ttl (Agent.loopGuard w') = LoopGuard.ttl (Agent.loopGuard w)
    /\ (marked id newText w -> marked id newText w')
    /\ (forall scss path changes result,
          List.In (Agent.PatchCalled scss path changes result) news ->
          (0 < Patcher.success result)%nat -> marked id newText w').

(** The text the registry holds for a sheet, [null] included. *)
Definition storedText (id : string) (w : Agent.World)
  : option (option string) :=
  Registry.text <$> (Agent.registry w !! id).

(** Where a visit or a walk of the plain patcher leaves [targetRule]: on
    the indices, below [prefix], of a rule that matches, or on nothing
    when no rule of [nodes] matches. *)
Definition aimed (target : string) (prefix : list nat)
           (nodes nodes' : list PostCSS.Node) (t : option (list nat))
  : Prop :=
  match t with
  | Some path =>
      exists rel, path = (prefix ++ rel)%list /\ hits target rel nodes'
  | None => List.flat_map (matching target) nodes = []
  end.

(** Every character the pattern can consume satisfies [P]. *)
Fixpoint consumesOnly (P : ascii -> bool) (r : regex) : Prop :=
  match r with
  | Chr c => P c = true
  | Cls f => forall c, f c = true -> P c = true
  | Seq a b | Alt a b => consumesOnly P a /\ consumesOnly P b
  | Star _ a | Grp _ a => consumesOnly P a
  | _ => True
  end.

(** Every character of [w] satisfies [P]. *)
Fixpoint allChars (P : ascii -> bool) (w : string) : bool :=
  match w with
  | EmptyString => true
  | String c w' => P c && allChars P w'
  end.

End Notions.

(* ===================================================================== *)
(** * Properties *)
(* ===================================================================== *)

Arguments MD5.hex : simpl never.
Arguments LoopGuard.computeHash : simpl never.

(* --------------------------------------------------------------------- *)
(** ** Loop guard *)
(* --------------------------------------------------------------------- *)

Section LoopGuardFacts.
Import LoopGuard.

Variables (now : Z) (key content : string) (g : t).

Lemma shouldIgnore_absent :
  recentWrites g !! key = None ->
  shouldIgnore now key content g = (false, g).
Proof. intros H. unfold shouldIgnore. now rewrite H. Qed.

Lemma shouldIgnore_expired (r : WriteRecord) :
  recentWrites g !! key = Some r ->
  (ttl g < now - timestamp r)%Z ->
  shouldIgnore now key content g
  = (false, {| recentWrites := delete key (recentWrites g);
               ttl := ttl g |}).
Proof.
  intros H Hold. unfold shouldIgnore. rewrite H.
  destruct (Z.ltb_spec (ttl g) (now - timestamp r)); [reflexivity | lia].
Qed.

Lemma shouldIgnore_live (r : WriteRecord) :
  recentWrites g !! key = Some r ->
  (now - timestamp r <= ttl g)%Z ->
  shouldIgnore now key content g
  = (String.eqb (hash r) (computeHash content), g).
Proof.
  intros H Hlive. unfold shouldIgnore. rewrite H.
  destruct (Z.ltb_spec (ttl g) (now - timestamp r)); [lia | reflexivity].
Qed.

End LoopGuardFacts.

(** C5.  [shouldIgnore] answers [true] exactly when the guard holds a record
    for the key whose age [now - timestamp] does not exceed [ttl] and whose
    hash is the MD5 of the content; a record older than [ttl] is deleted
    and the answer is [false]; without a record the answer is [false] and
    the guard is unchanged. *)
Theorem shouldIgnore_spec (now : Z) (key content : string) (g : LoopGuard.t) :
  (fst (LoopGuard.shouldIgnore now key content g) = true
   <-> exists r, LoopGuard.recentWrites g !! key = Some r
                 /\ (now - LoopGuard.timestamp r <= LoopGuard.ttl g)%Z
                 /\ LoopGuard.hash r = MD5.hex content)
  /\ (forall r, LoopGuard.recentWrites g !! key = Some r ->
                (LoopGuard.ttl g < now - LoopGuard.timestamp r)%Z ->
                fst (LoopGuard.shouldIgnore now key content g) = false
                /\ LoopGuard.recentWrites
                     (snd (LoopGuard.shouldIgnore now key content g)) !! key
                   = None
                /\ forall other, other <> key ->
                     LoopGuard.recentWrites
                       (snd (LoopGuard.shouldIgnore now key content g)) !! other
                     = LoopGuard.recentWrites g !! other)
  /\ (LoopGuard.recentWrites g !! key = None ->
      LoopGuard.shouldIgnore now key content g = (false, g)).
Proof.
  split; [| split].
  - destruct (LoopGuard.recentWrites g !! key) as [r|] eqn:Hr.
    + destruct (Z.le_gt_cases (now - LoopGuard.timestamp r) (LoopGuard.ttl g))
        as [Hlive | Hold].
      * rewrite (shouldIgnore_live now key content g r Hr Hlive). simpl.
        unfold LoopGuard.computeHash. rewrite String.eqb_eq. split.
        -- intros Heq. exists r. auto.
        -- intros (r' & Hr' & _ & Hh). congruence.
      * rewrite (shouldIgnore_expired now key content g r Hr Hold). simpl.
        split; [discriminate |].
        intros (r' & Hr' & Hlive & _). assert (r' = r) by congruence.
        subst. lia.
    + rewrite (shouldIgnore_absent now key content g Hr). simpl.
      split; [discriminate |]. intros (r' & Hr' & _). discriminate.
  - intros r Hr Hold.
    rewrite (shouldIgnore_expired now key content g r Hr Hold). simpl.
    split; [reflexivity |]. split.
    + apply lookup_delete_eq.
    + intros other Hne. now apply lookup_delete_ne.
  - apply shouldIgnore_absent.
Qed.

(* --------------------------------------------------------------------- *)
(** ** Registry and the early returns of the change handler *)
(* --------------------------------------------------------------------- *)

Lemma withGuard_same (w : Agent.World) :
  Agent.withGuard (Agent.loopGuard w) w = w.
Proof. now destruct w. Qed.

(** When [shouldIgnore] answers [true] the guard is returned as it was. *)
Lemma shouldIgnore_true_keeps (now : Z) (key content : string)
      (g : LoopGuard.t) :
  fst (LoopGuard.shouldIgnore now key content g) = true ->
  snd (LoopGuard.shouldIgnore now key content g) = g.
Proof.
  unfold LoopGuard.shouldIgnore.
  destruct (LoopGuard.recentWrites g !! key) as [r|]; [| reflexivity].
  destruct (LoopGuard.ttl g <? now - LoopGuard.timestamp r)%Z;
    [discriminate | reflexivity].
Qed.

Lemma getPreviousText_None (id : string) (sheets : gmap string Registry.Sheet) :
  Registry.getPreviousText id sheets = None
  <-> sheets !! id = None
      \/ exists sh, sheets !! id = Some sh
                    /\ (Registry.text sh = None \/ Registry.text sh = Some "").
Proof.
  unfold Registry.getPreviousText.
  destruct (sheets !! id) as [sh|] eqn:Hsh.
  - destruct (Registry.text sh) as [[|c t]|] eqn:Ht; simpl.
    + split; [intros _; right; exists sh; auto | reflexivity].
    + split; [discriminate |].
      intros [H | (sh' & Hsh' & [H | H])]; [discriminate | |];
        assert (sh' = sh) by congruence; subst; congruence.
    + split; [intros _; right; exists sh; auto | reflexivity].
  - split; [intros _; now left | reflexivity].
Qed.

(** C10.  [getPreviousText] gives [null] for a sheet whose stored text is
    the empty string, exactly as for an unregistered sheet or one whose text
    was never fetched; the change handler then takes the branch for a
    missing previous text: it stores the new text and returns, calling
    neither the differ nor a patcher. *)
Theorem previous_text_empty_is_missing
        (env : Agent.Env) (id : string) (freshText : option string)
        (w : Agent.World) (sh : Registry.Sheet) (newText : string) :
  Agent.registry w !! id = Some sh ->
  Registry.text sh = Some "" ->
  Agent.obtained env id freshText = Some newText ->
  fst (LoopGuard.shouldIgnoreStyleSheet (Agent.now w) id newText
                                        (Agent.loopGuard w)) = false ->
  Registry.getPreviousText id (Agent.registry w) = None
  /\ (forall sheets : gmap string Registry.Sheet,
        Registry.getPreviousText id sheets = None
        <-> sheets !! id = None
            \/ exists s, sheets !! id = Some s
                         /\ (Registry.text s = None
                             \/ Registry.text s = Some ""))
  /\ Agent.handleStyleSheetChange env id freshText w
     = Agent.updateText id newText
         (Agent.withGuard
            (snd (LoopGuard.shouldIgnoreStyleSheet (Agent.now w) id newText
                                                   (Agent.loopGuard w))) w)
  /\ Agent.calls (Agent.handleStyleSheetChange env id freshText w)
     = Agent.calls w
  /\ Agent.files (Agent.handleStyleSheetChange env id freshText w)
     = Agent.files w
  /\ Registry.getPreviousText
       id (Agent.registry (Agent.handleStyleSheetChange env id freshText w))
     = JS.or_else (Some newText) None.
Proof.
  intros Hsh Htext Hnew Hguard.
  assert (Hprev : Registry.getPreviousText id (Agent.registry w) = None).
  { apply getPreviousText_None. right. exists sh. auto. }
  assert (Hrun : Agent.handleStyleSheetChange env id freshText w
                 = Agent.updateText id newText
                     (Agent.withGuard
                        (snd (LoopGuard.shouldIgnoreStyleSheet
                                (Agent.now w) id newText (Agent.loopGuard w)))
                        w)).
  { unfold Agent.handleStyleSheetChange. rewrite Hnew, Hprev.
    destruct (LoopGuard.shouldIgnoreStyleSheet (Agent.now w) id newText
                                               (Agent.loopGuard w))
      as [ignore g'] eqn:Hg.
    simpl in Hguard. subst ignore. reflexivity. }
  split; [exact Hprev |]. split; [apply getPreviousText_None |].
  split; [exact Hrun |]. rewrite Hrun.
  split; [reflexivity |]. split; [reflexivity |].
  unfold Agent.updateText, Agent.withRegistry, Agent.withGuard; simpl.
  unfold Registry.updateText, Registry.getPreviousText. rewrite Hsh.
  rewrite lookup_insert_eq. reflexivity.
Qed.

Lemma previous_text_empty_is_missing_witness :
  Registry.getPreviousText
    "1" (Agent.registry
           (Samples.world (Samples.sheet Samples.stylesUrl (Some "") None)
                          (LoopGuard.create None) Samples.plainFS))
  = None
  /\ Agent.calls
       (Agent.handleStyleSheetChange
          Samples.env "1" (Some Samples.blueText)
          (Samples.world (Samples.sheet Samples.stylesUrl (Some "") None)
                         (LoopGuard.create None) Samples.plainFS))
     = [].
Proof.
  pose proof (previous_text_empty_is_missing
                Samples.env "1" (Some Samples.blueText)
                (Samples.world (Samples.sheet Samples.stylesUrl (Some "") None)
                               (LoopGuard.create None) Samples.plainFS)
                (Samples.sheet Samples.stylesUrl (Some "") None)
                Samples.blueText
                ltac:(reflexivity) ltac:(reflexivity) ltac:(reflexivity)
                ltac:(vm_compute; reflexivity))
    as (H1 & _ & _ & H2 & _).
  split; [exact H1 | exact H2].
Defined.

(** The handler's own test of the guard: called with a text that the
    guard reports as its own, it returns at once and stores nothing. *)
Lemma guarded_handler_returns
      (env : Agent.Env) (id : string) (freshText : option string)
      (w : Agent.World) (newText : string) :
  Agent.obtained env id freshText = Some newText ->
  fst (LoopGuard.shouldIgnoreStyleSheet (Agent.now w) id newText
                                        (Agent.loopGuard w)) = true ->
  Agent.handleStyleSheetChange env id freshText w = w.
Proof.
  intros Hnew Hguard.
  pose proof (shouldIgnore_true_keeps _ _ _ _ Hguard) as Hkeep.
  unfold LoopGuard.shouldIgnoreStyleSheet in *.
  unfold Agent.handleStyleSheetChange. rewrite Hnew.
  unfold LoopGuard.shouldIgnoreStyleSheet.
  destruct (LoopGuard.shouldIgnore (Agent.now w) (LoopGuard.sheetKey id)
                                   newText (Agent.loopGuard w))
    as [ignore g'].
  simpl in Hguard, Hkeep. subst. apply withGuard_same.
Qed.






(* --------------------------------------------------------------------- *)
(** ** Strings *)
(* --------------------------------------------------------------------- *)

Section StringFacts.

Lemma chars_app (a b : string) :
  list_ascii_of_string (a ++ b)
  = (list_ascii_of_string a ++ list_ascii_of_string b)%list.
Proof. induction a as [|c a IH]; simpl; [reflexivity | now rewrite IH]. Qed.

Lemma chars_inj (a b : string) :
  list_ascii_of_string a = list_ascii_of_string b -> a = b.
Proof.
  intros H. rewrite <- (string_of_list_ascii_of_string a).
  rewrite <- (string_of_list_ascii_of_string b). now rewrite H.
Qed.

Lemma append_inv_tail (a b s : string) : a ++ s = b ++ s -> a = b.
Proof.
  intros H. apply chars_inj. apply (f_equal list_ascii_of_string) in H.
  rewrite !chars_app in H. now apply List.app_inv_tail in H.
Qed.

Lemma append_empty (s : string) : s ++ "" = s.
Proof.
  apply chars_inj. rewrite chars_app. simpl. apply List.app_nil_r.
Qed.

Lemma chars_rev_onto (s acc : string) :
  list_ascii_of_string (JS.rev_onto s acc)
  = (List.rev (list_ascii_of_string s) ++ list_ascii_of_string acc)%list.
Proof.
  revert acc. induction s as [|c s IH]; intros acc; simpl; [reflexivity |].
  rewrite IH. simpl. now rewrite <- List.app_assoc.
Qed.

Lemma chars_rev (s : string) :
  list_ascii_of_string (JS.rev s) = List.rev (list_ascii_of_string s).
Proof. unfold JS.rev. rewrite chars_rev_onto. simpl. apply List.app_nil_r. Qed.

Lemma rev_append (a b : string) : JS.rev (a ++ b) = JS.rev b ++ JS.rev a.
Proof.
  apply chars_inj. rewrite chars_app, !chars_rev, chars_app.
  apply List.rev_app_distr.
Qed.

Lemma startsWith_append (p t : string) : JS.startsWith p (p ++ t) = true.
Proof.
  induction p as [|c p IH]; simpl; [reflexivity |].
  now rewrite Ascii.eqb_refl, IH.
Qed.

Lemma endsWith_append (v suffix : string) :
  JS.endsWith suffix (v ++ suffix) = true.
Proof. unfold JS.endsWith. rewrite rev_append. apply startsWith_append. Qed.

End StringFacts.

(* --------------------------------------------------------------------- *)
(** ** Differ *)
(* --------------------------------------------------------------------- *)

Section DifferFacts.
Import Differ Notions.

Lemma mapPush_keys key d m :
  keys (mapPush key d m) = if List.existsb (String.eqb key) (keys m) then keys m else (keys m ++ [key])%list.
Proof.
  induction m as [|[k ds] m IH]; simpl; [reflexivity |].
  rewrite (String.eqb_sym key k).
  destruct (String.eqb k key) eqn:E; simpl; [reflexivity |].
  rewrite IH. now destruct (List.existsb _ _).
Qed.

Lemma mapPush_NoDup key d m : List.NoDup (keys m) -> List.NoDup (keys (mapPush key d m)).
Proof.
  intros H. rewrite mapPush_keys.
  destruct (List.existsb (String.eqb key) (keys m)) eqn:E; [exact H |].
  apply List.NoDup_app; [exact H | repeat constructor; intros [] |].
  intros x Hx Hin. destruct Hin as [<- | []].
  assert (List.existsb (String.eqb key) (keys m) = true); [| congruence].
  apply List.existsb_exists. exists key. split; [exact Hx | apply String.eqb_refl].
Qed.

Lemma buildMap_from_NoDup decls m :
  List.NoDup (keys m) ->
  List.NoDup (keys (List.fold_left (fun m d => mapPush (keyOf d) d m) decls m)).
Proof.
  revert m. induction decls as [|d ds IH]; intros m H; simpl; [exact H |].
  apply IH. now apply mapPush_NoDup.
Qed.

Lemma buildMap_NoDup decls : List.NoDup (keys (buildMap decls)).
Proof. apply buildMap_from_NoDup. constructor. Qed.

Lemma mapGet_In key l m :
  List.NoDup (keys m) -> List.In (key, l) m -> mapGet key m = Some l.
Proof.
  induction m as [|[k ds] m IH]; simpl; [intros _ [] |].
  intros Hnd [Heq | Hin].
  - inversion Heq; subst. now rewrite String.eqb_refl.
  - inversion Hnd as [|? ? Hnot Hnd']; subst.
    destruct (String.eqb_spec k key) as [-> | Hne].
    + exfalso. apply Hnot. change key with (fst (key, l)). now apply List.in_map.
    + now apply IH.
Qed.

Lemma differs_same d : differs d d = false.
Proof. unfold differs. now rewrite String.eqb_refl, Bool.eqb_reflx. Qed.

Lemma compareLists_same l : compareLists l l = [].
Proof. induction l as [|d l IH]; simpl; [reflexivity |]. now rewrite differs_same. Qed.

Lemma flat_map_nil {A B} (f : A -> list B) (l : list A) :
  (forall x, List.In x l -> f x = []) -> List.flat_map f l = [].
Proof.
  induction l as [|a l IH]; simpl; [reflexivity |]. intros H.
  rewrite (H a) by now left. simpl. apply IH. intros x Hx. apply H. now right.
Qed.

Lemma diffDeclarations_same decls : diffDeclarations decls decls = [].
Proof.
  unfold diffDeclarations, changedPart, deletedPart.
  pose proof (buildMap_NoDup decls) as Hnd.
  rewrite !flat_map_nil; [reflexivity | |].
  - intros [k l] Hin. simpl. rewrite (mapGet_In k l _ Hnd Hin). simpl.
    now rewrite List.skipn_all.
  - intros [k l] Hin. simpl. rewrite (mapGet_In k l _ Hnd Hin). simpl.
    apply compareLists_same.
Qed.

Lemma mapPush_allOf P key d m : P d -> allOf P m -> allOf P (mapPush key d m).
Proof.
  intros Hd. induction m as [|[k ds] m IH]; simpl; intros Hm k' l' x Hin Hx.
  - destruct Hin as [[= <- <-] | []]. destruct Hx as [<- | []]. exact Hd.
  - destruct (String.eqb k key).
    + destruct Hin as [[= <- <-] | Hin].
      * apply List.in_app_or in Hx as [Hx | [<- | []]]; [| exact Hd].
        apply (Hm k ds); [now left | exact Hx].
      * apply (Hm k' l'); [now right | exact Hx].
    + destruct Hin as [[= <- <-] | Hin].
      * apply (Hm k ds); [now left | exact Hx].
      * apply (IH (fun a b c H1 H2 => Hm a b c (or_intror H1) H2) k' l');
          assumption.
Qed.

Lemma buildMap_from_allOf P decls m :
  (forall d, List.In d decls -> P d) -> allOf P m ->
  allOf P (List.fold_left (fun m d => mapPush (keyOf d) d m) decls m).
Proof.
  revert m. induction decls as [|d ds IH]; intros m Hds Hm; simpl; [exact Hm |].
  apply IH.
  - intros x Hx. apply Hds. now right.
  - apply mapPush_allOf; [apply Hds; now left | exact Hm].
Qed.

Lemma buildMap_allOf decls : allOf (fun d => List.In d decls) (buildMap decls).
Proof.
  apply buildMap_from_allOf; [auto |]. intros k l d [].
Qed.

Lemma mapGet_Some_In key l m : mapGet key m = Some l -> List.In (key, l) m.
Proof.
  induction m as [|[k ds] m IH]; simpl; [discriminate |].
  destruct (String.eqb_spec k key) as [-> | Hne].
  - intros [= ->]. now left.
  - intros H. right. now apply IH.
Qed.

(** Where the records of the inner loop come from. *)
Lemma compareLists_In c news olds :
  List.In c (compareLists news olds) ->
  (exists n, List.In n news /\ c = addOf n)
  \/ (exists o n, List.In o olds /\ List.In n news
                  /\ differs o n = true /\ c = changeOf o n).
Proof.
  revert olds. induction news as [|n news IH]; intros olds; simpl; [intros [] |].
  destruct olds as [|o olds].
  - intros [<- | Hin].
    + left. exists n. split; [now left | reflexivity].
    + destruct (IH [] Hin) as [(n' & Hn' & ->) | (o' & n' & [] & _)].
      left. exists n'. split; [now right | reflexivity].
  - destruct (differs o n) eqn:Hd.
    + intros [<- | Hin].
      * right. exists o, n. repeat split; try now left. exact Hd.
      * destruct (IH olds Hin) as [(n' & Hn' & ->) | (o' & n' & Ho' & Hn' & Hd' & ->)].
        -- left. exists n'. split; [now right | reflexivity].
        -- right. exists o', n'. repeat split; try now right. exact Hd'.
    + intros Hin.
      destruct (IH olds Hin) as [(n' & Hn' & ->) | (o' & n' & Ho' & Hn' & Hd' & ->)].
      * left. exists n'. split; [now right | reflexivity].
      * right. exists o', n'. repeat split; try now right. exact Hd'.
Qed.

Lemma diffDeclarations_In c olds news :
  List.In c (diffDeclarations olds news) ->
  (exists n, List.In n news /\ c = addOf n)
  \/ (exists o n, List.In o olds /\ List.In n news
                  /\ differs o n = true /\ c = changeOf o n)
  \/ (exists o, List.In o olds /\ c = deleteOf o).
Proof.
  unfold diffDeclarations, changedPart, deletedPart. intros Hin.
  apply List.in_app_or in Hin as [Hin | Hin];
    apply List.in_flat_map in Hin as ([k l] & Hentry & Hc); simpl in Hc.
  - apply compareLists_In in Hc
      as [(n & Hn & ->) | (o & n & Ho & Hn & Hd & ->)].
    + left. exists n. split; [| reflexivity].
      apply (buildMap_allOf news k l n Hentry Hn).
    + right. left. exists o, n.
      split; [| split; [| split; [exact Hd | reflexivity]]].
      * destruct (mapGet k (buildMap olds)) as [lo|] eqn:Hget; [| destruct Ho].
        apply mapGet_Some_In in Hget.
        apply (buildMap_allOf olds k lo o Hget Ho).
      * apply (buildMap_allOf news k l n Hentry Hn).
  - apply List.in_map_iff in Hc as (o & <- & Ho).
    right. right. exists o. split; [| reflexivity].
    apply (buildMap_allOf olds k l o Hentry).
    rewrite <- (List.firstn_skipn
                  (List.length (orEmpty (mapGet k (buildMap news)))) l).
    apply List.in_or_app. now right.
Qed.

Lemma withImportant_differs o n :
  plainValue o -> plainValue n -> differs o n = true ->
  withImportant o <> withImportant n.
Proof.
  unfold plainValue, differs, withImportant. intros Ho Hn Hd Heq.
  destruct (d_important o) eqn:Io, (d_important n) eqn:In_; simpl in Hd.
  - apply append_inv_tail in Heq. rewrite Heq, String.eqb_refl in Hd.
    discriminate.
  - specialize (Hn eq_refl).
    rewrite append_empty in Heq.
    rewrite <- Heq, endsWith_append in Hn. discriminate.
  - specialize (Ho eq_refl).
    rewrite append_empty in Heq.
    rewrite Heq, endsWith_append in Ho. discriminate.
  - apply append_inv_tail in Heq. rewrite Heq, String.eqb_refl in Hd.
    discriminate.
Qed.

End DifferFacts.

(** C6.  For a text that parses, the differ run on the text against itself
    reports no change of any kind. *)
Theorem differ_idempotent (lib : PostCSS.Lib) (A : string) (root : PostCSS.Root) :
  PostCSS.css_parse lib A = Some root ->
  Differ.findChangedDeclarations lib A A = [].
Proof.
  intros _. unfold Differ.findChangedDeclarations.
  apply diffDeclarations_same.
Qed.

Lemma differ_idempotent_witness :
  Differ.findChangedDeclarations Samples.lib Samples.redText Samples.redText
  = [].
Proof.
  apply (differ_idempotent Samples.lib Samples.redText
                           [PostCSS.Rule ".btn" [Samples.colorDecl 8 "red" 18]]).
  reflexivity.
Defined.

(** The color change of the specification's first scenario. *)
Example differ_color_change :
  Differ.findChangedDeclarations Samples.lib Samples.redText Samples.blueText
  = [{| Differ.type := Differ.change; Differ.selector := ".btn";
        Differ.prop := "color"; Differ.oldValue := Some "red";
        Differ.newValue := Some "blue"; Differ.important := Some false;
        Differ.position := {| PostCSS.line := 1; PostCSS.column := 7 |} |}].
Proof. vm_compute. reflexivity. Qed.

(** C7.  Every record the differ emits satisfies the invariant of its kind:
    an addition has no old value and a new value; a change has both values
    and they differ (in the value or only in the [!important] suffix); a
    deletion has an old value and no new value.  The declarations are
    taken as postcss delivers them, a trailing [!important] being held in
    the flag and not in the value. *)
Theorem differ_kind_invariants
        (lib : PostCSS.Lib) (oldCss newCss : string) (c : Differ.Change) :
  List.Forall Notions.plainValue
              (Differ.parseDeclarations lib oldCss
               ++ Differ.parseDeclarations lib newCss)%list ->
  List.In c (Differ.findChangedDeclarations lib oldCss newCss) ->
  Notions.kindInvariant c.
Proof.
  intros Hplain Hin. rewrite List.Forall_forall in Hplain.
  unfold Differ.findChangedDeclarations in Hin.
  apply diffDeclarations_In in Hin
    as [(n & Hn & ->) | [(o & n & Ho & Hn & Hd & ->) | (o & Ho & ->)]];
    unfold Notions.kindInvariant; simpl.
  - split; [reflexivity | discriminate].
  - exists (Differ.withImportant o), (Differ.withImportant n).
    split; [reflexivity |]. split; [reflexivity |].
    apply withImportant_differs; [| | exact Hd];
      apply Hplain, List.in_or_app; [now left | now right].
  - split; [discriminate | reflexivity].
Qed.

Lemma differ_kind_invariants_witness :
  Notions.kindInvariant
    {| Differ.type := Differ.change; Differ.selector := ".btn";
       Differ.prop := "color"; Differ.oldValue := Some "red";
       Differ.newValue := Some "blue"; Differ.important := Some false;
       Differ.position := {| PostCSS.line := 1; PostCSS.column := 7 |} |}.
Proof.
  apply (differ_kind_invariants Samples.lib Samples.redText Samples.blueText).
  - vm_compute. repeat constructor.
  - vm_compute. left. reflexivity.
Defined.

(* --------------------------------------------------------------------- *)
(** ** Patchers *)
(* --------------------------------------------------------------------- *)

Section PatcherFacts.
Import PostCSS Patcher.

Lemma maxHeight_cons x l : maxHeight (x :: l) = Nat.max (height x) (maxHeight l).
Proof. reflexivity. Qed.

Lemma maxHeight_app l1 l2 :
  maxHeight (l1 ++ l2)%list = Nat.max (maxHeight l1) (maxHeight l2).
Proof.
  induction l1 as [|x l1 IH]; [reflexivity |].
  change ((x :: l1) ++ l2)%list with (x :: (l1 ++ l2))%list.
  rewrite !maxHeight_cons, IH. lia.
Qed.

Lemma height_Rule sel ns : height (Rule sel ns) = S (maxHeight ns).
Proof. reflexivity. Qed.

Lemma height_AtRule name ns : height (AtRule name ns) = S (maxHeight ns).
Proof. reflexivity. Qed.

(** Induction over a tree, with the property at hand for every child. *)
Lemma Node_induction (P : Node -> Prop) :
  (forall q v i src, P (Decl q v i src)) ->
  (forall sel ns, List.Forall P ns -> P (Rule sel ns)) ->
  (forall name ns, List.Forall P ns -> P (AtRule name ns)) ->
  (forall t, P (Comment t)) ->
  forall n, P n.
Proof.
  intros HDecl HRule HAt HComment. fix IH 1.
  intros [q v i src | sel ns | name ns | t].
  - apply HDecl.
  - apply HRule. induction ns as [|x ns IHns]; constructor;
      [apply IH | exact IHns].
  - apply HAt. induction ns as [|x ns IHns]; constructor;
      [apply IH | exact IHns].
  - apply HComment.
Qed.

Lemma editChildren_height_from p e l :
  List.Forall (fun n => forall xs f, editDecls p e n = Some (xs, f) ->
                                     (maxHeight xs <= height n)%nat) l ->
  forall l' f', editChildren p e l = Some (l', f') ->
                (maxHeight l' <= maxHeight l)%nat.
Proof.
  induction 1 as [|x l Hx _ IHl]; intros l' f' Hl; simpl in Hl.
  - injection Hl as <- <-. reflexivity.
  - destruct (editDecls p e x) as [[xs1 f1]|] eqn:Hx1; [| discriminate].
    destruct (editChildren p e l) as [[ls f2]|] eqn:Hrest; [| discriminate].
    injection Hl as <- <-.
    rewrite maxHeight_app, maxHeight_cons.
    pose proof (Hx _ _ eq_refl). pose proof (IHl _ _ eq_refl). lia.
Qed.

(** The local loop of [editDecls] is [editChildren]. *)
Lemma editDecls_Rule p e sel ns :
  editDecls p e (Rule sel ns)
  = match editChildren p e ns with
    | Some (ns', f) => Some ([Rule sel ns'], f)
    | None => None
    end.
Proof.
  simpl.
  match goal with
  | |- match ?L with _ => _ end = _ =>
      assert (Heq : L = editChildren p e ns)
  end.
  { induction ns as [|x ns IH]; [reflexivity |]. simpl.
    destruct (editDecls p e x) as [[xs f1]|]; [| reflexivity].
    now rewrite IH. }
  now rewrite Heq.
Qed.

Lemma editDecls_AtRule p e name ns :
  editDecls p e (AtRule name ns)
  = match editChildren p e ns with
    | Some (ns', f) => Some ([AtRule name ns'], f)
    | None => None
    end.
Proof.
  simpl.
  match goal with
  | |- match ?L with _ => _ end = _ =>
      assert (Heq : L = editChildren p e ns)
  end.
  { induction ns as [|x ns IH]; [reflexivity |]. simpl.
    destruct (editDecls p e x) as [[xs f1]|]; [| reflexivity].
    now rewrite IH. }
  now rewrite Heq.
Qed.

(** Editing declarations does not deepen the tree. *)
Lemma editDecls_height p e :
  forall n xs f, editDecls p e n = Some (xs, f) ->
                 (maxHeight xs <= height n)%nat.
Proof.
  induction n as [q v i src | sel ns IH | name ns IH | t] using Node_induction;
    intros xs f H.
  - simpl in H. destruct (String.eqb q p).
    + destruct e; injection H as <- <- || discriminate H; simpl; lia.
    + injection H as <- <-. simpl. lia.
  - rewrite editDecls_Rule in H.
    destruct (editChildren p e ns) as [[ns' f']|] eqn:Hns; [| discriminate].
    injection H as <- <-.
    apply (editChildren_height_from _ _ _ IH) in Hns.
    rewrite maxHeight_cons, !height_Rule. simpl. lia.
  - rewrite editDecls_AtRule in H.
    destruct (editChildren p e ns) as [[ns' f']|] eqn:Hns; [| discriminate].
    injection H as <- <-.
    apply (editChildren_height_from _ _ _ IH) in Hns.
    rewrite maxHeight_cons, !height_AtRule. simpl. lia.
  - injection H as <- <-. simpl. lia.
Qed.

Lemma editChildren_height p e l l' f' :
  editChildren p e l = Some (l', f') -> (maxHeight l' <= maxHeight l)%nat.
Proof.
  apply editChildren_height_from. apply List.Forall_forall.
  intros n _. apply editDecls_height.
Qed.

Lemma eachNode_leaves visit prefix :
  (forall here x, height x = 0%nat -> visit here x = Some (x, false, None)) ->
  forall l idx,
    maxHeight l = 0%nat ->
    eachNode visit prefix idx l
    = Some {| tree := l; found := false; targetRule := None |}.
Proof.
  intros Hvisit. induction l as [|x l IH]; intros idx Hz; [reflexivity |].
  rewrite maxHeight_cons in Hz. simpl.
  rewrite Hvisit by lia. rewrite IH by lia. reflexivity.
Qed.

Lemma eachNode_ext visit visit' prefix :
  forall l idx,
    (forall here x, List.In x l -> visit here x = visit' here x) ->
    eachNode visit prefix idx l = eachNode visit' prefix idx l.
Proof.
  induction l as [|x l IH]; intros idx Hv; [reflexivity |]. simpl.
  rewrite (Hv _ x (or_introl eq_refl)).
  rewrite (IH (S idx) (fun h y Hy => Hv h y (or_intror Hy))). reflexivity.
Qed.

Lemma height_le_max x l : List.In x l -> (height x <= maxHeight l)%nat.
Proof.
  induction l as [|y l IH]; [intros [] |]. rewrite maxHeight_cons.
  intros [<- | Hin]; [lia |]. specialize (IH Hin). lia.
Qed.

Lemma walkRules_S fuel c prefix nodes :
  walkRules (S fuel) c prefix nodes
  = eachNode (visitRule (walkRules fuel c) c) prefix 0 nodes.
Proof. reflexivity. Qed.

Lemma walkRulesDeep_S fuel c parentSelector prefix nodes :
  walkRulesDeep (S fuel) c parentSelector prefix nodes
  = eachNode (visitDeep (fun here full => walkRulesDeep fuel c full here)
                        c parentSelector)
             prefix 0 nodes.
Proof. reflexivity. Qed.

(** A walk with fuel at or above the height of the nodes gives what a walk
    with more fuel gives: the fuel that [applyChange] starts with is
    enough. *)
Lemma walkRules_fuel c :
  forall fuel nodes prefix,
    (maxHeight nodes <= fuel)%nat ->
    walkRules (S fuel) c prefix nodes = walkRules fuel c prefix nodes.
Proof.
  induction fuel as [|fuel IH]; intros nodes prefix Hh.
  - rewrite walkRules_S. cbn [walkRules]. apply eachNode_leaves; [| lia].
    intros here [q v i src | sel ns | name ns | t] Hx; try reflexivity.
    rewrite height_Rule in Hx. lia.
  - rewrite (walkRules_S (S fuel)), (walkRules_S fuel). apply eachNode_ext.
    intros here x Hin. apply height_le_max in Hin.
    destruct x as [q v i src | sel kids | name kids | t]; try reflexivity.
    + rewrite height_Rule in Hin. unfold visitRule.
      destruct (matchSelector sel (Differ.selector c)).
      * destruct (editChildren (Differ.prop c) (editFor false c) kids)
          as [[kids1 f1]|] eqn:He; [| reflexivity].
        apply editChildren_height in He.
        rewrite (IH kids1) by lia. reflexivity.
      * rewrite (IH kids) by lia. reflexivity.
    + rewrite height_AtRule in Hin. unfold visitRule.
      rewrite (IH kids) by lia. reflexivity.
Qed.

Lemma callbacks_height c here fulls :
  forall kids f t kids' f' t',
    callbacks c here fulls kids f t = Some (kids', f', t') ->
    (maxHeight kids' <= maxHeight kids)%nat.
Proof.
  induction fulls as [|full rest IH]; intros kids f t kids' f' t' H;
    simpl in H.
  - injection H as <- <- <-. reflexivity.
  - destruct (matchSelector full (Differ.selector c)).
    + destruct (editChildren (Differ.prop c) (editFor true c) kids)
        as [[kids1 f1]|] eqn:He; [| discriminate].
      apply editChildren_height in He. apply IH in H. lia.
    + now apply IH in H.
Qed.

(** Walking does not deepen the tree either. *)
Lemma eachNode_height visit prefix :
  forall l idx w,
    (forall here x x' f t, List.In x l -> visit here x = Some (x', f, t) ->
                           (height x' <= height x)%nat) ->
    eachNode visit prefix idx l = Some w ->
    (maxHeight (tree w) <= maxHeight l)%nat.
Proof.
  induction l as [|x l IH]; intros idx w Hv H; simpl in H.
  - injection H as <-. reflexivity.
  - destruct (visit (prefix ++ [idx])%list x) as [[[x' f1] t1]|] eqn:Hx;
      [| discriminate].
    destruct (eachNode visit prefix (S idx) l) as [w'|] eqn:Hl;
      [| discriminate].
    injection H as <-. cbn [tree]. rewrite !maxHeight_cons.
    pose proof (Hv _ _ _ _ _ (or_introl eq_refl) Hx).
    pose proof (IH _ _ (fun h y y' f t Hy => Hv h y y' f t (or_intror Hy)) Hl).
    lia.
Qed.

Lemma nestedWalks_height walk fulls :
  (forall full ks w, walk full ks = Some w ->
                     (maxHeight (tree w) <= maxHeight ks)%nat) ->
  forall kids f t kids' f' t',
    nestedWalks walk fulls kids f t = Some (kids', f', t') ->
    (maxHeight kids' <= maxHeight kids)%nat.
Proof.
  intros Hwalk. induction fulls as [|full rest IH];
    intros kids f t kids' f' t' H; simpl in H.
  - injection H as <- <- <-. reflexivity.
  - destruct (walk full kids) as [w|] eqn:Hw; [| discriminate].
    apply Hwalk in Hw. apply IH in H. lia.
Qed.

Lemma walkRulesDeep_height c :
  forall fuel parentSelector prefix nodes w,
    walkRulesDeep fuel c parentSelector prefix nodes = Some w ->
    (maxHeight (tree w) <= maxHeight nodes)%nat.
Proof.
  induction fuel as [|fuel IH]; intros parentSelector prefix nodes w H.
  - injection H as <-. reflexivity.
  - rewrite walkRulesDeep_S in H. eapply eachNode_height; [| exact H].
    intros here x x' f t _ Hx.
    destruct x as [q v i src | sel kids | name kids | txt];
      try (injection Hx as <- <- <-; reflexivity).
    unfold visitDeep in Hx.
    destruct (callbacks c here (fullSelectors parentSelector sel) kids
                        false None) as [[[kids1 f1] t1]|] eqn:Hc;
      [| discriminate].
    destruct (nestedWalks _ _ kids1 f1 t1) as [[[kids2 f2] t2]|] eqn:Hn;
      [| discriminate].
    injection Hx as <- <- <-. rewrite !height_Rule.
    apply callbacks_height in Hc.
    apply nestedWalks_height in Hn; [lia |].
    intros full ks w' Hw'. exact (IH _ _ _ _ Hw').
Qed.

Lemma nestedWalks_ext walk walk' fulls :
  forall kids f t,
    (forall full ks, (maxHeight ks <= maxHeight kids)%nat ->
                     walk full ks = walk' full ks) ->
    (forall full ks w, walk' full ks = Some w ->
                       (maxHeight (tree w) <= maxHeight ks)%nat) ->
    nestedWalks walk fulls kids f t = nestedWalks walk' fulls kids f t.
Proof.
  induction fulls as [|full rest IH]; intros kids f t Hext Hh; [reflexivity |].
  simpl. rewrite Hext by lia.
  destruct (walk' full kids) as [w|] eqn:Hw; [| reflexivity].
  apply IH; [| exact Hh].
  intros full' ks Hks. apply Hext. apply Hh in Hw. lia.
Qed.

Lemma walkRulesDeep_fuel c :
  forall fuel nodes parentSelector prefix,
    (maxHeight nodes <= fuel)%nat ->
    walkRulesDeep (S fuel) c parentSelector prefix nodes
    = walkRulesDeep fuel c parentSelector prefix nodes.
Proof.
  induction fuel as [|fuel IH]; intros nodes parentSelector prefix Hh.
  - rewrite walkRulesDeep_S. cbn [walkRulesDeep].
    apply eachNode_leaves; [| lia].
    intros here [q v i src | sel ns | name ns | t] Hx; try reflexivity.
    rewrite height_Rule in Hx. lia.
  - rewrite (walkRulesDeep_S (S fuel)), (walkRulesDeep_S fuel).
    apply eachNode_ext.
    intros here x Hin. apply height_le_max in Hin.
    destruct x as [q v i src | sel kids | name kids | t]; try reflexivity.
    rewrite height_Rule in Hin. unfold visitDeep.
    destruct (callbacks c here (fullSelectors parentSelector sel) kids
                        false None) as [[[kids1 f1] t1]|] eqn:Hc;
      [| reflexivity].
    apply callbacks_height in Hc.
    rewrite (nestedWalks_ext
               (fun full => walkRulesDeep (S fuel) c full here)
               (fun full => walkRulesDeep fuel c full here));
      [reflexivity | |].
    + intros full ks Hks. apply IH. lia.
    + intros full ks w Hw. exact (walkRulesDeep_height _ _ _ _ _ _ Hw).
Qed.

(** More fuel than [applyChange] gives changes nothing. *)
Lemma walkRules_enough c root prefix extra :
  walkRules (rootHeight root + extra) c prefix root
  = walkRules (rootHeight root) c prefix root.
Proof.
  induction extra as [|extra IH]; [now rewrite Nat.add_0_r |].
  rewrite Nat.add_succ_r, walkRules_fuel; [exact IH |].
  unfold rootHeight. lia.
Qed.

Lemma walkRulesDeep_enough c root parentSelector prefix extra :
  walkRulesDeep (rootHeight root + extra) c parentSelector prefix root
  = walkRulesDeep (rootHeight root) c parentSelector prefix root.
Proof.
  induction extra as [|extra IH]; [now rewrite Nat.add_0_r |].
  rewrite Nat.add_succ_r, walkRulesDeep_fuel; [exact IH |].
  unfold rootHeight. lia.
Qed.


Lemma applyAll_counts scss changes :
  forall root n root' n',
    applyAll scss root changes n = Some (root', n') ->
    (success n' + failed n' = success n + failed n + List.length changes)%nat.
Proof.
  induction changes as [|c rest IH]; simpl; intros root n root' n' H.
  - injection H as <- <-. lia.
  - destruct (applyChange scss root c) as [[root1 [|]]|]; [| | discriminate];
      apply IH in H; simpl in H; lia.
Qed.

End PatcherFacts.

(** C9.  For either patcher ([scss] selects it), [patchMultiple] always
    returns counts, and they add up to the number of changes.  A missing
    file, a file that cannot be read, a parse failure, an exception raised
    while a change is applied, and a failed write all give
    [{success: 0, failed: changes.length}].  The file system is touched only
    when at least one change was applied: when every change fails it is
    returned as it was. *)
Theorem patchMultiple_counts
        (lib : PostCSS.Lib) (io : Patcher.Faults) (scss atomicWrite : bool)
        (now : Z) (fs : FS.t) (filePath : string)
        (changes : list Differ.Change) :
  let parse := if scss then PostCSS.scss_parse lib else PostCSS.css_parse lib in
  let print :=
    if scss then PostCSS.scss_stringify lib else PostCSS.css_stringify lib in
  let allFailed :=
    {| Patcher.success := 0; Patcher.failed := List.length changes |} in
  let start := {| Patcher.success := 0; Patcher.failed := 0 |} in
  let result :=
    Patcher.patchMultiple lib io scss atomicWrite now fs filePath changes in
  (Patcher.success (fst result) + Patcher.failed (fst result)
   = List.length changes)%nat
  /\ (FS.existsSync fs filePath = false -> result = (allFailed, fs))
  /\ (FS.readFile fs filePath = None -> result = (allFailed, fs))
  /\ (forall content,
        FS.readFile fs filePath = Some content -> parse content = None ->
        result = (allFailed, fs))
  /\ (forall content root root' n fs',
        FS.readFile fs filePath = Some content -> parse content = Some root ->
        Patcher.applyAll scss root changes start = Some (root', n) ->
        (0 < Patcher.success n)%nat ->
        Patcher.writeFile io atomicWrite now fs filePath (print root')
        = (false, fs') ->
        result = (allFailed, fs'))
  /\ (forall content root root' n,
        FS.readFile fs filePath = Some content -> parse content = Some root ->
        Patcher.applyAll scss root changes start = Some (root', n) ->
        Patcher.success n = 0%nat ->
        result = (allFailed, fs))
  /\ (snd result <> fs ->
      exists content root root' n,
        FS.readFile fs filePath = Some content /\ parse content = Some root
        /\ Patcher.applyAll scss root changes start = Some (root', n)
        /\ (0 < Patcher.success n)%nat).
Proof.
  intros parse print allFailed start result.
  subst result. unfold Patcher.patchMultiple.
  fold allFailed. fold start.
  destruct (FS.existsSync fs filePath) eqn:Hex; simpl.
  2:{ assert (Hread : FS.readFile fs filePath = None).
      { unfold FS.existsSync in Hex. unfold FS.readFile.
        apply orb_false_iff in Hex as [Hfile _].
        apply bool_decide_eq_false in Hfile.
        destruct (FS.files fs !! filePath); [| reflexivity].
        exfalso. apply Hfile. eauto. }
      repeat split; simpl; intros;
        solve [lia | reflexivity | congruence]. }
  destruct (FS.readFile fs filePath) as [content|] eqn:Hread;
    [| repeat split; simpl; intros; solve [lia | reflexivity | congruence]].
  fold parse.
  destruct (parse content) as [root|] eqn:Hparse;
    [| repeat split; simpl; intros; solve [lia | reflexivity | congruence]].
  destruct (Patcher.applyAll scss root changes start) as [[root' n]|] eqn:Happly;
    [| repeat split; simpl; intros; solve [lia | reflexivity | congruence]].
  pose proof (applyAll_counts _ _ _ _ _ _ Happly) as Hsum. simpl in Hsum.
  fold print.
  assert (Hsame : forall c r r' m,
             Some content = Some c -> parse c = Some r ->
             Patcher.applyAll scss r changes start = Some (r', m) ->
             r' = root' /\ m = n).
  { intros c r r' m [= <-] Hr Ha. rewrite Hparse in Hr.
    injection Hr as <-. rewrite Happly in Ha. now injection Ha as <- <-. }
  destruct (Nat.ltb_spec 0 (Patcher.success n)) as [Hpos | Hzero].
  - destruct (Patcher.writeFile io atomicWrite now fs filePath (print root'))
      as [[|] fs1] eqn:Hwrite; simpl.
    + split; [exact Hsum |]. split; [discriminate |]. split; [discriminate |].
      split; [intros; congruence |].
      split.
      { intros c r r' m fs' Hc Hr Ha _ Hw.
        destruct (Hsame c r r' m Hc Hr Ha) as [-> ->]. congruence. }
      split.
      { intros c r r' m Hc Hr Ha Hz.
        destruct (Hsame c r r' m Hc Hr Ha) as [-> ->]. lia. }
      intros _. exists content, root, root', n. auto.
    + split; [lia |]. split; [discriminate |]. split; [discriminate |].
      split; [intros; congruence |].
      split.
      { intros c r r' m fs' Hc Hr Ha _ Hw.
        destruct (Hsame c r r' m Hc Hr Ha) as [-> ->]. congruence. }
      split.
      { intros c r r' m Hc Hr Ha Hz.
        destruct (Hsame c r r' m Hc Hr Ha) as [-> ->]. lia. }
      intros _. exists content, root, root', n. auto.
  - assert (Hn : n = allFailed).
    { destruct n as [sn fn]. simpl in *. subst allFailed. f_equal; lia. }
    simpl. split; [exact Hsum |]. split; [discriminate |].
    split; [discriminate |].
    split; [intros; congruence |].
    split.
    { intros c r r' m fs' Hc Hr Ha Hp.
      destruct (Hsame c r r' m Hc Hr Ha) as [-> ->]. lia. }
    split; [intros; now rewrite Hn |].
    intros H; now contradiction H.
Qed.

(** The nested addition of the specification's second scenario: the
    declaration is appended inside the nested [.title] block. *)
Example scss_nested_add :
  Patcher.applyChange
    true
    [PostCSS.Comment " cards ";
     PostCSS.Rule ".card"
       [Samples.colorDecl 9 "red" 19;
        PostCSS.Rule ".title" [Samples.colorDecl 18 "red" 28]]]
    {| Differ.type := Differ.add; Differ.selector := ".card .title";
       Differ.prop := "font-weight"; Differ.oldValue := None;
       Differ.newValue := Some "bold"; Differ.important := Some false;
       Differ.position := {| PostCSS.line := 1; PostCSS.column := 31 |} |}
  = Some ([PostCSS.Comment " cards ";
           PostCSS.Rule ".card"
             [Samples.colorDecl 9 "red" 19;
              PostCSS.Rule ".title"
                [Samples.colorDecl 18 "red" 28;
                 PostCSS.Decl "font-weight" "bold" false None]]],
          true).
Proof. vm_compute. reflexivity. Qed.

(** An ampersand selector is resolved against the parent by the SCSS
    patcher only; the plain patcher compares the selector as written.  The
    [!important] suffix goes into the flag. *)
Example scss_ampersand_change :
  let change :=
    {| Differ.type := Differ.change; Differ.selector := ".btn.primary";
       Differ.prop := "color"; Differ.oldValue := Some "red";
       Differ.newValue := Some "blue !important";
       Differ.important := Some true;
       Differ.position := {| PostCSS.line := 1; PostCSS.column := 0 |} |} in
  let root :=
    [PostCSS.Rule ".btn"
       [PostCSS.Rule "&.primary, & .icon" [Samples.colorDecl 27 "red" 37]]] in
  Patcher.applyChange true root change
  = Some ([PostCSS.Rule ".btn"
             [PostCSS.Rule "&.primary, & .icon"
                [PostCSS.Decl "color" "blue" true
                   (Some {| PostCSS.start :=
                              Some {| PostCSS.line := 1;
                                      PostCSS.column := 27 |};
                            PostCSS.finish :=
                              Some {| PostCSS.line := 1;
                                      PostCSS.column := 37 |} |})]]],
          true)
  /\ Patcher.applyChange false root change = Some (root, false).
Proof. vm_compute. split; reflexivity. Qed.

(** A change that is applied: the authored file is rewritten through the
    temporary file, which is gone afterwards. *)
Example patchMultiple_applies :
  let result :=
    Patcher.patchMultiple
      Samples.lib Samples.noFaults false true 1500 Samples.plainFS
      "/proj/src/styles.css"
      (Differ.findChangedDeclarations Samples.lib Samples.redText
                                      Samples.blueText) in
  fst result = {| Patcher.success := 1; Patcher.failed := 0 |}
  /\ map_to_list (FS.files (snd result))
     = [("/proj/src/styles.css", Samples.blueText)].
Proof. vm_compute. split; reflexivity. Qed.

(** A change whose selector is not in the file: counted as failed, nothing
    written. *)
Example patchMultiple_no_rule :
  Patcher.patchMultiple
    Samples.lib Samples.noFaults true true 1500 Samples.plainFS
    "/proj/src/styles.css"
    (Differ.findChangedDeclarations Samples.lib Samples.moduleText
                                    Samples.moduleBlueText)
  = ({| Patcher.success := 0; Patcher.failed := 1 |}, Samples.plainFS).
Proof. vm_compute. reflexivity. Qed.

(* --------------------------------------------------------------------- *)
(** ** URL resolver *)
(* --------------------------------------------------------------------- *)

Section URLResolverFacts.
Import URLResolver Notions.

Lemma firstExisting_Some fs candidates p :
  firstExisting fs candidates = Some p ->
  List.In p candidates /\ FS.existsSync fs p = true.
Proof.
  induction candidates as [|q rest IH]; simpl; [discriminate |].
  destruct (FS.existsSync fs q) eqn:Hq.
  - intros [= <-]. split; [now left | exact Hq].
  - intros H. destruct (IH H). split; [now right | assumption].
Qed.

Lemma firstExisting_None fs candidates :
  firstExisting fs candidates = None
  <-> forall p, List.In p candidates -> FS.existsSync fs p = false.
Proof.
  induction candidates as [|q rest IH]; simpl.
  - split; [intros _ p [] | reflexivity].
  - destruct (FS.existsSync fs q) eqn:Hq.
    + split; [discriminate |]. intros H. specialize (H q (or_introl eq_refl)).
      congruence.
    + rewrite IH. split.
      * intros H p [<- | Hp]; [exact Hq | now apply H].
      * intros H p Hp. apply H. now right.
Qed.

Lemma normalize_nonEmpty s : Path.nonEmpty (Path.normalize s) = true.
Proof.
  unfold Path.normalize. destruct s as [|c s]; [reflexivity |].
  destruct (Path.normalizeString (String c s) _) as [|d body].
  - destruct (Path.isAbsolute _); [reflexivity |].
    now destruct (JS.endsWith _ _).
  - destruct (Path.isAbsolute _); [reflexivity |].
    now destruct (JS.endsWith _ _).
Qed.

Lemma join_nonEmpty parts : Path.nonEmpty (Path.join parts) = true.
Proof.
  unfold Path.join.
  destruct (JS.join "/" (List.filter Path.nonEmpty parts)) as [|c s];
    [reflexivity | apply normalize_nonEmpty].
Qed.

Lemma sourceCandidates_nonEmpty r cssPath p :
  List.In p (Notions.sourceCandidates r cssPath) -> Path.nonEmpty p = true.
Proof.
  unfold Notions.sourceCandidates, URLResolver.globalPaths,
    URLResolver.modulePaths.
  destruct (String.eqb _ "layout.css");
    [| destruct (String.eqb _ "page.css")];
    cbn [List.In]; intros H;
    repeat (destruct H as [<- | H]; [apply join_nonEmpty |]);
    contradiction.
Qed.


End URLResolverFacts.

(** C4, as the code has it.  The resolver first looks for the bundled
    file [<root>/.next/static/css/<path>] and returns it whenever it is on
    disk, whether or not an authored source exists.  Only when it is
    missing are the candidates probed, in order: for [layout.css] the four
    files [globals.css], [global.css], [globals.scss], [global.scss] of the
    directory, then [app/globals.css], [app/global.scss],
    [styles/globals.css], [styles/global.scss]; for [page.css] the siblings
    [page.module.scss], [page.module.css], [styles.module.scss],
    [styles.module.css].  The first that exists is returned; when none
    exists the answer is none.  For a path name that matches the Next.js
    pattern the answer, when there is one, is what the built-in rules
    resolve to. *)
Theorem findNextJSSource_order
        (r : URLResolver.t) (fs : FS.t) (cssPath0 : string) :
  let cssPath := Regex.remove_first URLResolver.queryString cssPath0 in
  let build := URLResolver.nextBuildPath r cssPath in
  let candidates := Notions.sourceCandidates r cssPath in
  let result := URLResolver.findNextJSSource r fs cssPath0 in
  (FS.existsSync fs build = true -> result = Some build)
  /\ (FS.existsSync fs build = false ->
      result = URLResolver.firstExisting fs candidates)
  /\ (forall p, result = Some p ->
        FS.existsSync fs p = true
        /\ (p = build \/ List.In p candidates))
  /\ (result = None <->
      FS.existsSync fs build = false
      /\ forall p, List.In p candidates -> FS.existsSync fs p = false)
  /\ (forall pathname p,
        URLResolver.matchGroup1 URLResolver.nextPattern pathname
        = Some cssPath0 ->
        result = Some p ->
        URLResolver.applyDefaults r fs pathname URLResolver.defaultMappings
        = Some p).
Proof.
  intros cssPath build candidates result.
  assert (Hno : FS.existsSync fs build = false ->
                result = URLResolver.firstExisting fs candidates).
  { intros Hb. subst result candidates.
    unfold URLResolver.findNextJSSource, Notions.sourceCandidates.
    fold cssPath. fold build. rewrite Hb.
    destruct (String.eqb (List.last (JS.split "/" cssPath) "") "layout.css")
      eqn:Hl.
    - apply String.eqb_eq in Hl. rewrite Hl. simpl (String.eqb _ "page.css").
      now destruct (URLResolver.firstExisting fs _).
    - destruct (String.eqb (List.last (JS.split "/" cssPath) "") "page.css");
        reflexivity. }
  assert (Hyes : FS.existsSync fs build = true -> result = Some build).
  { intros Hb. subst result. unfold URLResolver.findNextJSSource.
    fold cssPath. fold build. now rewrite Hb. }
  assert (Hsome : forall p, result = Some p ->
                            FS.existsSync fs p = true
                            /\ (p = build \/ List.In p candidates)).
  { intros p Hp. destruct (FS.existsSync fs build) eqn:Hb.
    - rewrite (Hyes eq_refl) in Hp. injection Hp as <-. auto.
    - rewrite (Hno eq_refl) in Hp. apply firstExisting_Some in Hp as [? ?].
      auto. }
  split; [exact Hyes |]. split; [exact Hno |]. split; [exact Hsome |]. split.
  - destruct (FS.existsSync fs build) eqn:Hb.
    + rewrite (Hyes eq_refl). split; [discriminate | intros [? _]; discriminate].
    + rewrite (Hno eq_refl), firstExisting_None. tauto.
  - intros pathname p Hmatch Hp.
    destruct (Hsome p Hp) as [Hex Hwhere].
    assert (Hne : Path.nonEmpty p = true).
    { destruct Hwhere as [-> | Hin];
        [apply join_nonEmpty | eapply sourceCandidates_nonEmpty; exact Hin]. }
    unfold URLResolver.defaultMappings. cbn [URLResolver.applyDefaults].
    rewrite Hmatch. fold result. now rewrite Hp, Hne, Hex.
Qed.

(** The authored [app/globals.css] is on disk and is one of the candidates,
    yet the resolver answers with the file under [.next]; and in an empty
    project the answer is none, not the path under [.next]. *)
Example bundle_preferred :
  List.In "/proj/app/globals.css"
          (Notions.specifiedCandidates Samples.resolver "app/layout.css")
  /\ List.In "/proj/app/globals.css"
             (Notions.sourceCandidates Samples.resolver "app/layout.css")
  /\ FS.existsSync Samples.nextFS "/proj/app/globals.css" = true
  /\ URLResolver.findNextJSSource Samples.resolver Samples.nextFS
                                  "app/layout.css"
     = Some "/proj/.next/static/css/app/layout.css"
  /\ URLResolver.resolve Samples.resolver Samples.nextFS
                         (Some Samples.layoutUrl)
     = URLResolver.Returned (Some "/proj/.next/static/css/app/layout.css")
  /\ URLResolver.findNextJSSource Samples.resolver Samples.emptyFS
                                  "app/layout.css"
     = None.
Proof.
  split; [vm_compute; tauto |]. split; [vm_compute; tauto |].
  repeat split; vm_compute; reflexivity.
Qed.

(** C4, as the specification words it, fails in that project: the path
    under [.next] is returned although a candidate exists. *)
Lemma bundle_returned_despite_source :
  ~ Notions.bundleOnlyAsFallback Samples.resolver Samples.nextFS
                                 "app/layout.css".
Proof.
  intros H.
  destruct bundle_preferred as (Hin & _ & Hex & Hfound & _).
  specialize (H Hfound "/proj/app/globals.css" Hin).
  rewrite Hex in H. discriminate H.
Qed.

(* --------------------------------------------------------------------- *)
(** ** Regular expressions and the selector parser *)
(* --------------------------------------------------------------------- *)

Section RegexFacts.
Import Regex Notions.

Lemma or_try_Some {R} (a b : option R) x :
  or_try a b = Some x -> a = Some x \/ b = Some x.
Proof. destruct a; simpl; auto. Qed.

Lemma star_loop_sound {R} body (g : bool) (r : regex)
      (k : pos -> caps -> option R) :
  (forall p cs k' x, body p cs k' = Some x ->
                     exists p' cs', Matches r p cs p' cs' /\ k' p' cs' = Some x) ->
  forall fuel p cs x,
    star_loop body g k fuel p cs = Some x ->
    exists p' cs', Matches (Star g r) p cs p' cs' /\ k p' cs' = Some x.
Proof.
  intros Hbody. induction fuel as [|fuel IHf]; intros p cs x H; simpl in H.
  - exists p, cs. split; [constructor | exact H].
  - assert (Hmore : forall y,
               body p cs
                    (fun p1 cs1 =>
                       if Nat.ltb (fst p) (fst p1)
                       then star_loop body g k fuel p1 cs1 else None)
               = Some y ->
               exists p' cs', Matches (Star g r) p cs p' cs'
                              /\ k p' cs' = Some y).
    { intros y Hy. apply Hbody in Hy as (p1 & cs1 & Hm & Hy).
      destruct (Nat.ltb_spec (fst p) (fst p1)) as [Hlt |]; [| discriminate].
      apply IHf in Hy as (p2 & cs2 & Hm2 & Hy).
      exists p2, cs2. split; [econstructor; eassumption | exact Hy]. }
    destruct g; apply or_try_Some in H as [H | H].
    + now apply Hmore.
    + exists p, cs. split; [constructor | exact H].
    + exists p, cs. split; [constructor | exact H].
    + now apply Hmore.
Qed.

(** Every answer of the matcher is backed by a match ending where the
    continuation took over. *)
Lemma run_sound {R} (r : regex) :
  forall (p : pos) (cs : caps) (k : pos -> caps -> option R) (x : R),
    run r p cs k = Some x ->
    exists p' cs', Matches r p cs p' cs' /\ k p' cs' = Some x.
Proof.
  induction r as [| c | f | r1 IH1 r2 IH2 | r1 IH1 r2 IH2 | g r IH | i r IH
                 | | |];
    intros [i0 s] cs k x H.
  all: cbn [run] in H.
  all: try match type of H with context [star_loop] => idtac | _ => simpl in H end.
  - exists (i0, s), cs. split; [constructor | exact H].
  - destruct s as [|d s']; [discriminate |].
    destruct (Ascii.eqb_spec c d) as [<- | _]; [| discriminate].
    exists (S i0, s'), cs. split; [constructor | exact H].
  - destruct s as [|d s']; [discriminate |].
    destruct (f d) eqn:Hf; [| discriminate].
    exists (S i0, s'), cs. split; [now constructor | exact H].
  - apply IH1 in H as (p1 & cs1 & Hm1 & H).
    apply IH2 in H as (p2 & cs2 & Hm2 & H).
    exists p2, cs2. split; [econstructor; eassumption | exact H].
  - apply or_try_Some in H as [H | H].
    + apply IH1 in H as (p1 & cs1 & Hm & H).
      exists p1, cs1. split; [now apply M_AltL | exact H].
    + apply IH2 in H as (p1 & cs1 & Hm & H).
      exists p1, cs1. split; [now apply M_AltR | exact H].
  - apply (star_loop_sound (run r) g r k IH) in H. exact H.
  - apply IH in H as (p1 & cs1 & Hm & H).
    eexists _, _. split; [apply M_Grp; exact Hm | exact H].
  - simpl in H. destruct i0; [| discriminate].
    exists (0%nat, s), cs. split; [constructor | exact H].
  - destruct s; [| discriminate].
    exists (i0, ""), cs. split; [constructor | exact H].
  - destruct s as [|d s'].
    + exists (i0, ""), cs. split; [constructor | exact H].
    + destruct (JS.is_line_terminator d) eqn:Hd; [| discriminate].
      exists (i0, String d s'), cs. split; [now constructor | exact H].
Qed.

Lemma Matches_forward r p cs p' cs' :
  Matches r p cs p' cs' -> (fst p <= fst p')%nat.
Proof. induction 1; simpl in *; lia. Qed.

Lemma Matches_group1 r p cs p' cs' :
  Matches r p cs p' cs' -> letterLed r -> group1Led cs -> group1Led cs'.
Proof.
  induction 1 as [| | | r1 r2 p cs p1 cs1 p2 cs2 H1 IH1 H2 IH2
                  | r1 r2 p cs p1 cs1 H IH | r1 r2 p cs p1 cs1 H IH
                  | | g r p cs p1 cs1 p2 cs2 H1 IH1 Hlt H2 IH2
                  | i r p cs p1 cs1 H IH | | | |];
    simpl; intros Hled Hcs; auto.
  - destruct Hled. auto.
  - destruct Hled. auto.
  - destruct Hled. auto.
  - destruct Hled as [Hr Hone]. specialize (IH Hr Hcs).
    intros w. cbn [capture]. destruct (Nat.eqb_spec 1 i) as [<- | _]; [| exact (IH w)].
    intros [= <-]. destruct (Hone eq_refl) as (f & rest & -> & Hf).
    inversion H as [| | | ? ? ? ? pm csm ? ? Hhead Hrest | | | | | | | | |];
      subst.
    inversion Hhead as [| | ? d j s ? Hd | | | | | | | | | |]; subst.
    apply Matches_forward in Hrest. simpl in *.
    destruct (fst p1 - j)%nat as [|n] eqn:En; [lia |].
    exists d, (JS.take n s). split; [reflexivity | now apply Hf].
Qed.

Lemma search_sound r :
  forall s i i' e cs,
    search r i s = Some (i', e, cs) ->
    exists s' rest, Matches r (i', s') [] (e, rest) cs.
Proof.
  induction s as [|c s IH]; intros i i' e cs H; simpl in H.
  - destruct (run r (i, "") [] _) as [[e0 cs0]|] eqn:Hrun; [| discriminate].
    injection H as <- <- <-.
    apply run_sound in Hrun as ([e1 rest] & cs1 & Hm & [= <- <-]).
    eauto.
  - destruct (run r (i, String c s) [] _) as [[e0 cs0]|] eqn:Hrun.
    + injection H as <- <- <-.
      apply run_sound in Hrun as ([e1 rest] & cs1 & Hm & [= <- <-]).
      eauto.
    + eapply IH. exact H.
Qed.

Lemma ahead_refl p : ahead p p.
Proof. split; lia. Qed.

Lemma ahead_trans p q r : ahead p q -> ahead q r -> ahead p r.
Proof. unfold ahead. lia. Qed.

Lemma ahead_next i d s : ahead (i, String d s) (S i, s).
Proof. unfold ahead. simpl. lia. Qed.

Lemma star_loop_agree {R} (body : pos -> caps -> (pos -> caps -> option R) -> option R)
      (g : bool) (k k' : pos -> caps -> option R) (p : pos) :
  (forall q cs k1 k2,
      ahead p q ->
      (forall q' cs', ahead q q' -> k1 q' cs' = k2 q' cs') ->
      body q cs k1 = body q cs k2) ->
  (forall q cs, ahead p q -> k q cs = k' q cs) ->
  forall fuel q cs,
    ahead p q ->
    star_loop body g k fuel q cs = star_loop body g k' fuel q cs.
Proof.
  intros Hbody Hk. induction fuel as [|fuel IH]; intros q cs Hq; simpl.
  - now apply Hk.
  - rewrite (Hk q cs Hq).
    rewrite (Hbody q cs
                   (fun p1 cs1 => if Nat.ltb (fst q) (fst p1)
                                  then star_loop body g k fuel p1 cs1
                                  else None)
                   (fun p1 cs1 => if Nat.ltb (fst q) (fst p1)
                                  then star_loop body g k' fuel p1 cs1
                                  else None) Hq); [reflexivity |].
    intros q' cs' Hq'. destruct (Nat.ltb (fst q) (fst q')); [| reflexivity].
    apply IH. eapply ahead_trans; eassumption.
Qed.

(** The matcher hands its continuation positions further on in the same
    text only. *)
Lemma run_agree {R} (r : regex) :
  forall (p : pos) (cs : caps) (k k' : pos -> caps -> option R),
    (forall p' cs', ahead p p' -> k p' cs' = k' p' cs') ->
    run r p cs k = run r p cs k'.
Proof.
  induction r as [| c | f | r1 IH1 r2 IH2 | r1 IH1 r2 IH2 | g r IH | i r IH
                 | | |];
    intros [i0 s] cs k k' Hk; cbn [run fst snd].
  - apply Hk, ahead_refl.
  - destruct s as [|d s']; [reflexivity |].
    destruct (Ascii.eqb c d); [| reflexivity]. apply Hk, ahead_next.
  - destruct s as [|d s']; [reflexivity |].
    destruct (f d); [| reflexivity]. apply Hk, ahead_next.
  - apply IH1. intros p1 cs1 H1. apply IH2. intros p2 cs2 H2.
    apply Hk. eapply ahead_trans; eassumption.
  - now rewrite (IH1 _ _ k k' Hk), (IH2 _ _ k k' Hk).
  - apply (star_loop_agree (run r) g k k' (i0, s)).
    + intros q cs0 k1 k2 _ H12. now apply IH.
    + exact Hk.
    + apply ahead_refl.
  - apply IH. intros p1 cs1 H1. now apply Hk.
  - destruct (Nat.eqb i0 0); [| reflexivity]. apply Hk, ahead_refl.
  - destruct s; [| reflexivity]. apply Hk, ahead_refl.
  - destruct s as [|d s'].
    + apply Hk, ahead_refl.
    + destruct (JS.is_line_terminator d); [| reflexivity].
      apply Hk, ahead_refl.
Qed.

(** With more fuel than characters left, one more unit of fuel changes
    nothing: the fuel that [run] starts a star with is never used up. *)
Lemma star_loop_fuel {R} (r : regex) (g : bool)
      (k : pos -> caps -> option R) :
  forall fuel p cs,
    (String.length (snd p) < fuel)%nat ->
    star_loop (run r) g k (S fuel) p cs = star_loop (run r) g k fuel p cs.
Proof.
  induction fuel as [|fuel IH]; intros p cs Hlen; [lia |].
  change (star_loop (run r) g k (S (S fuel)) p cs)
    with (let more :=
            run r p cs
                (fun p1 cs1 =>
                   if Nat.ltb (fst p) (fst p1)
                   then star_loop (run r) g k (S fuel) p1 cs1 else None) in
          if g then or_try more (k p cs) else or_try (k p cs) more).
  change (star_loop (run r) g k (S fuel) p cs)
    with (let more :=
            run r p cs
                (fun p1 cs1 =>
                   if Nat.ltb (fst p) (fst p1)
                   then star_loop (run r) g k fuel p1 cs1 else None) in
          if g then or_try more (k p cs) else or_try (k p cs) more).
  cbv zeta.
  rewrite (run_agree r p cs
             (fun p1 cs1 =>
                if Nat.ltb (fst p) (fst p1)
                then star_loop (run r) g k (S fuel) p1 cs1 else None)
             (fun p1 cs1 =>
                if Nat.ltb (fst p) (fst p1)
                then star_loop (run r) g k fuel p1 cs1 else None));
    [reflexivity |].
  intros p1 cs1 [Hle Hsame].
  destruct (Nat.ltb_spec (fst p) (fst p1)); [| reflexivity].
  apply IH. lia.
Qed.


End RegexFacts.

Section SelectorFacts.
Import Regex Notions SelectorResolver.

Lemma patterns_letterLed : List.Forall letterLed patterns.
Proof.
  repeat constructor; simpl; repeat split; try discriminate;
    intros _; eexists _, _; (split; [reflexivity | auto]).
Qed.

Lemma tryPattern_component p mainSelector nested parsed :
  letterLed p ->
  tryPattern p mainSelector nested = Some parsed ->
  startsWithLetter (component parsed).
Proof.
  intros Hled. unfold tryPattern, exec.
  destruct (search p 0 mainSelector) as [[[i e] cs]|] eqn:Hs; [| discriminate].
  destruct (capture 1 cs) as [comp|] eqn:Hc; [| discriminate].
  destruct (capture 2 cs) as [cls|]; [| discriminate].
  intros [= <-]. simpl.
  apply search_sound in Hs as (s' & rest & Hm).
  apply (Matches_group1 _ _ _ _ _ Hm Hled); [| exact Hc].
  intros w. discriminate.
Qed.

Lemma firstPattern_component ps mainSelector nested parsed :
  List.Forall letterLed ps ->
  firstPattern ps mainSelector nested = Some parsed ->
  startsWithLetter (component parsed).
Proof.
  induction 1 as [|p ps Hp _ IH]; simpl; [discriminate |].
  destruct (tryPattern p mainSelector nested) as [r|] eqn:Ht.
  - intros [= <-]. eapply tryPattern_component; eassumption.
  - exact IH.
Qed.

End SelectorFacts.

(** C8, as the code has it.  A selector is recognised only when the
    component segment starts with an ASCII letter, of either case: the
    component of every result of [parseCSSModuleSelector] starts with such
    a letter.  Where the parser gives none and the selector was not
    resolved before, [resolve] gives none. *)
Theorem component_starts_with_letter (selector : string) :
  (forall parsed,
      SelectorResolver.parseCSSModuleSelector selector = Some parsed ->
      Notions.startsWithLetter (SelectorResolver.component parsed))
  /\ (SelectorResolver.parseCSSModuleSelector selector = None ->
      forall fs projectRoot c,
        SelectorResolver.cache c !! selector = None ->
        SelectorResolver.resolve fs projectRoot selector c = (None, c)).
Proof.
  split.
  - intros parsed H. unfold SelectorResolver.parseCSSModuleSelector in H.
    eapply firstPattern_component; [apply patterns_letterLed | exact H].
  - intros H fs projectRoot c Hc. unfold SelectorResolver.resolve.
    now rewrite Hc, H.
Qed.

(** A component that starts with a lowercase letter is recognised, and
    the module file is found for it. *)
Example lowercase_component :
  SelectorResolver.parseCSSModuleSelector ".menu_item__abc123"
  = Some {| SelectorResolver.component := "menu";
            SelectorResolver.className := "item";
            SelectorResolver.originalSelector := ".item";
            SelectorResolver.hasNested := false;
            SelectorResolver.nestedParts := [] |}
  /\ JS.is_upper "m" = false
  /\ fst (SelectorResolver.resolve Samples.moduleFS "/proj"
                                   ".menu_item__abc123" Samples.noCaches)
     = Some ("/proj/app/menu.module.css", ".item").
Proof. repeat split; vm_compute; reflexivity. Qed.

(** C8, as the specification words it, fails on that selector. *)
Lemma lowercase_component_recognised :
  ~ Notions.capitalRequired ".menu_item__abc123".
Proof.
  intros H. destruct lowercase_component as (Hparse & Hm & _).
  destruct (H _ Hparse) as (c & rest & Heq & Hup).
  simpl in Heq. injection Heq as <- _. rewrite Hm in Hup. discriminate Hup.
Qed.

(** The examples of the specification's pattern table. *)
Example parse_pattern_table :
  List.map
    (fun s => option_map
                (fun r => (SelectorResolver.component r,
                           SelectorResolver.className r))
                (SelectorResolver.parseCSSModuleSelector s))
    [".Menu-module_item__abc";
     ".components_playground_Menu-module_item__abc";
     ".src-components-Menu-module__item--abc";
     ".components_Menu_item__abc";
     ".Menu_item__abc";
     ".9Menu_item__abc";
     ".Menu_item__abc .other"]
  = [Some ("Menu", "item"); Some ("Menu", "item"); Some ("Menu", "item");
     Some ("Menu", "item"); Some ("Menu", "item"); None;
     Some ("Menu", "item")].
Proof. vm_compute. reflexivity. Qed.

(* --------------------------------------------------------------------- *)
(** ** The change handler *)
(* --------------------------------------------------------------------- *)

Section SearchFacts.
Import SelectorResolver Notions.

Lemma searchFiles_Entered fs root filePatterns :
  forall fuel dir p,
    Entered fs root dir ->
    List.In p (searchFiles fuel fs dir filePatterns) ->
    exists d entry,
      Entered fs root d /\ p = Path.join [d; entry]
      /\ includes filePatterns entry = true
      /\ FS.statSync fs p = Some FS.File.
Proof.
  induction fuel as [|fuel IH]; intros dir p Hdir Hin;
    cbn [searchFiles] in Hin; [contradiction |].
  destruct (FS.readdirSync fs dir) as [entries|] eqn:Hread;
    [| simpl in Hin; contradiction].
  apply List.in_flat_map in Hin as (entry & Hentry & Hin).
  destruct (FS.statSync fs (Path.join [dir; entry])) as [[|]|] eqn:Hstat;
    [| | simpl in Hin; contradiction].
  - destruct (includes excludeDirs entry) eqn:Hex;
      [simpl in Hin; contradiction |].
    apply (IH (Path.join [dir; entry]) p); [| exact Hin].
    eapply Entered_sub; eassumption.
  - destruct (includes filePatterns entry) eqn:Hpat;
      [| simpl in Hin; contradiction].
    destruct Hin as [<- | []]. exists dir, entry. auto.
Qed.

End SearchFacts.

Section AgentFacts.
Import Agent Notions.

Variable env : Env.

Lemma localPathOf_same (id : string) (w w' : World) :
  registry w' = registry w -> files w' = files w ->
  localPathOf env id w' = localPathOf env id w.
Proof. intros Hr Hf. unfold localPathOf. now rewrite Hr, Hf. Qed.

Lemma patchTask_calls useScss id newText path changes w :
  exists result,
    calls (patchTask env useScss id newText path changes w)
    = (calls w ++ [PatchCalled useScss path changes result])%list.
Proof.
  unfold patchTask.
  destruct (Patcher.patchMultiple _ _ _ _ _ _ _ _) as [result fs'].
  exists result. now destruct (Nat.ltb 0 (Patcher.success result)).
Qed.

Lemma patchEach_calls id newText m :
  forall w e,
    List.In e (calls (patchEach env id newText m w)) ->
    List.In e (calls w)
    \/ exists path, List.In path (List.map fst m) /\ patches e path.
Proof.
  induction m as [|[filePath fileChanges] m IH]; intros w e Hin; simpl in Hin;
    [now left |].
  apply IH in Hin as [Hin | (path & Hpath & He)].
  - destruct (patchTask_calls (Regex.test scssExtension filePath) id newText
                              filePath fileChanges w) as [result Hc].
    rewrite Hc in Hin. apply List.in_app_or in Hin as [Hin | [<- | []]].
    + now left.
    + right. exists filePath. split; [now left |]. red. eauto.
  - right. exists path. split; [now right | exact He].
Qed.

Lemma handleCSSModuleChanges_calls id diff newText w :
  let out := handleCSSModuleChanges env id diff newText w in
  (fst out = false ->
   moduleTargets env w diff = [] /\ calls (snd out) = calls w
   /\ files (snd out) = files w /\ registry (snd out) = registry w
   /\ now (snd out) = now w)
  /\ (forall e, List.In e (calls (snd out)) ->
        List.In e (calls w)
        \/ exists path, List.In path (moduleTargets env w diff)
                        /\ patches e path).
Proof.
  unfold handleCSSModuleChanges, moduleTargets.
  destruct (groupByFile env (files w) diff [] (caches w)) as [m c'] eqn:Hg.
  destruct m as [|entry m]; cbn [fst snd].
  - split; [auto |]. intros e He. now left.
  - split; [discriminate |]. intros e He.
    unfold updateText, withRegistry in He. cbn [calls] in He.
    apply patchEach_calls in He as [He | He]; [now left | now right].
Qed.

Lemma patchResolved_calls id newText localPath diff w e :
  List.In e (calls (patchResolved env id newText localPath diff w)) ->
  List.In e (calls w)
  \/ patches e localPath
  \/ exists sel source,
       findOriginalSource env (files w) localPath sel newText
       = Some (Some source)
       /\ patches e source.
Proof.
  unfold patchResolved.
  set (target := if Regex.test scssExtension localPath then _ else _).
  destruct target as [[path useScss]|] eqn:Ht; [| now left].
  unfold updateText, withRegistry. simpl.
  destruct (patchTask_calls useScss id newText path diff w) as [result ->].
  intros Hin. apply List.in_app_or in Hin as [Hin | [<- | []]]; [now left |].
  right. subst target.
  destruct (Regex.test scssExtension localPath).
  { injection Ht as <- <-. left. red. eauto. }
  destruct diff as [|firstChange rest].
  { injection Ht as <- <-. left. red. eauto. }
  destruct (findOriginalSource env (files w) localPath
                               (Differ.selector firstChange) newText)
    as [[source|]|] eqn:Hsrc; [| | discriminate].
  - destruct (Regex.test preprocessorExtension source).
    + injection Ht as <- <-. right.
      exists (Differ.selector firstChange), source. split; [exact Hsrc |].
      red. eauto.
    + injection Ht as <- <-. left. red. eauto.
  - injection Ht as <- <-. left. red. eauto.
Qed.

End AgentFacts.

Lemma patches_path scss path changes result p :
  Notions.patches (Agent.PatchCalled scss path changes result) p -> p = path.
Proof. intros (? & ? & ? & [= _ -> _ _]). reflexivity. Qed.

(** C1, as the code has it.  Every path the change handler hands to a
    patcher is either a module file that the selector resolver returned for
    one of the changes, or the stylesheet's resolved target (the Vite id,
    else the original source, else the answer of the URL resolver) or the
    source that the source map names for it.  A target that contains
    [/.next/] is handed to a patcher only when the selector resolver
    resolved none of the changes.  Nothing keeps targets under [.next] or
    [node_modules] away from the patchers. *)
Theorem patch_targets
        (env : Agent.Env) (id : string) (freshText : option string)
        (w : Agent.World) (e : Agent.Event) (path : string) :
  Notions.patches e path ->
  List.In e (Agent.calls (Agent.handleStyleSheetChange env id freshText w)) ->
  List.In e (Agent.calls w)
  \/ exists oldText newText,
       Agent.obtained env id freshText = Some newText
       /\ Registry.getPreviousText id (Agent.registry w) = Some oldText
       /\ let diff :=
            Differ.findChangedDeclarations (Agent.lib env) oldText newText in
          List.In path (Notions.moduleTargets env w diff)
          \/ exists found localPath,
               Agent.localPathOf env id w = URLResolver.Returned found
               /\ JS.or_else found None = Some localPath
               /\ (JS.includes "/.next/" localPath = true ->
                   Notions.moduleTargets env w diff = [])
               /\ (path = localPath
                   \/ exists sel,
                        Agent.findOriginalSource env (Agent.files w) localPath
                                                 sel newText
                        = Some (Some path)).
Proof.
  intros (scss & changes & result & ->).
  unfold Agent.handleStyleSheetChange.
  destruct (Agent.obtained env id freshText) as [newText|] eqn:Hnew;
    [| now left].
  destruct (LoopGuard.shouldIgnoreStyleSheet (Agent.now w) id newText
                                             (Agent.loopGuard w))
    as [ignore g'].
  destruct ignore; [now left |].
  destruct (Registry.getPreviousText id (Agent.registry w)) as [oldText|]
    eqn:Hold; [| now left].
  destruct (String.eqb oldText newText); [now left |].
  remember (Differ.findChangedDeclarations (Agent.lib env) oldText newText)
    as diff eqn:Ediff.
  set (w1 := Agent.record (Agent.DifferCalled oldText newText)
                          (Agent.withGuard g' w)).
  assert (Hcalls1 : List.In (Agent.PatchCalled scss path changes result)
                            (Agent.calls w1) ->
                    List.In (Agent.PatchCalled scss path changes result)
                            (Agent.calls w)).
  { intros He. subst w1. simpl in He.
    apply List.in_app_or in He as [? | [? | []]];
      [assumption | discriminate]. }
  assert (Hmod : forall p,
             Notions.patches (Agent.PatchCalled scss path changes result) p ->
             List.In p (Notions.moduleTargets env w1 diff) ->
             List.In path (Notions.moduleTargets env w diff)).
  { intros p Hp Hin. now rewrite <- (patches_path _ _ _ _ _ Hp). }
  destruct diff as [|firstChange rest]; [intros Hin; left; now apply Hcalls1 |].
  rewrite (localPathOf_same env id w w1) by reflexivity.
  destruct (Agent.localPathOf env id w) as [found|] eqn:Hlp;
    [| intros Hin; left; now apply Hcalls1].
  pose proof (handleCSSModuleChanges_calls env id (firstChange :: rest)
                                           newText w1) as [Hfalse Htrue].
  match goal with
  | |- _ -> ?G =>
      assert (Hmodule :
                List.In path
                        (Notions.moduleTargets env w (firstChange :: rest)) ->
                G);
      [| assert (Hresolved : forall w2 localPath,
                    JS.or_else found None = Some localPath ->
                    (JS.includes "/.next/" localPath = true ->
                     Notions.moduleTargets env w (firstChange :: rest) = []) ->
                    Agent.calls w2 = Agent.calls w1 ->
                    Agent.files w2 = Agent.files w ->
                    List.In (Agent.PatchCalled scss path changes result)
                            (Agent.calls
                               (Agent.patchResolved
                                  env id newText localPath
                                  (firstChange :: rest) w2)) ->
                    G)]
  end.
  { intros Hin. right. exists oldText, newText. split; [reflexivity |].
    split; [reflexivity |]. cbn zeta. rewrite <- Ediff. now left. }
  { intros w2 localPath Hor Hnext Hc Hf Hin.
    apply patchResolved_calls in Hin
      as [Hin | [Hp | (sel & source & Hsrc & Hp)]].
    - left. apply Hcalls1. now rewrite <- Hc.
    - right. exists oldText, newText. split; [reflexivity |].
      split; [reflexivity |]. cbn zeta. rewrite <- Ediff.
      right. exists found, localPath.
      split; [reflexivity |]. split; [exact Hor |]. split; [exact Hnext |].
      left. symmetry. exact (patches_path _ _ _ _ _ Hp).
    - right. exists oldText, newText. split; [reflexivity |].
      split; [reflexivity |]. cbn zeta. rewrite <- Ediff.
      right. exists found, localPath.
      split; [reflexivity |]. split; [exact Hor |]. split; [exact Hnext |].
      right. exists sel. rewrite <- (patches_path _ _ _ _ _ Hp).
      now rewrite <- Hf. }
  destruct (JS.or_else found None) as [localPath|] eqn:Hor.
  - destruct (JS.includes "/.next/" localPath) eqn:Hnext.
    + destruct (Agent.handleCSSModuleChanges env id (firstChange :: rest)
                                             newText w1)
        as [[|] w2]; cbn [fst snd] in *.
      * intros Hin. apply Htrue in Hin as [Hin | (p & Hp & He)];
          [left; now apply Hcalls1 |].
        apply Hmodule. now apply (Hmod p).
      * destruct (Hfalse eq_refl) as (Hnone & Hc & Hf & _).
        apply (Hresolved w2 localPath eq_refl);
          [intros _; exact Hnone | exact Hc | exact Hf].
    + apply (Hresolved w1 localPath eq_refl);
        [congruence | reflexivity | reflexivity].
  - destruct (Agent.handleCSSModuleChanges env id (firstChange :: rest)
                                           newText w1)
      as [[|] w2]; cbn [fst snd] in *.
    + intros Hin. apply Htrue in Hin as [Hin | (p & Hp & He)];
        [left; now apply Hcalls1 |].
      apply Hmodule. now apply (Hmod p).
    + destruct (Hfalse eq_refl) as (_ & Hc & _).
      intros Hin. left. apply Hcalls1. now rewrite <- Hc.
Qed.

Lemma patch_targets_witness :
  let w := Samples.world (Samples.sheet Samples.layoutUrl
                                        (Some Samples.redText) None)
                         (LoopGuard.create None) Samples.nextFS in
  let path := "/proj/.next/static/css/app/layout.css" in
  let diff := Differ.findChangedDeclarations Samples.lib Samples.redText
                                             Samples.blueText in
  let e := Agent.PatchCalled false path diff
                             {| Patcher.success := 1; Patcher.failed := 0 |} in
  List.In e (Agent.calls w)
  \/ exists oldText newText,
       Agent.obtained Samples.env "1" (Some Samples.blueText) = Some newText
       /\ Registry.getPreviousText "1" (Agent.registry w) = Some oldText
       /\ let diff' :=
            Differ.findChangedDeclarations (Agent.lib Samples.env)
                                           oldText newText in
          List.In path (Notions.moduleTargets Samples.env w diff')
          \/ exists found localPath,
               Agent.localPathOf Samples.env "1" w
               = URLResolver.Returned found
               /\ JS.or_else found None = Some localPath
               /\ (JS.includes "/.next/" localPath = true ->
                   Notions.moduleTargets Samples.env w diff' = [])
               /\ (path = localPath
                   \/ exists sel,
                        Agent.findOriginalSource Samples.env (Agent.files w)
                                                 localPath sel newText
                        = Some (Some path)).
Proof.
  intros w path diff e.
  apply (patch_targets Samples.env "1" (Some Samples.blueText) w e path).
  - exists false, diff, {| Patcher.success := 1; Patcher.failed := 0 |}.
    reflexivity.
  - vm_compute. right. left. reflexivity.
Defined.

(** A sheet served from [/_next/static/css/app/layout.css] whose selector
    is no CSS module: the bundled file under [.next] is patched and
    rewritten.  A sheet that the bundler announces under a path in
    [node_modules]: that file is patched and rewritten. *)
Example build_files_patched :
  let afterBundle :=
    Agent.handleStyleSheetChange
      Samples.env "1" (Some Samples.blueText)
      (Samples.world (Samples.sheet Samples.layoutUrl (Some Samples.redText)
                                    None)
                     (LoopGuard.create None) Samples.nextFS) in
  let afterVendor :=
    Agent.handleStyleSheetChange
      Samples.env "1" (Some Samples.blueText)
      (Samples.world (Samples.sheet "" (Some Samples.redText)
                                    (Some Samples.vendorPath))
                     (LoopGuard.create None) Samples.vendorFS) in
  let diff :=
    Differ.findChangedDeclarations Samples.lib Samples.redText
                                   Samples.blueText in
  let applied := {| Patcher.success := 1; Patcher.failed := 0 |} in
  (List.In (Agent.PatchCalled false "/proj/.next/static/css/app/layout.css"
                              diff applied)
           (Agent.calls afterBundle)
   /\ JS.startsWith "/proj/.next/" "/proj/.next/static/css/app/layout.css"
      = true
   /\ FS.readFile (Agent.files afterBundle)
                  "/proj/.next/static/css/app/layout.css"
      = Some Samples.blueText)
  /\ (List.In (Agent.PatchCalled false Samples.vendorPath diff applied)
              (Agent.calls afterVendor)
      /\ JS.startsWith "/proj/node_modules/" Samples.vendorPath = true
      /\ FS.readFile (Agent.files afterVendor) Samples.vendorPath
         = Some Samples.blueText).
Proof.
  vm_compute. repeat split; auto.
Qed.

(** C1, as the specification words it, fails for the first of these
    sheets: a patcher is called on a path under [.next]. *)
Lemma bundle_and_dependency_patched :
  ~ Notions.writesOutsideBuildDirs
      Samples.env "1" (Some Samples.blueText)
      (Samples.world (Samples.sheet Samples.layoutUrl (Some Samples.redText)
                                    None)
                     (LoopGuard.create None) Samples.nextFS).
Proof.
  intros H. destruct build_files_patched as [(Hin & _) _].
  specialize (H _ "/proj/.next/static/css/app/layout.css"
                ltac:(red; eauto) Hin ltac:(simpl; tauto)).
  destruct H as [Hnext _]. vm_compute in Hnext. discriminate Hnext.
Qed.

(** The specification's third scenario: the change to a compiled module
    selector goes to the module file, under the original selector, and the
    bundle under [.next] is left as it was. *)
Example css_module_patched :
  let after :=
    Agent.handleStyleSheetChange
      Samples.env "1" (Some Samples.moduleBlueText)
      (Samples.world (Samples.sheet Samples.layoutUrl
                                    (Some Samples.moduleText) None)
                     (LoopGuard.create None) Samples.moduleFS) in
  List.map (fun e => match e with
                     | Agent.PatchCalled _ path _ _ => Some path
                     | Agent.DifferCalled _ _ => None
                     end)
           (Agent.calls after)
  = [None; Some "/proj/app/menu.module.css"]
  /\ FS.readFile (Agent.files after) "/proj/app/menu.module.css"
     = Some ".item { color: blue; }"
  /\ FS.readFile (Agent.files after) "/proj/.next/static/css/app/layout.css"
     = Some Samples.moduleText.
Proof. vm_compute. repeat split; reflexivity. Qed.

(** The specification's fifth scenario: after a patch the guard holds the
    hash of the text, and the same text arriving again is dropped. *)
Example echo_dropped :
  let after :=
    Agent.handleStyleSheetChange
      Samples.env "1" (Some Samples.blueText)
      (Samples.world (Samples.sheet Samples.stylesUrl
                                    (Some Samples.redText) None)
                     (LoopGuard.create None) Samples.plainFS) in
  fst (LoopGuard.shouldIgnoreStyleSheet (Agent.now after) "1"
                                        Samples.blueText
                                        (Agent.loopGuard after)) = true
  /\ Agent.handleStyleSheetChange Samples.env "1" (Some Samples.blueText)
                                  after
     = after.
Proof. vm_compute. split; reflexivity. Qed.

(** C2.  The claim fails on the code in a round of the polling loop.  The
    authored file and the registry hold [redText]; the new session
    delivers [cutText], which postcss rejects and which the loop pairs
    with the stored text by its length.  [parseDeclarations] swallows the
    parse error, the differ reports the declaration as deleted, and the
    handler has the patcher remove it from the authored file and stores
    the rejected text: a patch is attempted and the stored text is not
    left as it was. *)
Theorem unparsable_snapshot_deletes_declaration :
  let w :=
    Samples.world (Samples.sheet Samples.stylesUrl (Some Samples.redText) None)
                  (LoopGuard.create None) Samples.plainFS in
  let after :=
    Agent.pollEntry Samples.env [CDPClient.fresh "7" Samples.cutText] "1" w in
  PostCSS.css_parse Samples.lib Samples.cutText = None
  /\ after
     = Agent.handleStyleSheetChange Samples.env "1" (Some Samples.cutText) w
  /\ ~ Notions.parseFailureAborts Samples.env "1" (Some Samples.cutText) w
  /\ Agent.calls after
     = [Agent.DifferCalled Samples.redText Samples.cutText;
        Agent.PatchCalled
          false "/proj/src/styles.css"
          [{| Differ.type := Differ.delete; Differ.selector := ".btn";
              Differ.prop := "color"; Differ.oldValue := Some "red";
              Differ.newValue := None; Differ.important := None;
              Differ.position := {| PostCSS.line := 1;
                                    PostCSS.column := 7 |} |}]
          {| Patcher.success := 1; Patcher.failed := 0 |}]
  /\ FS.readFile (Agent.files w) "/proj/src/styles.css"
     = Some Samples.redText
  /\ FS.readFile (Agent.files after) "/proj/src/styles.css"
     = Some ".btn { }"
  /\ Registry.getPreviousText "1" (Agent.registry w) = Some Samples.redText
  /\ Registry.getPreviousText "1" (Agent.registry after)
     = Some Samples.cutText.
Proof.
  intros w after.
  assert (Hparse : PostCSS.css_parse Samples.lib Samples.cutText = None)
    by reflexivity.
  assert (Hhandler :
            after = Agent.handleStyleSheetChange
                      Samples.env "1" (Some Samples.cutText) w)
    by (vm_compute; reflexivity).
  assert (Hold : Registry.getPreviousText "1" (Agent.registry w)
                 = Some Samples.redText) by reflexivity.
  assert (Hnew : Registry.getPreviousText "1" (Agent.registry after)
                 = Some Samples.cutText) by (vm_compute; reflexivity).
  split; [exact Hparse |]. split; [exact Hhandler |]. split.
  - intros H.
    destruct (H Samples.redText Samples.cutText eq_refl Hold
                (or_intror Hparse)) as [_ Hkept].
    rewrite <- Hhandler, Hnew in Hkept. discriminate Hkept.
  - split; [vm_compute; reflexivity |]. split; [reflexivity |].
    split; [vm_compute; reflexivity |]. split; [exact Hold | exact Hnew].
Qed.

(* ===================================================================== *)
(** * Properties of the code around the pipeline *)
(* ===================================================================== *)

(* --------------------------------------------------------------------- *)
(** ** Text diff *)
(* --------------------------------------------------------------------- *)

Section TextDiffFacts.
Import TextDiff Notions.

Lemma append_cons (x : ascii) (a b : string) :
  String x a ++ b = String x (a ++ b).
Proof. reflexivity. Qed.

Lemma append_assoc (a b c : string) : (a ++ b) ++ c = a ++ b ++ c.
Proof.
  induction a as [|x a IH]; [reflexivity |].
  now rewrite !append_cons, IH.
Qed.

Lemma length_append (a b : string) :
  String.length (a ++ b) = (String.length a + String.length b)%nat.
Proof.
  induction a as [|x a IH]; [reflexivity |].
  rewrite append_cons. simpl. now rewrite IH.
Qed.

Lemma take_append_more (a b : string) (n : nat) :
  JS.take (String.length a + n) (a ++ b) = a ++ JS.take n b.
Proof.
  induction a as [|x a IH]; [reflexivity |].
  rewrite !append_cons. simpl. now rewrite IH.
Qed.

Lemma drop_append_more (a b : string) (n : nat) :
  JS.drop (String.length a + n) (a ++ b) = JS.drop n b.
Proof.
  induction a as [|x a IH]; [reflexivity |].
  rewrite append_cons. simpl. exact IH.
Qed.

Lemma take_zero (s : string) : JS.take 0 s = "".
Proof. now destruct s. Qed.

Lemma take_append (a b : string) : JS.take (String.length a) (a ++ b) = a.
Proof.
  rewrite <- (Nat.add_0_r (String.length a)), take_append_more, take_zero.
  apply append_empty.
Qed.

Lemma drop_append (a b : string) : JS.drop (String.length a) (a ++ b) = b.
Proof.
  now rewrite <- (Nat.add_0_r (String.length a)), drop_append_more.
Qed.

(** Induction over the pieces the way the loop consumes them: one piece,
    or a deletion together with the insertion that follows it. *)
Lemma pieces_induction (P : list (Op * string) -> Prop) :
  P [] ->
  (forall text rest, P rest -> P ((EQUAL, text) :: rest)) ->
  (forall text rest, P rest -> P ((INSERT, text) :: rest)) ->
  (forall text ins rest,
      P rest -> P ((DELETE, text) :: (INSERT, ins) :: rest)) ->
  (forall text rest,
      (forall ins rest', rest <> (INSERT, ins) :: rest') ->
      P rest -> P ((DELETE, text) :: rest)) ->
  forall diffs, P diffs.
Proof.
  intros Hnil Heq Hins Hrep Hdel.
  assert (H : forall n diffs, (List.length diffs <= n)%nat -> P diffs).
  { induction n as [|n IH]; intros diffs Hlen.
    - destruct diffs; [exact Hnil | simpl in Hlen; lia].
    - destruct diffs as [|[[| |] text] rest]; [exact Hnil | | |];
        simpl in Hlen.
      + destruct rest as [|[[| |] ins] rest'].
        * apply Hdel; [discriminate | apply IH; simpl; lia].
        * apply Hdel; [discriminate | apply IH; simpl in *; lia].
        * apply Hdel; [discriminate | apply IH; simpl in *; lia].
        * apply Hrep. apply IH. simpl in Hlen. lia.
      + apply Heq, IH. lia.
      + apply Hins, IH. lia. }
  intros diffs. apply (H (List.length diffs)). lia.
Qed.

Lemma collect_delete text rest oldPos newPos :
  (forall ins rest', rest <> (INSERT, ins) :: rest') ->
  collect ((DELETE, text) :: rest) oldPos newPos
  = {| type := Delete; oldStart := oldPos;
       oldEnd := oldPos + String.length text;
       newStart := newPos; newEnd := newPos;
       oldContent := text; newContent := "" |}
    :: collect rest (oldPos + String.length text) newPos.
Proof.
  intros H. destruct rest as [|[[| |] ins] rest']; try reflexivity.
  now contradiction (H ins rest').
Qed.

(** With [P] and [Q] consumed of the two texts, every change cuts its
    contents out of them. *)
Lemma collect_spans diffs :
  forall P Q c,
    List.In c (collect diffs (String.length P) (String.length Q)) ->
    oldContent c = slice (oldStart c) (oldEnd c) (P ++ before diffs)
    /\ newContent c = slice (newStart c) (newEnd c) (Q ++ after diffs).
Proof.
  induction diffs
    as [|text rest IH|text rest IH|text ins rest IH|text rest Hno IH]
    using pieces_induction; intros P Q c Hin.
  - destruct Hin.
  - cbn [collect before after] in *.
    rewrite <- !length_append in Hin. apply IH in Hin.
    now rewrite !append_assoc in Hin.
  - cbn [collect before after] in *. destruct Hin as [<- | Hin].
    + unfold slice. cbn [oldContent newContent oldStart oldEnd newStart newEnd].
      rewrite Nat.sub_diag, take_zero. split; [reflexivity |].
      replace (String.length Q + String.length text - String.length Q)%nat
        with (String.length text) by lia.
      rewrite <- (Nat.add_0_r (String.length Q)), drop_append_more.
      cbn [JS.drop]. now rewrite take_append.
    + rewrite <- length_append in Hin. apply IH in Hin.
      now rewrite append_assoc in Hin.
  - cbn [collect before after] in *. destruct Hin as [<- | Hin].
    + unfold slice. cbn [oldContent newContent oldStart oldEnd newStart newEnd].
      replace (String.length P + String.length text - String.length P)%nat
        with (String.length text) by lia.
      replace (String.length Q + String.length ins - String.length Q)%nat
        with (String.length ins) by lia.
      rewrite <- (Nat.add_0_r (String.length P)), drop_append_more.
      rewrite <- (Nat.add_0_r (String.length Q)), drop_append_more.
      cbn [JS.drop]. now rewrite !take_append.
    + rewrite <- !length_append in Hin. apply IH in Hin.
      now rewrite !append_assoc in Hin.
  - rewrite (collect_delete _ _ _ _ Hno) in Hin.
    cbn [before after]. destruct Hin as [<- | Hin].
    + unfold slice. cbn [oldContent newContent oldStart oldEnd newStart newEnd].
      rewrite Nat.sub_diag, take_zero. split; [| reflexivity].
      replace (String.length P + String.length text - String.length P)%nat
        with (String.length text) by lia.
      rewrite <- (Nat.add_0_r (String.length P)), drop_append_more.
      cbn [JS.drop]. now rewrite take_append.
    + rewrite <- length_append in Hin. apply IH in Hin.
      now rewrite append_assoc in Hin.
Qed.

(** Made from the last change back to the first, the edits turn the old
    text into the new one. *)
Lemma collect_replay diffs :
  forall P Q,
    List.fold_right splice (P ++ before diffs)
                    (collect diffs (String.length P) (String.length Q))
    = P ++ after diffs.
Proof.
  induction diffs
    as [|text rest IH|text rest IH|text ins rest IH|text rest Hno IH]
    using pieces_induction; intros P Q.
  - reflexivity.
  - cbn [collect before after]. rewrite <- !length_append, <- !append_assoc.
    apply IH.
  - cbn [collect before after List.fold_right].
    specialize (IH P (Q ++ text)). rewrite length_append in IH. rewrite IH.
    unfold splice. cbn [oldStart oldEnd newContent].
    now rewrite take_append, drop_append.
  - cbn [collect before after List.fold_right].
    specialize (IH (P ++ text) (Q ++ ins)). rewrite !length_append in IH.
    rewrite append_assoc in IH. rewrite IH.
    unfold splice. cbn [oldStart oldEnd newContent].
    rewrite !append_assoc.
    now rewrite take_append, drop_append_more, drop_append.
  - rewrite (collect_delete _ _ _ _ Hno). cbn [before after List.fold_right].
    specialize (IH (P ++ text) Q). rewrite !length_append in IH.
    rewrite append_assoc in IH. rewrite IH.
    unfold splice. cbn [oldStart oldEnd newContent].
    rewrite !append_assoc.
    now rewrite take_append, drop_append_more, drop_append.
Qed.

Lemma length_rev_onto (s acc : string) :
  String.length (JS.rev_onto s acc)
  = (String.length s + String.length acc)%nat.
Proof.
  revert acc. induction s as [|c s IH]; intros acc; simpl; [reflexivity |].
  rewrite IH. simpl. lia.
Qed.

Lemma length_rev (s : string) : String.length (JS.rev s) = String.length s.
Proof. unfold JS.rev. rewrite length_rev_onto. simpl. lia. Qed.

(** The scan and the split agree: [k] line breaks were passed, and the
    lines before them together with the column make up the characters
    consumed. *)
Lemma scan_offsets text :
  forall steps l c cur,
    c = Z.of_nat (String.length cur) ->
    exists k : nat,
      line (scan text steps l c) = (l + Z.of_nat k)%Z
      /\ (lineOffsets (JS.split_go newline text cur) k
          + column (scan text steps l c)
          = Z.of_nat (String.length cur)
            + Z.of_nat (Nat.min steps (String.length text)))%Z.
Proof.
  induction text as [|ch text IH]; intros steps l c cur Hc.
  - exists 0%nat. destruct steps; simpl; lia.
  - destruct steps as [|steps].
    + exists 0%nat. simpl. lia.
    + cbn [scan JS.split_go]. destruct (Ascii.eqb ch newline).
      * destruct (IH steps (l + 1)%Z 0%Z "" eq_refl) as (k & Hl & Ho).
        exists (S k). split; [lia |].
        cbn [lineOffsets]. rewrite length_rev.
        cbn [String.length Nat.min] in *. lia.
      * destruct (IH steps l (c + 1)%Z (String ch cur)) as (k & Hl & Ho).
        { cbn [String.length]. lia. }
        exists k. split; [exact Hl |].
        cbn [String.length Nat.min] in *. lia.
Qed.

Lemma lineOffsets_all text :
  forall cur steps,
    (List.length (JS.split_go newline text cur) <= steps)%nat ->
    lineOffsets (JS.split_go newline text cur) steps
    = (Z.of_nat (String.length cur) + Z.of_nat (String.length text) + 1)%Z.
Proof.
  induction text as [|ch text IH]; intros cur steps Hlen.
  - cbn [JS.split_go] in *. destruct steps; [simpl in Hlen; lia |].
    cbn [lineOffsets]. rewrite length_rev. destruct steps; simpl; lia.
  - cbn [JS.split_go] in *. destruct (Ascii.eqb ch newline).
    + destruct steps; [simpl in Hlen; lia |].
      cbn [lineOffsets]. rewrite length_rev, IH; [| simpl in Hlen; lia].
      cbn [String.length]. lia.
    + rewrite IH; [| exact Hlen]. cbn [String.length]. lia.
Qed.

End TextDiffFacts.

(** X1.  Whatever pieces the diff library returns for two texts, as
    long as the pieces kept or deleted spell the old text and the pieces
    kept or inserted spell the new one, every change of [findChanges]
    carries exactly the characters of the old text between its
    [oldStart] and [oldEnd] and the characters of the new text between
    its [newStart] and [newEnd]. *)
Theorem findChanges_spans
        (fastDiff : string -> string -> list (TextDiff.Op * string))
        (oldText newText : string) (c : TextDiff.Change) :
  Notions.before (fastDiff oldText newText) = oldText ->
  Notions.after (fastDiff oldText newText) = newText ->
  List.In c (TextDiff.findChanges fastDiff oldText newText) ->
  TextDiff.oldContent c
  = Notions.slice (TextDiff.oldStart c) (TextDiff.oldEnd c) oldText
  /\ TextDiff.newContent c
     = Notions.slice (TextDiff.newStart c) (TextDiff.newEnd c) newText.
Proof.
  intros Hold Hnew Hin. unfold TextDiff.findChanges in Hin.
  apply (collect_spans _ "" "") in Hin. cbn [String.append] in Hin.
  now rewrite Hold, Hnew in Hin.
Qed.

Lemma findChanges_spans_witness :
  let c := {| TextDiff.type := TextDiff.Replace;
              TextDiff.oldStart := 1; TextDiff.oldEnd := 2;
              TextDiff.newStart := 1; TextDiff.newEnd := 3;
              TextDiff.oldContent := "b"; TextDiff.newContent := "xy" |} in
  TextDiff.oldContent c = Notions.slice 1 2 "abc"
  /\ TextDiff.newContent c = Notions.slice 1 3 "axyc".
Proof.
  intros c.
  apply (findChanges_spans
           (fun _ _ => [(TextDiff.EQUAL, "a"); (TextDiff.DELETE, "b");
                        (TextDiff.INSERT, "xy"); (TextDiff.EQUAL, "c")])
           "abc" "axyc" c).
  - reflexivity.
  - reflexivity.
  - left. reflexivity.
Defined.

(** X2.  Under the same reading of the pieces, the changes of
    [findChanges] are a faithful edit script: replacing, from the last
    change back to the first, the characters of the old text between
    [oldStart] and [oldEnd] by [newContent] yields the new text. *)
Theorem findChanges_replay
        (fastDiff : string -> string -> list (TextDiff.Op * string))
        (oldText newText : string) :
  Notions.before (fastDiff oldText newText) = oldText ->
  Notions.after (fastDiff oldText newText) = newText ->
  List.fold_right Notions.splice oldText
                  (TextDiff.findChanges fastDiff oldText newText)
  = newText.
Proof.
  intros Hold Hnew. unfold TextDiff.findChanges.
  pose proof (collect_replay (fastDiff oldText newText) "" "") as H.
  cbn [String.append String.length] in H. now rewrite Hold, Hnew in H.
Qed.

Lemma findChanges_replay_witness :
  List.fold_right
    Notions.splice "abc"
    (TextDiff.findChanges
       (fun _ _ => [(TextDiff.EQUAL, "a"); (TextDiff.DELETE, "b");
                    (TextDiff.INSERT, "xy"); (TextDiff.EQUAL, "c")])
       "abc" "axyc")
  = "axyc".
Proof.
  apply (findChanges_replay
           (fun _ _ => [(TextDiff.EQUAL, "a"); (TextDiff.DELETE, "b");
                        (TextDiff.INSERT, "xy"); (TextDiff.EQUAL, "c")])
           "abc" "axyc"); reflexivity.
Defined.

(** X3.  [positionToOffset] undoes [offsetToPosition]: the
    position computed for an offset leads back to that offset, clamped to
    the text (offsets below 0 count as 0, offsets past the end as the
    length of the text). *)
Theorem position_round_trip (text : string) (offset : Z) :
  let p := TextDiff.offsetToPosition text offset in
  TextDiff.positionToOffset text (TextDiff.line p) (TextDiff.column p)
  = Z.max 0 (Z.min offset (Z.of_nat (String.length text))).
Proof.
  intros p. subst p.
  unfold TextDiff.offsetToPosition, TextDiff.positionToOffset, JS.split.
  destruct (scan_offsets text (Z.to_nat offset) 1 0 "" eq_refl)
    as (k & Hl & Ho).
  rewrite Hl. replace (Z.to_nat (1 + Z.of_nat k - 1)) with k by lia.
  cbn [String.length] in Ho. lia.
Qed.

(** X4.  [positionToOffset] does not clamp: for a line number past
    the last line it counts a line break after every line, the last one
    included, and answers the length of the text plus one plus the
    column.  This is for a column that is not negative and an answer of
    at most [2 ^ 53], where the code's additions are exact. *)
Theorem position_past_the_end (text : string) (line column : Z) :
  (Z.of_nat (List.length (JS.split TextDiff.newline text)) < line)%Z ->
  (0 <= column)%Z ->
  (Z.of_nat (String.length text) + 1 + column <= 2 ^ 53)%Z ->
  TextDiff.positionToOffset text line column
  = (Z.of_nat (String.length text) + 1 + column)%Z.
Proof.
  intros H _ _. unfold TextDiff.positionToOffset, JS.split in *.
  rewrite lineOffsets_all; [simpl; lia | lia].
Qed.

Lemma position_past_the_end_witness :
  TextDiff.positionToOffset "ab" 5 1 = 4%Z.
Proof.
  apply (position_past_the_end "ab" 5 1).
  - vm_compute. reflexivity.
  - lia.
  - vm_compute. discriminate.
Defined.

(* --------------------------------------------------------------------- *)
(** ** Loop guard and registry: how their operations compose *)
(* --------------------------------------------------------------------- *)

Section GuardFacts.
Import LoopGuard.

(** The answer of [shouldIgnore], read off the record. *)
Lemma shouldIgnore_answer now key content g :
  fst (shouldIgnore now key content g)
  = match recentWrites g !! key with
    | Some r => (now - timestamp r <=? ttl g)%Z
                && String.eqb (hash r) (computeHash content)
    | None => false
    end.
Proof.
  unfold shouldIgnore. destruct (recentWrites g !! key) as [r|]; [| reflexivity].
  destruct (Z.ltb_spec (ttl g) (now - timestamp r)) as [H | H]; simpl.
  - symmetry. apply andb_false_iff. left. apply Z.leb_gt. exact H.
  - apply Z.leb_le in H. now rewrite H.
Qed.

Lemma shouldIgnore_ttl now key content g :
  ttl (snd (shouldIgnore now key content g)) = ttl g.
Proof.
  unfold shouldIgnore.
  destruct (recentWrites g !! key) as [r|]; [| reflexivity].
  now destruct (_ <? _)%Z.
Qed.

End GuardFacts.

(** X5.  The periodic sweep is invisible to the queries: at the time
    of the sweep and at any later time, [shouldIgnore] answers the same
    with or without it, for every key and content. *)
Theorem cleanup_transparent
        (now now' : Z) (key content : string) (g : LoopGuard.t) :
  (now <= now')%Z ->
  fst (LoopGuard.shouldIgnore now' key content (LoopGuard.cleanup now g))
  = fst (LoopGuard.shouldIgnore now' key content g).
Proof.
  intros Hle. rewrite !shouldIgnore_answer. unfold LoopGuard.cleanup.
  cbn [LoopGuard.recentWrites LoopGuard.ttl].
  rewrite map_lookup_filter.
  destruct (LoopGuard.recentWrites g !! key) as [r|]; [| reflexivity].
  cbn.
  destruct (decide (¬ (LoopGuard.ttl g < now - LoopGuard.timestamp r)%Z))
    as [Hlive | Hdead].
  - rewrite option_guard_True by exact Hlive. reflexivity.
  - rewrite option_guard_False by exact Hdead. cbn.
    symmetry. apply andb_false_iff. left. apply Z.leb_gt.
    apply dec_stable in Hdead. lia.
Qed.

Lemma cleanup_transparent_witness :
  fst (LoopGuard.shouldIgnore
         4000 "sheet:1" Samples.blueText
         (LoopGuard.cleanup 3500 Samples.guardAfterWrite))
  = fst (LoopGuard.shouldIgnore 4000 "sheet:1" Samples.blueText
                                Samples.guardAfterWrite).
Proof.
  apply (cleanup_transparent 3500 4000 "sheet:1" Samples.blueText
                             Samples.guardAfterWrite).
  lia.
Defined.

(** X6.  A write registered for a sheet at time [now] makes
    [shouldIgnoreStyleSheet] answer true at time [now'] exactly when no
    more than the TTL has passed and the content asked about has the
    digest of the content written.  Registering the write of a file does
    not disturb the answer for the sheet, unless the file's path is the
    sheet's key itself. *)
Theorem echo_window
        (now now' : Z) (id content content' path : string) (g : LoopGuard.t) :
  fst (LoopGuard.shouldIgnoreStyleSheet
         now' id content'
         (LoopGuard.registerStyleSheetWrite now id content g))
  = (now' - now <=? LoopGuard.ttl g)%Z
    && String.eqb (LoopGuard.computeHash content)
                  (LoopGuard.computeHash content')
  /\ (path <> LoopGuard.sheetKey id ->
      fst (LoopGuard.shouldIgnoreStyleSheet
             now' id content' (LoopGuard.registerWrite now path content g))
      = fst (LoopGuard.shouldIgnoreStyleSheet now' id content' g)).
Proof.
  unfold LoopGuard.shouldIgnoreStyleSheet. rewrite !shouldIgnore_answer. split.
  - unfold LoopGuard.registerStyleSheetWrite.
    cbn [LoopGuard.recentWrites LoopGuard.ttl].
    now rewrite lookup_insert_eq.
  - intros Hne. unfold LoopGuard.registerWrite.
    cbn [LoopGuard.recentWrites LoopGuard.ttl].
    now rewrite lookup_insert_ne.
Qed.

(** X7.  What [getPreviousText] answers after [updateText]: for the
    sheet updated, if it is registered, the new text, or nothing when the
    new text is empty; for every other sheet, and for a sheet that is not
    registered, what it answered before.  [updateText] never registers a
    sheet. *)
Theorem stored_text_round_trip
        (now : Z) (id id' newText : string)
        (sheets : gmap string Registry.Sheet) :
  Registry.getPreviousText id' (Registry.updateText now id newText sheets)
  = if String.eqb id id' && bool_decide (is_Some (sheets !! id))
    then (match newText with "" => None | _ => Some newText end)
    else Registry.getPreviousText id' sheets.
Proof.
  unfold Registry.getPreviousText, Registry.updateText.
  destruct (String.eqb_spec id id') as [<- | Hne]; cbn [andb].
  - destruct (sheets !! id) as [s|] eqn:Hs.
    + rewrite bool_decide_eq_true_2 by eauto.
      rewrite lookup_insert_eq. cbn [Registry.text]. now destruct newText.
    + rewrite bool_decide_eq_false_2 by (intros [? [=]]). now rewrite Hs.
  - destruct (sheets !! id) as [s|] eqn:Hs; [| reflexivity].
    now rewrite lookup_insert_ne.
Qed.

(** X8.  Once a Vite id is set for a registered sheet, it is what
    [getSourceURL] answers, whatever URL the header carries; the sheet
    counts as file-based from then on, and its stored text and original
    source are as before. *)
Theorem dev_id_overrides_url
        (id path : string) (s : Registry.Sheet)
        (sheets : gmap string Registry.Sheet) :
  sheets !! id = Some s -> path <> "" ->
  let sheets' := Registry.setViteDevId id path sheets in
  Registry.getSourceURL id sheets' = Some path
  /\ Registry.getViteDevId id sheets' = Some path
  /\ (exists s', sheets' !! id = Some s' /\ Registry.isFileBased s' = true)
  /\ Registry.getPreviousText id sheets' = Registry.getPreviousText id sheets
  /\ Registry.getOriginalSource id sheets'
     = Registry.getOriginalSource id sheets.
Proof.
  intros Hs Hp sheets'. subst sheets'.
  unfold Registry.getSourceURL, Registry.getViteDevId,
    Registry.getPreviousText, Registry.getOriginalSource,
    Registry.setViteDevId.
  rewrite Hs, lookup_insert_eq.
  cbn [Registry.viteDevId Registry.header Registry.text
       Registry.originalSource].
  destruct path as [|c path]; [contradiction |].
  repeat split; try reflexivity.
  eexists. split; [reflexivity |]. reflexivity.
Qed.

Lemma dev_id_overrides_url_witness :
  let sheets : gmap string Registry.Sheet :=
    {[ "1" := Samples.sheet "" (Some Samples.redText) None ]} in
  let sheets' := Registry.setViteDevId "1" "/proj/src/App.css" sheets in
  Registry.getSourceURL "1" sheets' = Some "/proj/src/App.css"
  /\ Registry.getViteDevId "1" sheets' = Some "/proj/src/App.css"
  /\ (exists s', sheets' !! "1" = Some s' /\ Registry.isFileBased s' = true)
  /\ Registry.getPreviousText "1" sheets'
     = Registry.getPreviousText "1" sheets
  /\ Registry.getOriginalSource "1" sheets'
     = Registry.getOriginalSource "1" sheets.
Proof.
  intros sheets.
  apply (dev_id_overrides_url
           "1" "/proj/src/App.css"
           (Samples.sheet "" (Some Samples.redText) None) sheets).
  - vm_compute. reflexivity.
  - intros H. discriminate H.
Defined.

(* --------------------------------------------------------------------- *)
(** ** Differ: when it is silent, and what a lost text costs *)
(* --------------------------------------------------------------------- *)

Section DifferMore.
Import Differ Notions.

Lemma groupOf_mapPush key k d m :
  groupOf key (mapPush k d m)
  = (groupOf key m ++ if String.eqb k key then [d] else [])%list.
Proof.
  unfold groupOf. induction m as [|[k' ds] m IH]; simpl.
  - now destruct (String.eqb k key).
  - destruct (String.eqb_spec k' k) as [-> | Hne]; simpl.
    + destruct (String.eqb k key); simpl; [reflexivity |].
      now rewrite List.app_nil_r.
    + destruct (String.eqb_spec k' key) as [-> | Hne']; simpl.
      * destruct (String.eqb_spec k key) as [-> | _]; [congruence |].
        now rewrite List.app_nil_r.
      * exact IH.
Qed.

Lemma groupOf_fold key decls :
  forall m,
    groupOf key (List.fold_left (fun m d => mapPush (keyOf d) d m) decls m)
    = (groupOf key m ++ keyed key decls)%list.
Proof.
  induction decls as [|d ds IH]; intros m; simpl.
  - now rewrite List.app_nil_r.
  - rewrite IH, groupOf_mapPush, <- List.app_assoc.
    now destruct (String.eqb (keyOf d) key).
Qed.

(** The map built from a list files under each key the declarations of
    that key, in document order. *)
Lemma groupOf_buildMap key decls :
  groupOf key (buildMap decls) = keyed key decls.
Proof. unfold buildMap. now rewrite groupOf_fold. Qed.

Lemma buildMap_entry key l decls :
  List.In (key, l) (buildMap decls) -> l = keyed key decls.
Proof.
  intros Hin. rewrite <- groupOf_buildMap. unfold groupOf.
  now rewrite (mapGet_In key l _ (buildMap_NoDup decls) Hin).
Qed.

Lemma keyed_entry key decls :
  keyed key decls <> [] -> List.In (key, keyed key decls) (buildMap decls).
Proof.
  rewrite <- groupOf_buildMap. unfold groupOf.
  destruct (mapGet key (buildMap decls)) as [l|] eqn:Hget; simpl;
    [| congruence].
  intros _. now apply mapGet_Some_In.
Qed.

Lemma differs_false o n : differs o n = false <-> compared o = compared n.
Proof.
  unfold differs, compared. split.
  - intros H. apply orb_false_iff in H as [Hv Hi].
    apply negb_false_iff in Hv, Hi.
    apply String.eqb_eq in Hv. apply Bool.eqb_prop in Hi. congruence.
  - intros [= -> ->]. now rewrite String.eqb_refl, Bool.eqb_reflx.
Qed.

Lemma compareLists_nil news olds :
  compareLists news olds = []
  <-> List.map compared news
      = List.map compared (List.firstn (List.length news) olds)
      /\ (List.length news <= List.length olds)%nat.
Proof.
  revert olds. induction news as [|n news IH]; intros olds; simpl.
  - split; [intros _; split; [reflexivity | lia] | reflexivity].
  - destruct olds as [|o olds]; simpl.
    + split; [discriminate | intros [_ H]; lia].
    + destruct (differs o n) eqn:Hd.
      * split; [discriminate |]. intros [Heq _].
        assert (Hc : compared o = compared n) by congruence.
        apply differs_false in Hc. congruence.
      * apply differs_false in Hd. rewrite IH. split.
        -- intros [-> Hlen]. split; [now rewrite Hd | lia].
        -- intros [Heq Hlen]. split; [congruence | lia].
Qed.

Lemma flat_map_nil_iff {A B} (f : A -> list B) (l : list A) :
  List.flat_map f l = [] <-> forall x, List.In x l -> f x = [].
Proof.
  split; [| apply flat_map_nil].
  induction l as [|a l IH]; simpl; [intros _ x [] |].
  intros H x [<- | Hx].
  - now apply List.app_eq_nil in H.
  - apply IH; [now apply List.app_eq_nil in H | exact Hx].
Qed.

Lemma diffDeclarations_nil olds news :
  diffDeclarations olds news = []
  <-> forall key,
        List.map compared (keyed key olds) = List.map compared (keyed key news).
Proof.
  unfold diffDeclarations, changedPart, deletedPart.
  split.
  - intros H key. apply List.app_eq_nil in H as [Hc Hd].
    rewrite flat_map_nil_iff in Hc. rewrite flat_map_nil_iff in Hd.
    assert (Hnew : keyed key news <> [] ->
                   List.map compared (keyed key news)
                   = List.map compared
                       (List.firstn (List.length (keyed key news))
                                    (keyed key olds))
                   /\ (List.length (keyed key news)
                       <= List.length (keyed key olds))%nat).
    { intros Hne. apply keyed_entry in Hne. specialize (Hc _ Hne).
      cbn [fst snd] in Hc. fold (groupOf key (buildMap olds)) in Hc.
      rewrite groupOf_buildMap in Hc. now apply compareLists_nil. }
    assert (Hold : keyed key olds <> [] ->
                   (List.length (keyed key olds)
                    <= List.length (keyed key news))%nat).
    { intros Hne. apply keyed_entry in Hne. specialize (Hd _ Hne).
      cbn [fst snd] in Hd. fold (groupOf key (buildMap news)) in Hd.
      rewrite groupOf_buildMap in Hd.
      apply List.map_eq_nil in Hd.
      apply (f_equal (@List.length _)) in Hd.
      rewrite List.length_skipn in Hd. simpl in Hd. lia. }
    destruct (keyed key news) as [|n ln] eqn:En;
      destruct (keyed key olds) as [|o lo] eqn:Eo.
    + reflexivity.
    + specialize (Hold ltac:(discriminate)). simpl in Hold. lia.
    + destruct (Hnew ltac:(discriminate)) as [_ Hlen]. simpl in Hlen. lia.
    + destruct (Hnew ltac:(discriminate)) as [Heq Hlen].
      specialize (Hold ltac:(discriminate)).
      rewrite List.firstn_all2 in Heq by lia. now symmetry.
  - intros H. rewrite !flat_map_nil; [reflexivity | |].
    + intros [key lo] Hin. cbn [fst snd].
      fold (groupOf key (buildMap news)). rewrite groupOf_buildMap.
      rewrite (buildMap_entry _ _ _ Hin).
      specialize (H key). apply (f_equal (@List.length _)) in H.
      rewrite !List.length_map in H.
      rewrite List.skipn_all2 by lia. reflexivity.
    + intros [key ln] Hin. cbn [fst snd].
      fold (groupOf key (buildMap olds)). rewrite groupOf_buildMap.
      rewrite (buildMap_entry _ _ _ Hin).
      apply compareLists_nil. specialize (H key).
      assert (Hlen : List.length (keyed key olds)
                     = List.length (keyed key news)).
      { apply (f_equal (@List.length _)) in H.
        now rewrite !List.length_map in H. }
      rewrite List.firstn_all2 by lia. split; [now symmetry | lia].
Qed.

(** Grouping by key only reorders the declarations. *)
Lemma grouped_Permutation decls :
  forall m,
    Permutation
      (List.flat_map snd
         (List.fold_left (fun m d => mapPush (keyOf d) d m) decls m))
      (List.flat_map snd m ++ decls).
Proof.
  assert (Hpush : forall k d m,
             Permutation (List.flat_map snd (mapPush k d m))
                         (List.flat_map snd m ++ [d])).
  { intros k d m. induction m as [|[k' ds] m IH]; simpl; [reflexivity |].
    destruct (String.eqb k' k); simpl.
    - rewrite <- !List.app_assoc. apply Permutation_app_head.
      apply Permutation_app_comm.
    - rewrite <- List.app_assoc. now apply Permutation_app_head. }
  induction decls as [|d ds IH]; intros m; simpl.
  - now rewrite List.app_nil_r.
  - rewrite IH, Hpush, <- List.app_assoc. reflexivity.
Qed.

Lemma compareLists_fresh news : compareLists news [] = List.map addOf news.
Proof.
  induction news as [|n news IH]; simpl; [reflexivity | now rewrite IH].
Qed.

Lemma flat_map_map_snd {A B C} (f : B -> C) (m : list (A * list B)) :
  List.flat_map (fun e => List.map f (snd e)) m
  = List.map f (List.flat_map snd m).
Proof.
  induction m as [|e m IH]; simpl; [reflexivity |].
  now rewrite List.map_app, IH.
Qed.

End DifferMore.

(** X9.  The differ reports nothing exactly when, under every
    [selector|prop] key, the two texts hold declarations with the same
    values and the same [!important] flags in the same order.  Where the
    declarations stand in the text, and how declarations of different
    keys are interleaved, does not matter. *)
Theorem no_change_iff_same_values
        (lib : PostCSS.Lib) (oldCss newCss : string) :
  Differ.findChangedDeclarations lib oldCss newCss = []
  <-> forall key,
        List.map Notions.compared
                 (Notions.keyed key (Differ.parseDeclarations lib oldCss))
        = List.map Notions.compared
                   (Notions.keyed key (Differ.parseDeclarations lib newCss)).
Proof. apply diffDeclarations_nil. Qed.

(** X10.  When the old text yields no declaration (it does not parse, or
    it has none), the differ reports every declaration of the new text as
    added, each once: the records are the additions of the new
    declarations, grouped by key. *)
Theorem lost_old_text_reports_additions
        (lib : PostCSS.Lib) (oldCss newCss : string) :
  Differ.parseDeclarations lib oldCss = [] ->
  Permutation (Differ.findChangedDeclarations lib oldCss newCss)
              (List.map Differ.addOf (Differ.parseDeclarations lib newCss)).
Proof.
  intros Hold. unfold Differ.findChangedDeclarations, Differ.diffDeclarations.
  rewrite Hold. unfold Differ.changedPart, Differ.deletedPart.
  cbn [Differ.buildMap List.fold_left List.flat_map Differ.mapGet
       Differ.orEmpty].
  rewrite List.app_nil_r.
  erewrite List.flat_map_ext; [| intros e; apply compareLists_fresh].
  rewrite flat_map_map_snd. apply Permutation_map.
  unfold Differ.buildMap. now rewrite grouped_Permutation.
Qed.

Lemma lost_old_text_reports_additions_witness :
  Permutation
    (Differ.findChangedDeclarations Samples.lib Samples.brokenText
                                    Samples.redText)
    (List.map Differ.addOf
              (Differ.parseDeclarations Samples.lib Samples.redText)).
Proof.
  apply (lost_old_text_reports_additions Samples.lib Samples.brokenText
                                         Samples.redText).
  reflexivity.
Defined.

(** X11.  When the new text yields no declaration (for instance
    because it does not parse), the differ reports every declaration of
    the old text as deleted, each once. *)
Theorem lost_new_text_reports_deletions
        (lib : PostCSS.Lib) (oldCss newCss : string) :
  Differ.parseDeclarations lib newCss = [] ->
  Permutation (Differ.findChangedDeclarations lib oldCss newCss)
              (List.map Differ.deleteOf
                        (Differ.parseDeclarations lib oldCss)).
Proof.
  intros Hnew. unfold Differ.findChangedDeclarations, Differ.diffDeclarations.
  rewrite Hnew. unfold Differ.changedPart, Differ.deletedPart.
  cbn [Differ.buildMap List.fold_left List.flat_map Differ.mapGet
       Differ.orEmpty List.length List.skipn app].
  rewrite (List.flat_map_ext _ (fun e => List.map Differ.deleteOf (snd e)))
    by reflexivity.
  rewrite flat_map_map_snd. apply Permutation_map.
  unfold Differ.buildMap. now rewrite grouped_Permutation.
Qed.

Lemma lost_new_text_reports_deletions_witness :
  Permutation
    (Differ.findChangedDeclarations Samples.lib Samples.redText
                                    Samples.brokenText)
    (List.map Differ.deleteOf
              (Differ.parseDeclarations Samples.lib Samples.redText)).
Proof.
  apply (lost_new_text_reports_deletions Samples.lib Samples.redText
                                         Samples.brokenText).
  reflexivity.
Defined.

(* --------------------------------------------------------------------- *)
(** ** Resolvers: what a result is backed by *)
(* --------------------------------------------------------------------- *)

Section ResolverMore.
Import URLResolver.

Lemma applyMappings_exists r fs pathname ms p :
  applyMappings r fs pathname ms = Some p -> FS.existsSync fs p = true.
Proof.
  induction ms as [|[pattern replacement] ms IH]; simpl; [discriminate |].
  set (fullPath := Path.resolve _ _).
  destruct (JS.startsWith pattern pathname); simpl; [| exact IH].
  destruct (FS.existsSync fs fullPath) eqn:Hex; [| exact IH].
  now intros [= <-].
Qed.

Lemma applyDefaults_exists r fs pathname ms p :
  applyDefaults r fs pathname ms = Some p -> FS.existsSync fs p = true.
Proof.
  induction ms as [|[pattern resolveFn] ms IH]; simpl; [discriminate |].
  destruct (matchGroup1 pattern pathname) as [m1|]; [| exact IH].
  destruct (resolveFn r fs m1) as [localPath|]; [| exact IH].
  destruct (Path.nonEmpty localPath); simpl; [| exact IH].
  destruct (FS.existsSync fs localPath) eqn:Hex; [| exact IH].
  now intros [= <-].
Qed.

End ResolverMore.

(** X12.  For a URL that is not a [file://] URL, whatever path
    [URLResolver.resolve] returns exists on disk at the time of the call,
    whether it comes from a user mapping, a default mapping or the direct
    probes.  (A [file://] URL is converted and returned unchecked.) *)
Theorem resolve_existing
        (r : URLResolver.t) (fs : FS.t) (url p : string) :
  JS.startsWith "file://" url = false ->
  URLResolver.resolve r fs (Some url) = URLResolver.Returned (Some p) ->
  FS.existsSync fs p = true.
Proof.
  intros Hfile. unfold URLResolver.resolve.
  destruct url as [|c url]; [discriminate |].
  rewrite Hfile.
  set (pathname := match URLResolver.urlPathname r _ with
                   | Some q => q
                   | None => _
                   end).
  destruct (URLResolver.applyMappings r fs pathname (URLResolver.mappings r))
    as [q|] eqn:Hm.
  { intros [= <-]. eapply applyMappings_exists; eassumption. }
  destruct (URLResolver.applyDefaults r fs pathname
                                      URLResolver.defaultMappings)
    as [q|] eqn:Hd.
  { intros [= <-]. eapply applyDefaults_exists; eassumption. }
  destruct (URLResolver.firstExisting fs (URLResolver.directPaths r pathname))
    as [q|] eqn:Hf; [| discriminate].
  intros [= <-]. now apply firstExisting_Some in Hf.
Qed.

Lemma resolve_existing_witness :
  FS.existsSync Samples.plainFS "/proj/src/styles.css" = true.
Proof.
  apply (resolve_existing Samples.resolver Samples.plainFS Samples.stylesUrl
                          "/proj/src/styles.css").
  - reflexivity.
  - vm_compute. reflexivity.
Defined.

Section SelectorMore.
Import SelectorResolver Notions.

Lemma hasSelector_cache fs filePath cls c :
  cache (snd (hasSelector fs filePath cls c)) = cache c.
Proof.
  unfold hasSelector. destruct (JS.truthy (fileCache c !! filePath)).
  - now destruct (fileCache c !! filePath).
  - destruct (FS.readFile fs filePath); reflexivity.
Qed.

Lemma firstWithSelector_cache fs onlyNamed comp cls files :
  forall c,
    cache (snd (firstWithSelector fs onlyNamed comp cls files c)) = cache c.
Proof.
  induction files as [|f files IH]; intros c; simpl; [reflexivity |].
  destruct (negb onlyNamed || _).
  - pose proof (hasSelector_cache fs f cls c) as Hc.
    destruct (hasSelector fs f cls c) as [[|] c1]; simpl in *.
    + exact Hc.
    + now rewrite IH.
  - apply IH.
Qed.

Lemma hasSelector_true fs filePath cls c c' :
  hasSelector fs filePath cls c = (true, c') ->
  exists content,
    fileCache c' !! filePath = Some content
    /\ List.existsb (fun p => Regex.test p content) (selectorPatterns cls)
       = true.
Proof.
  unfold hasSelector.
  destruct (JS.truthy (fileCache c !! filePath)) eqn:Ht.
  - destruct (fileCache c !! filePath) as [content|] eqn:Hc; [| discriminate].
    intros [= H <-]. exists content. auto.
  - destruct (FS.readFile fs filePath) as [content|]; [| discriminate].
    intros [= H <-]. exists content. cbn [fileCache].
    now rewrite lookup_insert_eq.
Qed.

Lemma firstWithSelector_found fs onlyNamed comp cls files :
  forall c file c',
    firstWithSelector fs onlyNamed comp cls files c = (Some file, c') ->
    List.In file files
    /\ exists content,
         fileCache c' !! file = Some content
         /\ List.existsb (fun p => Regex.test p content) (selectorPatterns cls)
            = true.
Proof.
  induction files as [|f files IH]; intros c file c' H; simpl in H;
    [discriminate |].
  destruct (negb onlyNamed || _).
  - destruct (hasSelector fs f cls c) as [[|] c1] eqn:Hh.
    + injection H as <- <-. split; [now left |].
      eapply hasSelector_true. exact Hh.
    + apply IH in H as [Hin Hc]. split; [now right | exact Hc].
  - apply IH in H as [Hin Hc]. split; [now right | exact Hc].
Qed.

Lemma tryPattern_original pat mainSelector nested parsed :
  tryPattern pat mainSelector nested = Some parsed ->
  originalSelector parsed = "." ++ className parsed.
Proof.
  unfold tryPattern. destruct (Regex.exec pat mainSelector) as [[[i e] cs]|];
    [| discriminate].
  destruct (Regex.capture 1 cs); [| discriminate].
  destruct (Regex.capture 2 cs); [| discriminate].
  now intros [= <-].
Qed.

Lemma parse_original selector parsed :
  parseCSSModuleSelector selector = Some parsed ->
  originalSelector parsed = "." ++ className parsed.
Proof.
  unfold parseCSSModuleSelector.
  generalize (List.hd "" (Regex.split (Regex.plus Regex.space) selector)).
  generalize (List.tl (Regex.split (Regex.plus Regex.space) selector)).
  intros nested mainSelector. induction patterns as [|pat ps IH]; simpl;
    [discriminate |].
  destruct (tryPattern pat mainSelector nested) as [r|] eqn:Ht; [| exact IH].
  intros [= <-]. eapply tryPattern_original. exact Ht.
Qed.

End SelectorMore.

(** X13.  Every path [findModuleFiles] returns for a component is a
    regular file named exactly [<component>.module.scss] or
    [<component>.module.css] (the case of the letters included), in the
    project root or in a directory reached from it without entering
    [node_modules], [.next], [.git], [dist] or [build]. *)
Theorem findModuleFiles_sound (fs : FS.t) (root comp p : string) :
  List.In p (SelectorResolver.findModuleFiles fs root comp) ->
  exists dir entry,
    Notions.Entered fs root dir /\ p = Path.join [dir; entry]
    /\ (entry = comp ++ ".module.scss" \/ entry = comp ++ ".module.css")
    /\ FS.statSync fs p = Some FS.File.
Proof.
  unfold SelectorResolver.findModuleFiles. intros Hin.
  apply (searchFiles_Entered fs root) in Hin
    as (d & entry & Hd & -> & Hpat & Hstat); [| constructor].
  exists d, entry. repeat split; try assumption.
  unfold SelectorResolver.includes in Hpat. simpl in Hpat.
  apply orb_true_iff in Hpat as [H | H].
  - left. now apply String.eqb_eq in H.
  - apply orb_true_iff in H as [H | H]; [| discriminate H].
    right. now apply String.eqb_eq in H.
Qed.

Lemma findModuleFiles_sound_witness :
  exists dir entry,
    Notions.Entered Samples.moduleFS "/proj" dir
    /\ "/proj/app/menu.module.css" = Path.join [dir; entry]
    /\ (entry = "menu" ++ ".module.scss" \/ entry = "menu" ++ ".module.css")
    /\ FS.statSync Samples.moduleFS "/proj/app/menu.module.css"
       = Some FS.File.
Proof.
  apply (findModuleFiles_sound Samples.moduleFS "/proj" "menu"
                               "/proj/app/menu.module.css").
  vm_compute. left. reflexivity.
Defined.

(** X14.  [SelectorResolver.resolve] remembers what it found and only
    that: after a call that returned a file, the same selector gets the
    same answer from the cache alone, whatever has become of the files;
    after a call that returned nothing, the selector has no cache entry,
    so the next call searches again. *)
Theorem resolve_caches_hits_only
        (fs : FS.t) (root selector : string) (c : SelectorResolver.Caches) :
  let out := SelectorResolver.resolve fs root selector c in
  (forall hit, fst out = Some hit ->
     forall fs' root',
       SelectorResolver.resolve fs' root' selector (snd out)
       = (Some hit, snd out))
  /\ (fst out = None ->
      SelectorResolver.cache (snd out) !! selector = None).
Proof.
  unfold SelectorResolver.resolve.
  destruct (SelectorResolver.cache c !! selector) as [hit|] eqn:Hc;
    cbn [fst snd].
  { split; [| discriminate]. intros h [= <-] fs' root'. now rewrite Hc. }
  destruct (SelectorResolver.parseCSSModuleSelector selector) as [parsed|];
    cbn [fst snd].
  2:{ split; [discriminate |]. intros _. exact Hc. }
  pose proof (firstWithSelector_cache
                fs true (SelectorResolver.component parsed)
                (SelectorResolver.className parsed)
                (SelectorResolver.findModuleFiles
                   fs root (SelectorResolver.component parsed)) c) as H1.
  destruct (SelectorResolver.firstWithSelector fs true _ _ _ c)
    as [[file|] c1]; cbn [fst snd] in *.
  { split; [| discriminate]. intros h [= <-] fs' root'.
    unfold SelectorResolver.remember. cbn [SelectorResolver.cache].
    now rewrite lookup_insert_eq. }
  pose proof (firstWithSelector_cache
                fs false (SelectorResolver.component parsed)
                (SelectorResolver.className parsed)
                (SelectorResolver.findModuleFiles
                   fs root (SelectorResolver.component parsed)) c1) as H2.
  destruct (SelectorResolver.firstWithSelector fs false _ _ _ c1)
    as [[file|] c2]; cbn [fst snd] in *.
  { split; [| discriminate]. intros h [= <-] fs' root'.
    unfold SelectorResolver.remember. cbn [SelectorResolver.cache].
    now rewrite lookup_insert_eq. }
  split; [discriminate |]. intros _. now rewrite H2, H1.
Qed.

(** X15.  When the cache has no entry for a selector and
    [SelectorResolver.resolve] still returns a file, the selector parsed
    as a CSS-module selector, the original selector returned is a dot
    followed by the class name parsed out of it, the file is one of the
    module files found for the parsed component, and the text of the file
    (as the file cache now holds it) matches one of the four expressions
    built from the class name. *)
Theorem resolve_miss_sound
        (fs : FS.t) (root selector : string) (c c' : SelectorResolver.Caches)
        (file original : string) :
  SelectorResolver.cache c !! selector = None ->
  SelectorResolver.resolve fs root selector c = (Some (file, original), c') ->
  exists parsed content,
    SelectorResolver.parseCSSModuleSelector selector = Some parsed
    /\ original = "." ++ SelectorResolver.className parsed
    /\ List.In file
               (SelectorResolver.findModuleFiles
                  fs root (SelectorResolver.component parsed))
    /\ SelectorResolver.fileCache c' !! file = Some content
    /\ List.existsb
         (fun p => Regex.test p content)
         (SelectorResolver.selectorPatterns (SelectorResolver.className parsed))
       = true.
Proof.
  intros Hmiss. unfold SelectorResolver.resolve. rewrite Hmiss.
  destruct (SelectorResolver.parseCSSModuleSelector selector) as [parsed|]
    eqn:Hp; [| discriminate].
  pose proof (parse_original _ _ Hp) as Ho.
  destruct (SelectorResolver.firstWithSelector fs true _ _ _ c)
    as [[f1|] c1] eqn:H1.
  - intros [= <- <- <-].
    apply firstWithSelector_found in H1 as (Hin & content & Hc & Hm).
    exists parsed, content. repeat split; auto.
  - destruct (SelectorResolver.firstWithSelector fs false _ _ _ c1)
      as [[f2|] c2] eqn:H2; [| discriminate].
    intros [= <- <- <-].
    apply firstWithSelector_found in H2 as (Hin & content & Hc & Hm).
    exists parsed, content. repeat split; auto.
Qed.

Lemma resolve_miss_sound_witness :
  let c' := snd (SelectorResolver.resolve Samples.moduleFS "/proj"
                                          ".menu_item__abc123"
                                          Samples.noCaches) in
  exists parsed content,
    SelectorResolver.parseCSSModuleSelector ".menu_item__abc123" = Some parsed
    /\ ".item" = "." ++ SelectorResolver.className parsed
    /\ List.In "/proj/app/menu.module.css"
               (SelectorResolver.findModuleFiles
                  Samples.moduleFS "/proj" (SelectorResolver.component parsed))
    /\ SelectorResolver.fileCache c' !! "/proj/app/menu.module.css"
       = Some content
    /\ List.existsb
         (fun p => Regex.test p content)
         (SelectorResolver.selectorPatterns (SelectorResolver.className parsed))
       = true.
Proof.
  intros c'.
  apply (resolve_miss_sound Samples.moduleFS "/proj" ".menu_item__abc123"
                            Samples.noCaches c'
                            "/proj/app/menu.module.css" ".item").
  - reflexivity.
  - vm_compute. reflexivity.
Defined.

(* --------------------------------------------------------------------- *)
(** ** Patchers: what a change does to the tree *)
(* --------------------------------------------------------------------- *)

Section PlainPatcherFacts.
Import PostCSS Patcher Notions.

Variables (target p : string) (e : DeclEdit).
Hypothesis e_total : e <> Throw.

Local Abbreviation reach := (Notions.reached target p).
Local Abbreviation others := (Notions.remaining target p).
Local Abbreviation edit := (Notions.edited e).
Local Abbreviation walk := (Notions.walked target p e).

Lemma nonNil_app {A} (a b : list A) :
  nonNil (a ++ b) = nonNil a || nonNil b.
Proof. now destruct a. Qed.

Lemma edited_app a b : edit (a ++ b) = (edit a ++ edit b)%list.
Proof.
  unfold edited. destruct e; [reflexivity | apply List.map_app | reflexivity].
Qed.

Lemma edited_twice l : edit (edit l) = edit l.
Proof.
  unfold edited. destruct e; try reflexivity.
  rewrite List.map_map. reflexivity.
Qed.

Lemma edited_nonNil l : nonNil (edit l) = true -> nonNil l = true.
Proof. unfold edited. destruct e; [discriminate | | auto]. now destruct l. Qed.

Lemma edited_fixed_app a b :
  edit (a ++ b) = (a ++ b)%list -> edit a = a /\ edit b = b.
Proof.
  rewrite edited_app. destruct e eqn:He.
  - simpl. intros H. symmetry in H.
    now apply List.app_eq_nil in H as [-> ->].
  - intros H. apply app_inj_1 in H; [exact H |].
    simpl. apply List.length_map.
  - simpl. auto.
Qed.

Lemma reached_cons inside x l :
  reach inside (x :: l) = (targeted target p inside x ++ reach inside l)%list.
Proof. reflexivity. Qed.

Lemma reached_app inside a b :
  reach inside (a ++ b) = (reach inside a ++ reach inside b)%list.
Proof. apply List.flat_map_app. Qed.

Lemma remaining_cons inside x l :
  others inside (x :: l) = (outline target p inside x ++ others inside l)%list.
Proof. reflexivity. Qed.

Lemma remaining_app inside a b :
  others inside (a ++ b) = (others inside a ++ others inside b)%list.
Proof. apply List.flat_map_app. Qed.

Lemma reached_one inside x : reach inside [x] = targeted target p inside x.
Proof. unfold reached. simpl. apply List.app_nil_r. Qed.

Lemma remaining_one inside x : others inside [x] = outline target p inside x.
Proof. unfold remaining. simpl. apply List.app_nil_r. Qed.

Lemma targeted_Rule inside sel ns :
  targeted target p inside (Rule sel ns)
  = reach (inside || matchSelector sel target) ns.
Proof. reflexivity. Qed.

Lemma targeted_AtRule inside name ns :
  targeted target p inside (AtRule name ns) = reach inside ns.
Proof. reflexivity. Qed.

Lemma outline_Rule inside sel ns :
  outline target p inside (Rule sel ns)
  = (Open true sel :: others (inside || matchSelector sel target) ns
     ++ [Close])%list.
Proof. reflexivity. Qed.

Lemma outline_AtRule inside name ns :
  outline target p inside (AtRule name ns)
  = (Open false name :: others inside ns ++ [Close])%list.
Proof. reflexivity. Qed.

(** What [walkDecls(p, cb)] does to a node inside a rule that matched. *)
Lemma editDecls_effect :
  forall n, exists xs,
    editDecls p e n = Some (xs, nonNil (targeted target p true n))
    /\ others true xs = outline target p true n
    /\ reach true xs = edit (targeted target p true n).
Proof.
  assert (Hkids : forall ns,
             List.Forall
               (fun n => exists xs,
                    editDecls p e n = Some (xs, nonNil (targeted target p true n))
                    /\ others true xs = outline target p true n
                    /\ reach true xs = edit (targeted target p true n)) ns ->
             exists ns',
               editChildren p e ns = Some (ns', nonNil (reach true ns))
               /\ others true ns' = others true ns
               /\ reach true ns' = edit (reach true ns)).
  { induction 1 as [|x l (xs & Hx & Hr & Ht) _ (ls & Hl & Hlr & Hlt)].
    - exists []. repeat split. now destruct e.
    - exists (xs ++ ls)%list. cbn [editChildren]. rewrite Hx, Hl.
      rewrite reached_cons, remaining_cons, nonNil_app, edited_app.
      rewrite reached_app, remaining_app, Hr, Ht, Hlr, Hlt. auto. }
  induction n as [q v i src | sel ns IH | name ns IH | t] using Node_induction.
  - simpl. destruct (String.eqb q p) eqn:Hq.
    + destruct e as [|v' i'|]; [| | contradiction].
      * exists []. repeat split.
      * exists [Decl q v' i' src]. repeat split; simpl; now rewrite Hq.
    + exists [Decl q v i src]. unfold remaining, reached. simpl. rewrite Hq.
      repeat split. now destruct e.
  - rewrite editDecls_Rule, targeted_Rule, outline_Rule. cbn [orb].
    destruct (Hkids ns IH) as (ns' & -> & Hr & Ht).
    exists [Rule sel ns']. split; [reflexivity |].
    rewrite remaining_one, reached_one, outline_Rule, targeted_Rule. cbn [orb].
    now rewrite Hr, Ht.
  - rewrite editDecls_AtRule, targeted_AtRule, outline_AtRule.
    destruct (Hkids ns IH) as (ns' & -> & Hr & Ht).
    exists [AtRule name ns']. split; [reflexivity |].
    rewrite remaining_one, reached_one, outline_AtRule, targeted_AtRule.
    now rewrite Hr, Ht.
  - exists [Comment t]. repeat split. now destruct e.
Qed.

Lemma editChildren_effect ns :
  exists ns',
    editChildren p e ns = Some (ns', nonNil (reach true ns))
    /\ others true ns' = others true ns
    /\ reach true ns' = edit (reach true ns).
Proof.
  induction ns as [|x l (ls & Hl & Hlr & Hlt)].
  - exists []. repeat split. now destruct e.
  - destruct (editDecls_effect x) as (xs & Hx & Hr & Ht).
    exists (xs ++ ls)%list. cbn [editChildren]. rewrite Hx, Hl.
    rewrite reached_cons, remaining_cons, nonNil_app, edited_app.
    rewrite reached_app, remaining_app, Hr, Ht, Hlr, Hlt. auto.
Qed.

Variable c : Differ.Change.
Hypothesis c_selector : Differ.selector c = target.
Hypothesis c_prop : Differ.prop c = p.
Hypothesis c_edit : editFor false c = e.

Lemma reached_leaves l : maxHeight l = 0%nat -> reach false l = [].
Proof.
  induction l as [|x l IH]; [reflexivity |]. rewrite maxHeight_cons.
  intros H. rewrite reached_cons, IH by lia.
  destruct x as [q v i src | sel ns | name ns | t]; try reflexivity.
  - rewrite height_Rule in H. lia.
  - rewrite height_AtRule in H. lia.
Qed.

(** A declaration reached from outside is a declaration of that name. *)
Lemma reached_inside :
  forall l, nonNil (reach false l) = true -> nonNil (reach true l) = true.
Proof.
  assert (Hlist : forall ns,
             List.Forall
               (fun n => nonNil (targeted target p false n) = true ->
                         nonNil (targeted target p true n) = true) ns ->
             nonNil (reach false ns) = true -> nonNil (reach true ns) = true).
  { induction 1 as [|x l Hx _ IHl]; [discriminate |].
    rewrite !reached_cons, !nonNil_app. intros H.
    apply orb_true_iff in H as [H | H]; apply orb_true_iff; auto. }
  intros l. apply Hlist. apply List.Forall_forall. intros n _. revert n.
  induction n as [q v i src | sel ns IH | name ns IH | t] using Node_induction;
    try discriminate.
  - rewrite !targeted_Rule. cbn [orb].
    destruct (matchSelector sel target); [auto | now apply Hlist].
  - rewrite !targeted_AtRule. now apply Hlist.
Qed.

Lemma walked_leaves l : maxHeight l = 0%nat -> walk l l false.
Proof.
  intros H. unfold walked. rewrite (reached_leaves l H).
  repeat split; try reflexivity. now destruct e.
Qed.

Lemma walked_cons x x' f1 l l' f2 :
  walk [x] [x'] f1 -> walk l l' f2 -> walk (x :: l) (x' :: l') (f1 || f2).
Proof.
  unfold walked. change (x :: l) with ([x] ++ l)%list.
  change (x' :: l') with ([x'] ++ l')%list.
  rewrite !remaining_app, !reached_app, !nonNil_app, !edited_app.
  intros (A1 & B1 & C1 & E1 & F1) (A2 & B2 & C2 & E2 & F2).
  rewrite A1, A2, B1, B2, C1, C2, E1, E2. repeat split.
  intros Hfix. rewrite <- edited_app in Hfix.
  apply edited_fixed_app in Hfix as [H1 H2]. now rewrite F1, F2.
Qed.

Lemma eachNode_walked visit prefix :
  forall l idx,
    (forall here x, List.In x l ->
       exists x' f t, visit here x = Some (x', f, t) /\ walk [x] [x'] f) ->
    exists w, eachNode visit prefix idx l = Some w
              /\ walk l (tree w) (found w).
Proof.
  induction l as [|x l IH]; intros idx Hv.
  - eexists. split; [reflexivity |]. apply (walked_leaves []). reflexivity.
  - destruct (Hv (prefix ++ [idx])%list x (or_introl eq_refl))
      as (x' & f & t & Hx & Hw).
    destruct (IH (S idx) (fun h y Hy => Hv h y (or_intror Hy)))
      as (w & Hl & Hwl).
    cbn [eachNode]. rewrite Hx, Hl. eexists. split; [reflexivity |].
    cbn [tree found]. now apply walked_cons.
Qed.

Lemma walked_Rule_miss sel kids kids' f :
  matchSelector sel target = false ->
  walk kids kids' f -> walk [Rule sel kids] [Rule sel kids'] f.
Proof.
  intros Hm (A & B & C & E & F). unfold walked.
  rewrite !remaining_one, !reached_one, !outline_Rule, !targeted_Rule.
  rewrite Hm. cbn [orb]. now rewrite A, B, C, E.
Qed.

Lemma walked_AtRule name kids kids' f :
  walk kids kids' f -> walk [AtRule name kids] [AtRule name kids'] f.
Proof.
  intros (A & B & C & E & F). unfold walked.
  rewrite !remaining_one, !reached_one, !outline_AtRule, !targeted_AtRule.
  now rewrite A, B, C, E.
Qed.

Lemma walked_Rule_hit sel kids kids1 kids2 f :
  matchSelector sel target = true ->
  others true kids1 = others true kids ->
  reach true kids1 = edit (reach true kids) ->
  walk kids1 kids2 f ->
  walk [Rule sel kids] [Rule sel kids2] (nonNil (reach true kids) || f).
Proof.
  intros Hm Hr Ht (A & B & C & E & F). unfold walked.
  rewrite !remaining_one, !reached_one, !outline_Rule, !targeted_Rule.
  rewrite Hm. cbn [orb].
  assert (Hkids2 : reach true kids2 = edit (reach true kids)).
  { rewrite <- Ht. apply F. now rewrite Ht, edited_twice. }
  rewrite E, Hr, Hkids2. repeat split.
  - destruct (nonNil (reach true kids)) eqn:Hs; [reflexivity |]. simpl.
    rewrite C. destruct (nonNil (reach false kids1)) eqn:Hs1; [| reflexivity].
    apply reached_inside in Hs1. rewrite Ht in Hs1.
    apply edited_nonNil in Hs1. congruence.
  - intros Hfix. now rewrite Hfix.
Qed.

(** The walk of the plain patcher, with fuel for the depth of the
    nodes. *)
Lemma walkRules_walked :
  forall fuel nodes prefix,
    (maxHeight nodes <= fuel)%nat ->
    exists w, walkRules fuel c prefix nodes = Some w
              /\ walk nodes (tree w) (found w).
Proof.
  induction fuel as [|fuel IH]; intros nodes prefix Hh.
  - eexists. split; [reflexivity |]. apply walked_leaves. cbn [tree]. lia.
  - rewrite walkRules_S. apply eachNode_walked.
    intros here x Hin. apply height_le_max in Hin.
    destruct x as [q v i src | sel kids | name kids | t].
    + do 3 eexists. split; [reflexivity |]. now apply walked_leaves.
    + rewrite height_Rule in Hin. unfold visitRule.
      rewrite c_selector, c_prop, c_edit.
      destruct (matchSelector sel target) eqn:Hm.
      * destruct (editChildren_effect kids) as (kids1 & He & Hr & Ht).
        rewrite He. pose proof (editChildren_height _ _ _ _ _ He) as Hk.
        destruct (IH kids1 here ltac:(lia)) as (w & Hw & Hspec).
        rewrite Hw. do 3 eexists. split; [reflexivity |].
        now apply walked_Rule_hit with (kids1 := kids1).
      * destruct (IH kids here ltac:(lia)) as (w & Hw & Hspec).
        rewrite Hw. do 3 eexists. split; [reflexivity |].
        now apply walked_Rule_miss.
    + rewrite height_AtRule in Hin. unfold visitRule.
      destruct (IH kids here ltac:(lia)) as (w & Hw & Hspec).
      rewrite Hw. do 3 eexists. split; [reflexivity |].
      now apply walked_AtRule.
    + do 3 eexists. split; [reflexivity |]. now apply walked_leaves.
Qed.

End PlainPatcherFacts.

Section PatcherSteps.
Import PostCSS Patcher Notions.

Lemma applyChange_plain root c w :
  walkRules (rootHeight root) c [] root = Some w ->
  (Differ.type c = Differ.add -> found w = true) ->
  applyChange false root c = Some (tree w, found w).
Proof.
  intros Hw Hadd. unfold applyChange. rewrite Hw.
  destruct (found w) eqn:Hf; [reflexivity |].
  destruct (targetRule w); [| reflexivity].
  destruct (Differ.type c); try reflexivity.
  specialize (Hadd eq_refl). discriminate.
Qed.

Lemma eachNode_same visit prefix :
  forall l idx,
    (forall here x, List.In x l -> visit here x = Some (x, false, None)) ->
    eachNode visit prefix idx l
    = Some {| tree := l; found := false; targetRule := None |}.
Proof.
  induction l as [|x l IH]; intros idx Hv; [reflexivity |]. simpl.
  rewrite (Hv _ x (or_introl eq_refl)).
  rewrite (IH (S idx) (fun h y Hy => Hv h y (or_intror Hy))). reflexivity.
Qed.

Lemma walkRules_no_match c :
  forall fuel nodes prefix,
    List.flat_map (matching (Differ.selector c)) nodes = [] ->
    walkRules fuel c prefix nodes
    = Some {| tree := nodes; found := false; targetRule := None |}.
Proof.
  induction fuel as [|fuel IH]; intros nodes prefix Hno; [reflexivity |].
  rewrite walkRules_S. apply eachNode_same. intros here x Hin.
  assert (Hx : matching (Differ.selector c) x = []).
  { clear -Hno Hin. induction nodes as [|y l IHl]; [destruct Hin |].
    simpl in Hno. apply List.app_eq_nil in Hno as [Hy Hl].
    destruct Hin as [<- | Hin]; auto. }
  destruct x as [q v i src | sel kids | name kids | t]; try reflexivity.
  - simpl in Hx. apply List.app_eq_nil in Hx as [Hsel Hkids].
    unfold visitRule.
    destruct (matchSelector sel (Differ.selector c)); [discriminate |].
    now rewrite (IH kids here Hkids).
  - simpl in Hx. unfold visitRule. now rewrite (IH kids here Hx).
Qed.

Lemma applyChange_no_rules root c :
  List.forallb (fun n => negb (isRule n)) root = true ->
  applyChange true root c = Some (root, false).
Proof.
  intros Hno. unfold applyChange, rootHeight. rewrite walkRulesDeep_S.
  rewrite eachNode_same; [reflexivity |].
  intros here x Hin. rewrite List.forallb_forall in Hno.
  specialize (Hno x Hin). now destruct x.
Qed.

Lemma applyAll_no_rules root changes :
  List.forallb (fun n => negb (isRule n)) root = true ->
  forall n,
    applyAll true root changes n
    = Some (root, {| success := success n;
                     failed := failed n + List.length changes |}).
Proof.
  intros Hno. induction changes as [|c rest IH]; intros n; simpl.
  - rewrite Nat.add_0_r. now destruct n.
  - rewrite (applyChange_no_rules root c Hno), IH. simpl.
    do 2 f_equal. f_equal. lia.
Qed.

End PatcherSteps.

(** X16.  In the plain patcher, a change of kind [delete] removes every
    declaration of the changed property that stands, at any depth, inside
    a rule whose selector matches the change's selector; it counts as
    found exactly when there was such a declaration; and everything else
    in the tree (rules, at-rules, comments, other declarations, their
    order and nesting) is left as it was. *)
Theorem plain_patcher_delete (root : PostCSS.Root) (c : Differ.Change) :
  Differ.type c = Differ.delete ->
  let reach := Notions.reached (Differ.selector c) (Differ.prop c) false in
  let others := Notions.remaining (Differ.selector c) (Differ.prop c) false in
  exists root',
    Patcher.applyChange false root c
    = Some (root', Notions.nonNil (reach root))
    /\ reach root' = []
    /\ others root' = others root.
Proof.
  intros Htype reach others.
  assert (He : Patcher.editFor false c = Patcher.Remove)
    by (unfold Patcher.editFor; now rewrite Htype).
  destruct (walkRules_walked
              (Differ.selector c) (Differ.prop c) Patcher.Remove
              ltac:(discriminate) c eq_refl eq_refl He
              (PostCSS.rootHeight root) root []
              ltac:(unfold PostCSS.rootHeight; lia))
    as (w & Hw & A & B & C & _).
  exists (Patcher.tree w). rewrite (applyChange_plain root c w Hw).
  - rewrite C. repeat split; assumption.
  - rewrite Htype. discriminate.
Qed.

Lemma plain_patcher_delete_witness :
  let root := [PostCSS.Rule ".btn" [Samples.colorDecl 8 "red" 18]] in
  let c := {| Differ.type := Differ.delete; Differ.selector := ".btn";
              Differ.prop := "color"; Differ.oldValue := Some "red";
              Differ.newValue := None; Differ.important := None;
              Differ.position := {| PostCSS.line := 1;
                                    PostCSS.column := 7 |} |} in
  let reach := Notions.reached ".btn" "color" false in
  let others := Notions.remaining ".btn" "color" false in
  exists root',
    Patcher.applyChange false root c
    = Some (root', Notions.nonNil (reach root))
    /\ reach root' = []
    /\ others root' = others root.
Proof.
  intros root c.
  apply (plain_patcher_delete root c). reflexivity.
Defined.

(** X17.  In the plain patcher, a change of kind [change], and one of
    kind [add] when such a declaration exists already, gives every
    declaration of the changed property inside a matching rule the new
    value without its [!important] suffix, and the flag that tells
    whether the new value contains [!important]; none is added or
    removed, the change counts as found exactly when there was such a
    declaration, and everything else in the tree is left as it was. *)
Theorem plain_patcher_assign
        (root : PostCSS.Root) (c : Differ.Change) (v : string) :
  let reach := Notions.reached (Differ.selector c) (Differ.prop c) false in
  let others := Notions.remaining (Differ.selector c) (Differ.prop c) false in
  Differ.newValue c = Some v ->
  Differ.type c = Differ.change
  \/ (Differ.type c = Differ.add /\ reach root <> []) ->
  exists root',
    Patcher.applyChange false root c
    = Some (root', Notions.nonNil (reach root))
    /\ reach root'
       = List.map (fun _ => (Patcher.cleanValue v, Patcher.hasImportant v))
                  (reach root)
    /\ others root' = others root.
Proof.
  intros reach others Hv Htype.
  assert (He : Patcher.editFor false c
               = Patcher.Assign (Patcher.cleanValue v)
                                (Patcher.hasImportant v)).
  { unfold Patcher.editFor. rewrite Hv. now destruct Htype as [-> | [-> _]]. }
  destruct (walkRules_walked
              (Differ.selector c) (Differ.prop c)
              (Patcher.Assign (Patcher.cleanValue v) (Patcher.hasImportant v))
              ltac:(discriminate) c eq_refl eq_refl He
              (PostCSS.rootHeight root) root []
              ltac:(unfold PostCSS.rootHeight; lia))
    as (w & Hw & A & B & C & _).
  exists (Patcher.tree w). rewrite (applyChange_plain root c w Hw).
  - rewrite C. repeat split; assumption.
  - intros Hadd. destruct Htype as [Hc | [_ Hne]]; [congruence |].
    rewrite C. unfold reach in Hne.
    destruct (Notions.reached _ _ false root); [contradiction | reflexivity].
Qed.

Lemma plain_patcher_assign_witness :
  let root := [PostCSS.Rule ".btn" [Samples.colorDecl 8 "red" 18]] in
  let c := {| Differ.type := Differ.change; Differ.selector := ".btn";
              Differ.prop := "color"; Differ.oldValue := Some "red";
              Differ.newValue := Some "blue !important";
              Differ.important := Some true;
              Differ.position := {| PostCSS.line := 1;
                                    PostCSS.column := 7 |} |} in
  let reach := Notions.reached ".btn" "color" false in
  let others := Notions.remaining ".btn" "color" false in
  exists root',
    Patcher.applyChange false root c
    = Some (root', Notions.nonNil (reach root))
    /\ reach root'
       = List.map (fun _ => (Patcher.cleanValue "blue !important",
                             Patcher.hasImportant "blue !important"))
                  (reach root)
    /\ others root' = others root.
Proof.
  intros root c.
  apply (plain_patcher_assign root c "blue !important").
  - reflexivity.
  - left. reflexivity.
Defined.

(** X18.  In the plain patcher, a change whose selector matches no rule
    of the file, at any depth, leaves the tree exactly as it was and
    counts as not found, whatever its kind; nothing is created for it. *)
Theorem plain_patcher_no_rule (root : PostCSS.Root) (c : Differ.Change) :
  List.flat_map (Notions.matching (Differ.selector c)) root = [] ->
  Patcher.applyChange false root c = Some (root, false).
Proof.
  intros Hno. unfold Patcher.applyChange. now rewrite walkRules_no_match.
Qed.

Lemma plain_patcher_no_rule_witness :
  let root := [PostCSS.Rule ".btn" [Samples.colorDecl 8 "red" 18]] in
  let c := {| Differ.type := Differ.add; Differ.selector := ".card";
              Differ.prop := "color"; Differ.oldValue := None;
              Differ.newValue := Some "blue"; Differ.important := Some false;
              Differ.position := {| PostCSS.line := 1;
                                    PostCSS.column := 7 |} |} in
  Patcher.applyChange false root c = Some (root, false).
Proof.
  intros root c. apply (plain_patcher_no_rule root c).
  vm_compute. reflexivity.
Defined.

(** X19.  The SCSS patcher walks rules only: when the file that is
    parsed has no rule at its top level (all its rules sit inside
    at-rules such as [@media]), no change of any kind is applied, every
    change is counted as failed and the file is not written. *)
Theorem scss_patcher_skips_at_rules
        (lib : PostCSS.Lib) (io : Patcher.Faults) (atomicWrite : bool)
        (now : Z) (fs : FS.t) (filePath content : string)
        (root : PostCSS.Root) (changes : list Differ.Change) :
  FS.readFile fs filePath = Some content ->
  PostCSS.scss_parse lib content = Some root ->
  List.forallb (fun n => negb (Notions.isRule n)) root = true ->
  Patcher.patchMultiple lib io true atomicWrite now fs filePath changes
  = ({| Patcher.success := 0; Patcher.failed := List.length changes |}, fs).
Proof.
  intros Hread Hparse Hno. unfold Patcher.patchMultiple.
  destruct (negb (FS.existsSync fs filePath)); [reflexivity |].
  rewrite Hread, Hparse, (applyAll_no_rules root changes Hno). reflexivity.
Qed.

Lemma scss_patcher_skips_at_rules_witness :
  let root :=
    [PostCSS.AtRule "media"
                    [PostCSS.Rule ".btn" [Samples.colorDecl 8 "red" 18]]] in
  let lib :=
    {| PostCSS.css_parse := Samples.parseSample;
       PostCSS.scss_parse := fun _ => Some root;
       PostCSS.css_stringify := Samples.printRoot;
       PostCSS.scss_stringify := Samples.printRoot |} in
  let c := {| Differ.type := Differ.change; Differ.selector := ".btn";
              Differ.prop := "color"; Differ.oldValue := Some "red";
              Differ.newValue := Some "blue"; Differ.important := Some false;
              Differ.position := {| PostCSS.line := 1;
                                    PostCSS.column := 7 |} |} in
  Patcher.patchMultiple lib Samples.noFaults true true 1500 Samples.plainFS
                        "/proj/src/styles.css" [c]
  = ({| Patcher.success := 0; Patcher.failed := 1 |}, Samples.plainFS).
Proof.
  intros root lib c.
  apply (scss_patcher_skips_at_rules lib Samples.noFaults true 1500
                                     Samples.plainFS "/proj/src/styles.css"
                                     Samples.redText root [c]);
    reflexivity.
Defined.

(** X20.  [patchDeclaration] is [patchMultiple] with one change of kind
    [change]: it answers true exactly when [patchMultiple] reports one
    success, and leaves the same files. *)
Theorem patchDeclaration_as_patchMultiple
        (lib : PostCSS.Lib) (io : Patcher.Faults) (atomicWrite : bool)
        (now : Z) (fs : FS.t) (filePath selector prop newValue : string) :
  let result :=
    Patcher.patchMultiple lib io false atomicWrite now fs filePath
                          [Patcher.assignment selector prop newValue] in
  Patcher.patchDeclaration lib io atomicWrite now fs filePath
                           selector prop newValue
  = (Nat.eqb (Patcher.success (fst result)) 1, snd result).
Proof.
  unfold Patcher.patchDeclaration, Patcher.patchMultiple.
  destruct (negb (FS.existsSync fs filePath)); [reflexivity |].
  destruct (FS.readFile fs filePath) as [content|]; [| reflexivity].
  destruct (PostCSS.css_parse lib content) as [root|]; [| reflexivity].
  cbn [Patcher.applyAll]. unfold Patcher.applyChange.
  destruct (Patcher.walkRules (PostCSS.rootHeight root)
                              (Patcher.assignment selector prop newValue)
                              [] root) as [w|]; [| reflexivity].
  destruct (Patcher.found w) eqn:Hf.
  - cbn [fst snd Patcher.success Nat.ltb Nat.leb].
    now destruct (Patcher.writeFile io atomicWrite now fs filePath _)
      as [[|] fs'].
  - destruct (Patcher.targetRule w); reflexivity.
Qed.

Section AppendFacts.
Import PostCSS Patcher Notions.

Variables (target p : string).

Lemma appendAt_here rel d x l :
  appendAt (0%nat :: rel) d (x :: l)
  = match x with
    | Rule sel kids =>
        match rel with
        | [] => Rule sel (kids ++ [d])%list
        | _ :: _ => Rule sel (appendAt rel d kids)
        end
    | AtRule name kids => AtRule name (appendAt rel d kids)
    | _ => x
    end :: l.
Proof. destruct x, rel; reflexivity. Qed.

Lemma appendAt_next k rel d x l :
  appendAt (S k :: rel) d (x :: l) = x :: appendAt (k :: rel) d l.
Proof. reflexivity. Qed.

Lemma hits_here rel x l :
  hits target (0%nat :: rel) (x :: l)
  = match x with
    | Rule sel kids =>
        match rel with
        | [] => matchSelector sel target = true
        | _ :: _ => hits target rel kids
        end
    | AtRule _ kids =>
        match rel with
        | [] => False
        | _ :: _ => hits target rel kids
        end
    | _ => False
    end.
Proof. destruct x, rel; reflexivity. Qed.

Lemma hits_next k rel x l :
  hits target (S k :: rel) (x :: l) = hits target (k :: rel) l.
Proof. reflexivity. Qed.

(** Appending a declaration named [p] to a rule that matches adds one
    reached declaration and nothing else. *)
Lemma appendAt_effect v i :
  forall rel l inside,
    hits target rel l ->
    remaining target p inside (appendAt rel (Decl p v i None) l)
    = remaining target p inside l
    /\ exists a b,
         reached target p inside l = (a ++ b)%list
         /\ reached target p inside (appendAt rel (Decl p v i None) l)
            = (a ++ (v, i) :: b)%list.
Proof.
  induction rel as [|k rel IH]; intros l inside Hhit; [destruct Hhit |].
  revert l Hhit. induction k as [|k IHk]; intros l Hhit.
  - destruct l as [|x l]; [destruct Hhit |].
    rewrite hits_here in Hhit. rewrite appendAt_here.
    destruct x as [q w j src | sel kids | name kids | t];
      [destruct Hhit | | | destruct Hhit].
    + destruct rel as [|k' rel'].
      * rewrite !remaining_cons, !reached_cons, outline_Rule, targeted_Rule,
          outline_Rule, targeted_Rule, Hhit, orb_true_r.
        rewrite remaining_app, reached_app, remaining_one, reached_one.
        cbn [outline targeted andb]. rewrite String.eqb_refl.
        split; [now rewrite List.app_nil_r |].
        exists (reached target p true kids), (reached target p inside l).
        split; [reflexivity |]. now rewrite <- List.app_assoc.
      * destruct (IH kids (inside || matchSelector sel target) Hhit)
          as (Hr & a & b & Hab & Hnew).
        rewrite !remaining_cons, !reached_cons, outline_Rule, targeted_Rule,
          outline_Rule, targeted_Rule, Hr, Hab, Hnew.
        split; [reflexivity |].
        exists a, (b ++ reached target p inside l)%list.
        now rewrite <- !List.app_assoc.
    + destruct rel as [|k' rel']; [destruct Hhit |].
      destruct (IH kids inside Hhit) as (Hr & a & b & Hab & Hnew).
      rewrite !remaining_cons, !reached_cons, outline_AtRule, targeted_AtRule,
        outline_AtRule, targeted_AtRule, Hr, Hab, Hnew.
      split; [reflexivity |].
      exists a, (b ++ reached target p inside l)%list.
      now rewrite <- !List.app_assoc.
  - destruct l as [|x l]; [destruct Hhit |].
    rewrite hits_next in Hhit. rewrite appendAt_next.
    destruct (IHk l Hhit) as (Hr & a & b & Hab & Hnew).
    rewrite !remaining_cons, !reached_cons, Hr, Hab, Hnew.
    split; [reflexivity |].
    exists (targeted target p inside x ++ a)%list, b.
    now rewrite <- !List.app_assoc.
Qed.

End AppendFacts.

Section TargetFacts.
Import PostCSS Patcher Notions.

Variable c : Differ.Change.
Local Abbreviation target := (Differ.selector c).

Lemma matching_leaves l :
  maxHeight l = 0%nat -> List.flat_map (matching target) l = [].
Proof.
  induction l as [|x l IH]; [reflexivity |]. rewrite maxHeight_cons.
  intros H. simpl. rewrite IH by lia.
  destruct x as [q v i src | sel ns | name ns | t]; try reflexivity.
  - rewrite height_Rule in H. lia.
  - rewrite height_AtRule in H. lia.
Qed.

Lemma eachNode_aimed visit prefix :
  forall l idx w,
    (forall k x x' f t,
        visit (prefix ++ [idx + k])%list x = Some (x', f, t) ->
        List.In x l ->
        match t with
        | Some path =>
            exists rel, path = ((prefix ++ [idx + k]) ++ rel)%list
                        /\ hits target (0%nat :: rel) [x']
        | None => matching target x = []
        end) ->
    eachNode visit prefix idx l = Some w ->
    match targetRule w with
    | Some path =>
        exists k rel, path = (prefix ++ (idx + k)%nat :: rel)%list
                      /\ hits target (k :: rel) (tree w)
    | None => List.flat_map (matching target) l = []
    end.
Proof.
  induction l as [|x l IH]; intros idx w Hv H; simpl in H.
  - injection H as <-. reflexivity.
  - destruct (visit (prefix ++ [idx])%list x) as [[[x' f1] t1]|] eqn:Hx;
      [| discriminate].
    destruct (eachNode visit prefix (S idx) l) as [w'|] eqn:Hl;
      [| discriminate].
    injection H as <-. cbn [tree targetRule].
    assert (IH' := IH (S idx) w').
    assert (Hv' : forall k y y' f t,
               visit (prefix ++ [S idx + k])%list y = Some (y', f, t) ->
               List.In y l ->
               match t with
               | Some path =>
                   exists rel, path = ((prefix ++ [S idx + k]) ++ rel)%list
                               /\ hits target (0%nat :: rel) [y']
               | None => matching target y = []
               end).
    { intros k y y' f t Hy Hin. specialize (Hv (S k) y y' f t).
      rewrite Nat.add_succ_r in Hv. exact (Hv Hy (or_intror Hin)). }
    specialize (IH' Hv' Hl).
    destruct (targetRule w') as [path|]; cbn [later].
    + destruct IH' as (k & rel & -> & Hhit).
      exists (S k), rel. split; [now rewrite Nat.add_succ_r |].
      now rewrite hits_next.
    + specialize (Hv 0%nat x x' f1 t1). rewrite Nat.add_0_r in Hv.
      specialize (Hv Hx (or_introl eq_refl)).
      destruct t1 as [path|].
      * destruct Hv as (rel & -> & Hhit). exists 0%nat, rel.
        rewrite Nat.add_0_r, <- List.app_assoc. split; [reflexivity |].
        rewrite hits_here in *. exact Hhit.
      * simpl. now rewrite Hv, IH'.
Qed.

Lemma walkRules_aimed :
  forall fuel nodes prefix w,
    (maxHeight nodes <= fuel)%nat ->
    walkRules fuel c prefix nodes = Some w ->
    aimed target prefix nodes (tree w) (targetRule w).
Proof.
  induction fuel as [|fuel IH]; intros nodes prefix w Hh Hw.
  - injection Hw as <-. apply matching_leaves. lia.
  - rewrite walkRules_S in Hw.
    apply eachNode_aimed in Hw.
    + unfold aimed. destruct (targetRule w) as [path|]; [| exact Hw].
      destruct Hw as (k & rel & -> & Hhit). exists (k :: rel). auto.
    + intros k x x' f t Hx Hin. apply height_le_max in Hin.
      set (here := (prefix ++ [0 + k])%list) in *.
      assert (Hsub : forall name kids' w1,
                 aimed target here kids' (tree w1) (targetRule w1) ->
                 forall isR : bool,
                 match targetRule w1 with
                 | Some path =>
                     exists rel, path = (here ++ rel)%list
                                 /\ hits target (0%nat :: rel)
                                         [if isR then Rule name (tree w1)
                                          else AtRule name (tree w1)]
                 | None => True
                 end).
      { intros name kids' w1 Ha isR. unfold aimed in Ha.
        destruct (targetRule w1) as [path|]; [| exact I].
        destruct Ha as (rel & -> & Hhit). exists rel. split; [reflexivity |].
        rewrite hits_here. destruct rel; [destruct Hhit |].
        now destruct isR. }
      destruct x as [q v i src | sel kids | name kids | txt].
      * injection Hx as <- <- <-. reflexivity.
      * rewrite height_Rule in Hin. unfold visitRule in Hx.
        destruct (matchSelector sel (Differ.selector c)) eqn:Hm.
        -- destruct (editChildren (Differ.prop c) (editFor false c) kids)
             as [[kids1 f1]|] eqn:He; [| discriminate].
           pose proof (editChildren_height _ _ _ _ _ He) as Hk.
           destruct (walkRules fuel c here kids1) as [w1|] eqn:Hw1;
             [| discriminate].
           injection Hx as <- <- <-.
           pose proof (Hsub sel kids1 w1
                            (IH kids1 here w1 ltac:(lia) Hw1) true) as Hs.
           destruct (targetRule w1) as [path|]; cbn [later].
           ++ exact Hs.
           ++ exists []. rewrite List.app_nil_r. split; [reflexivity |].
              rewrite hits_here. exact Hm.
        -- destruct (walkRules fuel c here kids) as [w1|] eqn:Hw1;
             [| discriminate].
           injection Hx as <- <- <-.
           pose proof (IH kids here w1 ltac:(lia) Hw1) as Ha.
           pose proof (Hsub sel kids w1 Ha true) as Hs.
           unfold aimed in Ha.
           destruct (targetRule w1) as [path|]; cbn [later].
           ++ exact Hs.
           ++ simpl. now rewrite Hm, Ha.
      * rewrite height_AtRule in Hin. unfold visitRule in Hx.
        destruct (walkRules fuel c here kids) as [w1|] eqn:Hw1;
          [| discriminate].
        injection Hx as <- <- <-.
        pose proof (IH kids here w1 ltac:(lia) Hw1) as Ha.
        pose proof (Hsub name kids w1 Ha false) as Hs.
        unfold aimed in Ha.
        destruct (targetRule w1) as [path|].
        -- exact Hs.
        -- exact Ha.
      * injection Hx as <- <- <-. reflexivity.
Qed.

End TargetFacts.

(** X21.  In the plain patcher, a change of kind [add] with a non-empty
    value, for a property that no matching rule holds yet, puts exactly
    one declaration of that property into a rule whose selector matches,
    with the value without its [!important] suffix and the flag that
    tells whether the value contains [!important]; it counts as found,
    and everything else in the tree is left as it was.  This needs a
    rule that matches: the patcher creates no rule. *)
Theorem plain_patcher_add
        (root : PostCSS.Root) (c : Differ.Change) (v : string) :
  let reach := Notions.reached (Differ.selector c) (Differ.prop c) false in
  let others := Notions.remaining (Differ.selector c) (Differ.prop c) false in
  Differ.type c = Differ.add ->
  Differ.newValue c = Some v -> v <> "" ->
  reach root = [] ->
  List.flat_map (Notions.matching (Differ.selector c)) root <> [] ->
  exists root',
    Patcher.applyChange false root c = Some (root', true)
    /\ reach root' = [(Patcher.cleanValue v, Patcher.hasImportant v)]
    /\ others root' = others root.
Proof.
  intros reach others Htype Hv Hne Hnone Hrule.
  assert (He : Patcher.editFor false c
               = Patcher.Assign (Patcher.cleanValue v)
                                (Patcher.hasImportant v)).
  { unfold Patcher.editFor. now rewrite Hv, Htype. }
  destruct (walkRules_walked
              (Differ.selector c) (Differ.prop c)
              (Patcher.Assign (Patcher.cleanValue v) (Patcher.hasImportant v))
              ltac:(discriminate) c eq_refl eq_refl He
              (PostCSS.rootHeight root) root []
              ltac:(unfold PostCSS.rootHeight; lia))
    as (w & Hw & A & B & C & _).
  pose proof (walkRules_aimed c (PostCSS.rootHeight root) root [] w
                ltac:(unfold PostCSS.rootHeight; lia) Hw) as Ha.
  unfold Notions.aimed in Ha. fold (reach root) in B, C.
  rewrite Hnone in B, C.
  cbn [Notions.edited List.map Notions.nonNil] in B, C.
  unfold Patcher.applyChange. rewrite Hw, C, Htype, Hv.
  destruct (Patcher.targetRule w) as [path|]; [| contradiction].
  destruct Ha as (rel & -> & Hhit). cbn [app].
  destruct v as [|ch v']; [contradiction |]. cbn [JS.truthy].
  eexists. split; [reflexivity |].
  destruct (appendAt_effect (Differ.selector c) (Differ.prop c)
              (Patcher.cleanValue (String ch v'))
              (Patcher.hasImportant (String ch v'))
              rel (Patcher.tree w) false Hhit) as (Hr & a & b & Hab & Hnew).
  unfold reach, others. rewrite Hr, Hnew, A. split; [| reflexivity].
  rewrite B in Hab. symmetry in Hab.
  apply List.app_eq_nil in Hab as [-> ->]. reflexivity.
Qed.

Lemma plain_patcher_add_witness :
  let root := [PostCSS.Rule ".btn" [Samples.colorDecl 8 "red" 18]] in
  let c := {| Differ.type := Differ.add; Differ.selector := ".btn";
              Differ.prop := "margin"; Differ.oldValue := None;
              Differ.newValue := Some "0 auto";
              Differ.important := Some false;
              Differ.position := {| PostCSS.line := 1;
                                    PostCSS.column := 19 |} |} in
  let reach := Notions.reached ".btn" "margin" false in
  let others := Notions.remaining ".btn" "margin" false in
  exists root',
    Patcher.applyChange false root c = Some (root', true)
    /\ reach root'
       = [(Patcher.cleanValue "0 auto", Patcher.hasImportant "0 auto")]
    /\ others root' = others root.
Proof.
  intros root c.
  apply (plain_patcher_add root c "0 auto").
  - reflexivity.
  - reflexivity.
  - intros H. discriminate H.
  - reflexivity.
  - vm_compute. intros H. discriminate H.
Defined.

(* --------------------------------------------------------------------- *)
(** ** Patchers: what is written, values, selector lists *)
(* --------------------------------------------------------------------- *)

Section WriteFacts.
Import PostCSS Patcher.

Lemma writeFile_read io atomicWrite now fs filePath content fs' :
  writeFile io atomicWrite now fs filePath content = (true, fs') ->
  FS.readFile fs' filePath = Some content.
Proof.
  unfold writeFile. destruct atomicWrite.
  - destruct (writeFails io _); [discriminate |].
    destruct (renameFails io _ _); [discriminate |].
    intros [= <-]. unfold FS.readFile, FS.put. cbn [FS.files].
    apply lookup_insert_eq.
  - destruct (writeFails io _); [discriminate |].
    intros [= <-]. unfold FS.readFile, FS.put. cbn [FS.files].
    apply lookup_insert_eq.
Qed.

End WriteFacts.

(** X22.  Whenever [patchMultiple] of either patcher reports at least
    one success, the file was read and parsed, the counts are those of
    the loop over the changes, and the file now holds the text that the
    stringifier gives for the tree as the loop left it. *)
Theorem patchMultiple_writes_final_tree
        (lib : PostCSS.Lib) (io : Patcher.Faults) (scss atomicWrite : bool) (now : Z)
        (fs : FS.t) (filePath : string) (changes : list Differ.Change) :
  let parse := if scss then PostCSS.scss_parse lib else PostCSS.css_parse lib in
  let print := if scss then PostCSS.scss_stringify lib
    else PostCSS.css_stringify lib in
  let result :=
    Patcher.patchMultiple lib io scss atomicWrite now fs filePath changes in
  (0 < Patcher.success (fst result))%nat ->
  exists content root root',
    FS.readFile fs filePath = Some content
    /\ parse content = Some root
    /\ Patcher.applyAll scss root changes
                        {| Patcher.success := 0; Patcher.failed := 0 |}
       = Some (root', fst result)
    /\ FS.readFile (snd result) filePath = Some (print root').
Proof.
  intros parse print result. subst result. unfold Patcher.patchMultiple.
  destruct (negb (FS.existsSync fs filePath)); [simpl; lia |].
  destruct (FS.readFile fs filePath) as [content|] eqn:Hread; [| simpl; lia].
  fold parse. destruct (parse content) as [root|] eqn:Hparse; [| simpl; lia].
  destruct (Patcher.applyAll scss root changes _) as [[root' n]|] eqn:Ha;
    [| simpl; lia].
  destruct (Nat.ltb_spec 0 (Patcher.success n)) as [Hpos | Hzero];
    [| simpl; lia].
  fold print.
  destruct (Patcher.writeFile io atomicWrite now fs filePath (print root'))
    as [[|] fs'] eqn:Hw; [| simpl; lia].
  cbn [fst snd]. intros _. exists content, root, root'.
  repeat split; try assumption; try reflexivity.
  eapply writeFile_read. exact Hw.
Qed.


Lemma patchMultiple_writes_final_tree_witness :
  let changes :=
    Differ.findChangedDeclarations Samples.lib Samples.redText
                                   Samples.blueText in
  let result :=
    Patcher.patchMultiple Samples.lib Samples.noFaults false true 1500
                          Samples.plainFS "/proj/src/styles.css" changes in
  exists content root root',
    FS.readFile Samples.plainFS "/proj/src/styles.css" = Some content
    /\ PostCSS.css_parse Samples.lib content = Some root
    /\ Patcher.applyAll false root changes
                        {| Patcher.success := 0; Patcher.failed := 0 |}
       = Some (root', fst result)
    /\ FS.readFile (snd result) "/proj/src/styles.css"
       = Some (PostCSS.css_stringify Samples.lib root').
Proof.
  intros changes.
  apply (patchMultiple_writes_final_tree
           Samples.lib Samples.noFaults false true 1500 Samples.plainFS
           "/proj/src/styles.css" changes).
  vm_compute. lia.
Defined.

Section ConsumeFacts.
Import Regex Notions.

Lemma allChars_app P a b :
  allChars P (a ++ b) = allChars P a && allChars P b.
Proof.
  induction a as [|c a IH]; [reflexivity |].
  rewrite append_cons. simpl. now rewrite IH, andb_assoc.
Qed.

(** A match consumes a prefix of the text it starts in. *)
Lemma Matches_consumes P r p cs p' cs' :
  Matches r p cs p' cs' -> consumesOnly P r ->
  exists w, snd p = w ++ snd p'
            /\ fst p' = (fst p + String.length w)%nat
            /\ allChars P w = true.
Proof.
  induction 1 as [p cs | c i s cs | f d i s cs Hf
                  | r1 r2 p cs p1 cs1 p2 cs2 _ IH1 _ IH2
                  | r1 r2 p cs p1 cs1 _ IH | r1 r2 p cs p1 cs1 _ IH
                  | g r p cs
                  | g r p cs p1 cs1 p2 cs2 _ IH1 Hlt _ IH2
                  | i r p cs p1 cs1 _ IH
                  | s cs | i cs | i cs | i d s cs Hd];
    intros Hr; cbn [consumesOnly] in Hr.
  - exists "". cbn. auto with arith.
  - exists (String c ""). cbn. rewrite Hr. repeat split. lia.
  - exists (String d ""). cbn. rewrite (Hr d Hf). repeat split. lia.
  - destruct Hr as [H1 H2].
    destruct (IH1 H1) as (w1 & E1 & L1 & A1).
    destruct (IH2 H2) as (w2 & E2 & L2 & A2).
    exists (w1 ++ w2). rewrite E1, E2, append_assoc, allChars_app, A1, A2.
    repeat split. rewrite length_append. lia.
  - apply IH, Hr.
  - apply IH, Hr.
  - exists "". cbn. auto with arith.
  - destruct (IH1 Hr) as (w1 & E1 & L1 & A1).
    destruct (IH2 Hr) as (w2 & E2 & L2 & A2).
    exists (w1 ++ w2). rewrite E1, E2, append_assoc, allChars_app, A1, A2.
    repeat split. rewrite length_append. lia.
  - apply IH, Hr.
  - exists "". cbn. auto with arith.
  - exists "". cbn. auto with arith.
  - exists "". cbn. auto with arith.
  - exists "". cbn. auto with arith.
Qed.

Lemma Matches_lit w :
  forall p cs p' cs',
    Matches (lit w) p cs p' cs' -> snd p = w ++ snd p'.
Proof.
  induction w as [|c w IH]; intros p cs p' cs' H; cbn [lit] in H.
  - inversion H; subst. reflexivity.
  - inversion H as [| | | r1 r2 q qs p1 cs1 p2 cs2 H1 H2 | | | | | | | | |];
      subst.
    inversion H1; subst. apply IH in H2. cbn [snd] in *. now rewrite H2.
Qed.

Lemma includes_start q s : JS.startsWith q s = true -> JS.includes q s = true.
Proof. intros H. destruct s; simpl; now rewrite H. Qed.

Lemma includes_append_r q a b :
  JS.includes q b = true -> JS.includes q (a ++ b) = true.
Proof.
  intros H. induction a as [|c a IH]; [exact H |].
  rewrite append_cons. simpl. rewrite IH. apply orb_true_r.
Qed.

Lemma includes_drop q k :
  forall s, JS.includes q (JS.drop k s) = true -> JS.includes q s = true.
Proof.
  induction k as [|k IH]; intros s H; [exact H |].
  destruct s as [|c s]; [exact H |]. simpl in H. simpl.
  rewrite (IH s H). apply orb_true_r.
Qed.

(** The leftmost match starts in a suffix of the text. *)
Lemma search_suffix r :
  forall s i i' e cs,
    search r i s = Some (i', e, cs) ->
    exists k rest, Matches r (i', JS.drop k s) [] (e, rest) cs.
Proof.
  induction s as [|c s IH]; intros i i' e cs H; simpl in H.
  - destruct (run r (i, "") [] _) as [[e0 cs0]|] eqn:Hrun; [| discriminate].
    injection H as <- <- <-.
    apply run_sound in Hrun as ([e1 rest] & cs1 & Hm & [= <- <-]).
    exists 0%nat, rest. exact Hm.
  - destruct (run r (i, String c s) [] _) as [[e0 cs0]|] eqn:Hrun.
    + injection H as <- <- <-.
      apply run_sound in Hrun as ([e1 rest] & cs1 & Hm & [= <- <-]).
      exists 0%nat, rest. exact Hm.
    + apply IH in H as (k & rest & Hm). exists (S k), rest. exact Hm.
Qed.

End ConsumeFacts.

(** X23.  A new value that does not contain [!important] is written
    as it is, trimmed of the white space around it, and with the
    [important] flag off. *)
Theorem plain_value_is_trimmed (v : string) :
  Patcher.hasImportant v = false -> Patcher.cleanValue v = JS.trim v.
Proof.
  unfold Patcher.hasImportant, Patcher.cleanValue, Regex.remove_first,
    Regex.exec. intros Hno.
  destruct (Regex.search Patcher.importantSuffix 0 v) as [[[i e] cs]|] eqn:Hs;
    [| reflexivity].
  exfalso. apply search_suffix in Hs as (k & rest & Hm).
  unfold Patcher.importantSuffix in Hm. cbn [Regex.seqs] in Hm.
  inversion Hm as [| | | r1 r2 q qs p1 cs1 p2 cs2 H1 H2 | | | | | | | | |];
    subst.
  inversion H2 as [| | | r1 r2 q qs p3 cs3 p4 cs4 H3 H4 | | | | | | | | |];
    subst.
  apply (Matches_consumes (fun _ => true)) in H1 as (w & Ew & _);
    [| exact (fun c _ => eq_refl)].
  apply (Matches_lit "!important") in H3. cbn [snd] in Ew.
  assert (Hin : JS.includes "!important" v = true).
  { apply (includes_drop _ k). rewrite Ew. apply includes_append_r.
    apply includes_start. rewrite H3. apply startsWith_append. }
  congruence.
Qed.


Lemma plain_value_is_trimmed_witness :
  Patcher.cleanValue " 0 auto " = JS.trim " 0 auto ".
Proof.
  apply (plain_value_is_trimmed " 0 auto "). reflexivity.
Defined.

Section CommaFacts.
Import Regex Notions PostCSS Patcher.

(** [s] holds a comma. *)
Local Abbreviation listed := (JS.includes ",").

Lemma listed_cons c s :
  listed (String c s) = Ascii.eqb "," c || listed s.
Proof. simpl. now rewrite andb_true_r. Qed.

Lemma listed_app a b : listed (a ++ b) = listed a || listed b.
Proof.
  induction a as [|c a IH]; [now destruct b |].
  rewrite append_cons, !listed_cons, IH. apply orb_assoc.
Qed.

Lemma listed_nil : listed "" = false.
Proof. reflexivity. Qed.

Lemma listed_rev_onto s acc :
  listed (JS.rev_onto s acc) = listed s || listed acc.
Proof.
  revert acc. induction s as [|c s IH]; intros acc; [reflexivity |].
  cbn [JS.rev_onto]. rewrite IH, !listed_cons.
  destruct (Ascii.eqb "," c), (listed s), (listed acc); reflexivity.
Qed.

Lemma listed_rev s : listed (JS.rev s) = listed s.
Proof. unfold JS.rev. rewrite listed_rev_onto, listed_nil. apply orb_false_r. Qed.

Lemma listed_trimStart s : listed (JS.trimStart s) = listed s.
Proof.
  induction s as [|c s IH]; [reflexivity |]. cbn [JS.trimStart].
  destruct (JS.is_space c) eqn:Hsp; [| reflexivity].
  rewrite IH, listed_cons.
  destruct (Ascii.eqb_spec "," c) as [<- | _]; [discriminate | reflexivity].
Qed.

Lemma listed_trim s : listed (JS.trim s) = listed s.
Proof.
  unfold JS.trim.
  now rewrite listed_rev, listed_trimStart, listed_rev, listed_trimStart.
Qed.

Lemma listed_drop k : forall s, listed s = false -> listed (JS.drop k s) = false.
Proof.
  induction k as [|k IH]; intros s H; [exact H |].
  destruct s as [|c s]; [reflexivity |]. cbn [JS.drop].
  rewrite listed_cons in H. apply orb_false_iff in H as [_ H]. now apply IH.
Qed.

Lemma listed_spaces w : allChars JS.is_space w = true -> listed w = false.
Proof.
  induction w as [|c w IH]; [reflexivity |]. cbn [allChars].
  intros H. apply andb_true_iff in H as [Hc Hw].
  rewrite listed_cons, (IH Hw).
  destruct (Ascii.eqb_spec "," c) as [<- | _]; [discriminate | reflexivity].
Qed.

(** Collapsing white space neither adds nor removes a comma. *)
Lemma listed_replace_all fuel :
  forall i s,
    listed (replace_all_go (plus space) " " fuel i s) = listed s.
Proof.
  induction fuel as [|fuel IH]; intros i s; [reflexivity |].
  cbn [replace_all_go].
  destruct (run (plus space) (i, s) [] _) as [e|] eqn:Hrun.
  - destruct (Nat.eqb e i).
    + destruct s as [|c s]; [reflexivity |].
      rewrite listed_app, !listed_cons, IH. reflexivity.
    + rewrite listed_app, IH.
      apply run_sound in Hrun as ([e1 rest] & cs1 & Hm & [= <-]).
      apply (Matches_consumes JS.is_space) in Hm as (w & Ew & Lw & Aw).
      2:{ split; intros c Hc; exact Hc. }
      cbn [fst snd] in *. subst s e1.
      replace (i + String.length w - i)%nat with (String.length w) by lia.
      rewrite drop_append, listed_app, (listed_spaces w Aw). reflexivity.
  - destruct s as [|c s]; [reflexivity |].
    now rewrite !listed_cons, IH.
Qed.

Lemma listed_normalize s : listed (normalize s) = listed s.
Proof.
  unfold normalize, replace_all. now rewrite listed_trim, listed_replace_all.
Qed.

Lemma matchSelector_list full target :
  listed full = false -> listed target = true ->
  matchSelector full target = false.
Proof.
  intros Hf Ht. unfold matchSelector.
  destruct (String.eqb_spec (normalize full) (normalize target)) as [Heq |];
    [| reflexivity].
  apply (f_equal listed) in Heq. rewrite !listed_normalize in Heq. congruence.
Qed.

Lemma listed_split_go s :
  forall cur piece,
    listed cur = false ->
    List.In piece (JS.split_go "," s cur) -> listed piece = false.
Proof.
  induction s as [|c s IH]; intros cur piece Hcur Hin; cbn [JS.split_go] in Hin.
  - destruct Hin as [<- | []]. now rewrite listed_rev.
  - destruct (Ascii.eqb_spec c ",") as [-> | Hne].
    + destruct Hin as [<- | Hin]; [now rewrite listed_rev |].
      now apply (IH "" piece).
    + apply (IH (String c cur) piece); [| exact Hin].
      rewrite listed_cons, Hcur.
      destruct (Ascii.eqb_spec "," c) as [<- | _]; [congruence | reflexivity].
Qed.

Lemma listed_fullSelectors parentSelector sel full :
  listed parentSelector = false ->
  List.In full (fullSelectors parentSelector sel) -> listed full = false.
Proof.
  intros Hp Hin. unfold fullSelectors in Hin.
  apply List.in_map_iff in Hin as (s & <- & Hs).
  apply (listed_split_go sel "" s eq_refl) in Hs.
  assert (Ht : listed (JS.trim s) = false) by now rewrite listed_trim.
  unfold fullSelector. destruct (JS.startsWith "&" (JS.trim s)).
  - rewrite listed_app, Hp. now apply listed_drop.
  - destruct (Path.nonEmpty parentSelector); [| exact Ht].
    now rewrite !listed_app, Hp, Ht.
Qed.

Variable c : Differ.Change.
Hypothesis c_listed : listed (Differ.selector c) = true.

Lemma callbacks_list here fulls kids f t :
  (forall full, List.In full fulls -> listed full = false) ->
  callbacks c here fulls kids f t = Some (kids, f, t).
Proof.
  revert kids f t. induction fulls as [|full rest IH]; intros kids f t Hf;
    [reflexivity |].
  cbn [callbacks].
  rewrite (matchSelector_list full _ (Hf full (or_introl eq_refl)) c_listed).
  apply IH. intros x Hx. apply Hf. now right.
Qed.

Lemma nestedWalks_same walk fulls kids :
  (forall full, List.In full fulls ->
     walk full kids
     = Some {| tree := kids; found := false; targetRule := None |}) ->
  nestedWalks walk fulls kids false None = Some (kids, false, None).
Proof.
  induction fulls as [|full rest IH]; intros Hw; [reflexivity |].
  cbn [nestedWalks]. rewrite (Hw full (or_introl eq_refl)).
  cbn [tree found targetRule later orb]. apply IH.
  intros x Hx. apply Hw. now right.
Qed.

Lemma walkRulesDeep_list :
  forall fuel parentSelector prefix nodes,
    listed parentSelector = false ->
    walkRulesDeep fuel c parentSelector prefix nodes
    = Some {| tree := nodes; found := false; targetRule := None |}.
Proof.
  induction fuel as [|fuel IH]; intros parentSelector prefix nodes Hp;
    [reflexivity |].
  rewrite walkRulesDeep_S. apply eachNode_same. intros here x _.
  destruct x as [q v i src | sel kids | name kids | t]; try reflexivity.
  unfold visitDeep.
  rewrite callbacks_list
    by (intros full Hin; eapply listed_fullSelectors; eassumption).
  rewrite nestedWalks_same; [reflexivity |].
  intros full Hin. apply IH. eapply listed_fullSelectors; eassumption.
Qed.

Lemma applyChange_list root :
  applyChange true root c = Some (root, false).
Proof.
  unfold applyChange. now rewrite walkRulesDeep_list.
Qed.

End CommaFacts.

Section CommaTheorem.
Import PostCSS Patcher.

Lemma applyAll_list root changes :
  List.forallb (fun c => JS.includes "," (Differ.selector c)) changes = true ->
  forall n,
    applyAll true root changes n
    = Some (root, {| success := success n;
                     failed := failed n + List.length changes |}).
Proof.
  induction changes as [|c rest IH]; intros Hall n; simpl.
  - rewrite Nat.add_0_r. now destruct n.
  - simpl in Hall. apply andb_true_iff in Hall as [Hc Hrest].
    rewrite (applyChange_list c Hc root), (IH Hrest). simpl.
    do 2 f_equal. f_equal. lia.
Qed.

End CommaTheorem.

(** X24.  The SCSS patcher compares the change's selector with each
    member of a rule's selector list on its own, so a change whose
    selector contains a comma matches no rule: such changes are never
    applied, each is counted as failed, and the file is not written,
    whatever the file holds. *)
Theorem scss_patcher_skips_selector_lists
        (lib : PostCSS.Lib) (io : Patcher.Faults) (atomicWrite : bool) (now : Z) (fs : FS.t)
        (filePath : string) (changes : list Differ.Change) :
  List.forallb (fun c => JS.includes "," (Differ.selector c)) changes = true ->
  Patcher.patchMultiple lib io true atomicWrite now fs filePath changes
  = ({| Patcher.success := 0; Patcher.failed := List.length changes |}, fs).
Proof.
  intros Hall. unfold Patcher.patchMultiple.
  destruct (negb (FS.existsSync fs filePath)); [reflexivity |].
  destruct (FS.readFile fs filePath) as [content|]; [| reflexivity].
  destruct (PostCSS.scss_parse lib content) as [root|]; [| reflexivity].
  now rewrite (applyAll_list root changes Hall).
Qed.


Lemma scss_patcher_skips_selector_lists_witness :
  let root := [PostCSS.Rule "h1, h2" [Samples.colorDecl 9 "red" 19]] in
  let lib :=
    {| PostCSS.css_parse := Samples.parseSample;
       PostCSS.scss_parse := fun _ => Some root;
       PostCSS.css_stringify := Samples.printRoot;
       PostCSS.scss_stringify := Samples.printRoot |} in
  let c := {| Differ.type := Differ.change; Differ.selector := "h1, h2";
              Differ.prop := "color"; Differ.oldValue := Some "red";
              Differ.newValue := Some "blue"; Differ.important := Some false;
              Differ.position := {| PostCSS.line := 1;
                                    PostCSS.column := 8 |} |} in
  Patcher.patchMultiple lib Samples.noFaults true true 1500 Samples.plainFS
                        "/proj/src/styles.css" [c]
  = ({| Patcher.success := 0; Patcher.failed := 1 |}, Samples.plainFS).
Proof.
  intros root lib c.
  apply (scss_patcher_skips_selector_lists
           lib Samples.noFaults true 1500 Samples.plainFS
           "/proj/src/styles.css" [c]).
  reflexivity.
Defined.

(* --------------------------------------------------------------------- *)
(** ** Agent: polling, the guard after a patch, the registry after a run *)
(* --------------------------------------------------------------------- *)

Section PollingFacts.
Import CDPClient Agent.

Lemma collectFresh_In getText announced f :
  List.In f (collectFresh getText announced) ->
  List.In (styleSheetId f) announced
  /\ getText (styleSheetId f) = Some (text f)
  /\ contentKey f = keyOf (text f).
Proof.
  intros Hin. unfold collectFresh in Hin.
  apply List.in_flat_map in Hin as (id & Hid & Hin).
  destruct (getText id) eqn:Hg; [| destruct Hin].
  destruct Hin as [<- | []]. simpl. auto.
Qed.

End PollingFacts.

(** X25.  The polling loop pairs a tracked sheet with a fresh text
    only through the first hundred characters or through the length: the
    text it picks is not empty, is the text of one of the sheets of the
    new session, and either has the content key of the stored text or
    has the length of the stored text.  A sheet with no stored text is
    paired with nothing. *)
Theorem fresh_text_is_paired_by_key_or_length
        (getText : string -> option string) (announced : list string)
        (oldText : option string) (newText : string) :
  Agent.freshTextFor (CDPClient.collectFresh getText announced) oldText
  = Some newText ->
  newText <> ""
  /\ exists old id,
       oldText = Some old /\ List.In id announced
       /\ getText id = Some newText
       /\ (CDPClient.keyOf newText = CDPClient.keyOf old
           \/ String.length newText = String.length old).
Proof.
  unfold Agent.freshTextFor, JS.or_else.
  destruct oldText as [old|];
    cbn [option_map CDPClient.findFreshTextByContentKey]; [| discriminate].
  set (sheets := CDPClient.collectFresh getText announced) in *.
  assert (Hlength : forall f2,
             List.find (fun f => Nat.eqb (String.length (CDPClient.text f))
                                         (String.length old)) sheets
             = Some f2 ->
             JS.truthy (Some (CDPClient.text f2)) = true ->
             CDPClient.text f2 <> ""
             /\ exists old0 id,
                  Some old = Some old0 /\ List.In id announced
                  /\ getText id = Some (CDPClient.text f2)
                  /\ (CDPClient.keyOf (CDPClient.text f2) = CDPClient.keyOf old0
                      \/ String.length (CDPClient.text f2)
                         = String.length old0)).
  { intros f2 Hlen Ht2. split; [now destruct (CDPClient.text f2) |].
    apply List.find_some in Hlen as [Hin2 Heq2].
    apply Nat.eqb_eq in Heq2.
    destruct (collectFresh_In _ _ _ Hin2) as (Hid & Hg & _).
    exists old, (CDPClient.styleSheetId f2).
    repeat split; try assumption. now right. }
  destruct (List.find (fun s => String.eqb (CDPClient.contentKey s)
                                           (CDPClient.keyOf old)) sheets)
    as [f|] eqn:Hkey; cbn [option_map].
  - apply List.find_some in Hkey as [Hin Heq].
    apply String.eqb_eq in Heq.
    destruct (collectFresh_In _ _ _ Hin) as (Hid & Hg & Hk).
    destruct (JS.truthy (Some (CDPClient.text f))) eqn:Ht.
    + intros [= <-]. split; [now destruct (CDPClient.text f) |].
      exists old, (CDPClient.styleSheetId f). repeat split; try assumption.
      left. congruence.
    + destruct (List.find (fun f => Nat.eqb _ _) sheets) as [f2|] eqn:Hlen;
        cbn [option_map]; [| cbn [JS.truthy]; discriminate].
      destruct (JS.truthy (Some (CDPClient.text f2))) eqn:Ht2;
        [| discriminate].
      intros [= <-]. now apply Hlength.
  - replace (JS.truthy None) with false by reflexivity.
    destruct (List.find (fun f => Nat.eqb _ _) sheets) as [f2|] eqn:Hlen;
      cbn [option_map]; [| cbn [JS.truthy]; discriminate].
    destruct (JS.truthy (Some (CDPClient.text f2))) eqn:Ht2; [| discriminate].
    intros [= <-]. now apply Hlength.
Qed.

Lemma fresh_text_is_paired_by_key_or_length_witness :
  let tanText := ".btn { color: tan; }" in
  tanText <> ""
  /\ exists old id,
       Some Samples.redText = Some old /\ List.In id ["7"]
       /\ (fun _ : string => Some tanText) id = Some tanText
       /\ (CDPClient.keyOf tanText = CDPClient.keyOf old
           \/ String.length tanText = String.length old).
Proof.
  intros tanText.
  apply (fresh_text_is_paired_by_key_or_length
           (fun _ => Some tanText) ["7"] (Some Samples.redText) tanText).
  vm_compute. reflexivity.
Defined.

Section GuardedFacts.
Import Agent Notions.
Variable env : Env.
Variables id newText : string.

Lemma reaches_refl w : reaches id newText w w.
Proof.
  exists []. rewrite List.app_nil_r. repeat split; auto. intros ? ? ? ? [].
Qed.

Lemma reaches_trans w1 w2 w3 :
  reaches id newText w1 w2 -> reaches id newText w2 w3 ->
  reaches id newText w1 w3.
Proof.
  intros (n1 & C1 & N1 & T1 & M1 & P1) (n2 & C2 & N2 & T2 & M2 & P2).
  exists (n1 ++ n2)%list. rewrite C2, C1, List.app_assoc.
  repeat split; try congruence; auto.
  intros scss path changes result Hin Hpos.
  apply List.in_app_or in Hin as [Hin | Hin]; eauto.
Qed.

Lemma reaches_same w w' :
  calls w' = calls w -> now w' = now w -> loopGuard w' = loopGuard w ->
  reaches id newText w w'.
Proof.
  intros Hc Hn Hg. exists []. rewrite List.app_nil_r.
  unfold marked. rewrite Hn, Hg. repeat split; auto. intros ? ? ? ? [].
Qed.

Lemma reaches_updateText t w : reaches id newText w (updateText id t w).
Proof. now apply reaches_same. Qed.

Lemma reaches_withCaches c w : reaches id newText w (withCaches c w).
Proof. now apply reaches_same. Qed.

Lemma reaches_differ old new w :
  reaches id newText w (record (DifferCalled old new) w).
Proof.
  exists [DifferCalled old new]. repeat split; auto.
  intros ? ? ? ? [[=] | []].
Qed.

(** A patch that applied something leaves the marker of the sheet. *)
Lemma reaches_patchTask useScss path changes w :
  reaches id newText w (patchTask env useScss id newText path changes w).
Proof.
  unfold patchTask.
  destruct (Patcher.patchMultiple _ _ _ _ _ _ _ _) as [result fs'].
  exists [PatchCalled useScss path changes result].
  destruct (Nat.ltb_spec 0 (Patcher.success result)) as [Hpos | Hzero].
  - assert (Hm : marked id newText
                   (withGuard
                      (LoopGuard.registerWrite
                         (now w) path newText
                         (LoopGuard.registerStyleSheetWrite
                            (now w) id newText (loopGuard w)))
                      (record (PatchCalled useScss path changes result)
                              (withFiles fs' w)))).
    { unfold marked. cbn.
      destruct (decide (path = LoopGuard.sheetKey id)) as [-> | Hne].
      - now rewrite lookup_insert_eq.
      - rewrite lookup_insert_ne by exact Hne. now rewrite lookup_insert_eq. }
    repeat split; auto.
  - repeat split; auto.
    intros scss p cs r [[= _ _ _ <-] | []] Hpos. lia.
Qed.

Lemma reaches_patchEach m :
  forall w, reaches id newText w (patchEach env id newText m w).
Proof.
  induction m as [|[filePath fileChanges] m IH]; intros w; simpl.
  - apply reaches_refl.
  - eapply reaches_trans; [apply reaches_patchTask | apply IH].
Qed.

Lemma reaches_modules changes w :
  reaches id newText w (snd (handleCSSModuleChanges env id changes newText w)).
Proof.
  unfold handleCSSModuleChanges.
  destruct (groupByFile env (files w) changes [] (caches w)) as [m c'].
  destruct m as [|entry m]; cbn [snd].
  - apply reaches_withCaches.
  - eapply reaches_trans; [apply reaches_withCaches |].
    eapply reaches_trans; [apply reaches_patchEach | apply reaches_updateText].
Qed.

Lemma reaches_patchResolved localPath changes w :
  reaches id newText w (patchResolved env id newText localPath changes w).
Proof.
  unfold patchResolved.
  match goal with |- context [match ?t with Some _ => _ | None => _ end] =>
    destruct t as [[path useScss]|] end.
  - eapply reaches_trans; [apply reaches_patchTask | apply reaches_updateText].
  - apply reaches_refl.
Qed.

Lemma handler_reaches freshText w :
  obtained env id freshText = Some newText ->
  exists g',
    LoopGuard.ttl g' = LoopGuard.ttl (loopGuard w)
    /\ reaches id newText (withGuard g' w)
               (handleStyleSheetChange env id freshText w).
Proof.
  intros Hnew. unfold handleStyleSheetChange. rewrite Hnew.
  pose proof (shouldIgnore_ttl (now w) (LoopGuard.sheetKey id) newText
                               (loopGuard w)) as Httl.
  unfold LoopGuard.shouldIgnoreStyleSheet.
  destruct (LoopGuard.shouldIgnore (now w) (LoopGuard.sheetKey id) newText
                                   (loopGuard w)) as [ignore g'].
  cbn [snd] in Httl. exists g'. split; [exact Httl |].
  destruct ignore; [apply reaches_refl |].
  destruct (Registry.getPreviousText id (registry w)) as [old|];
    [| apply reaches_updateText].
  destruct (String.eqb old newText); [apply reaches_updateText |].
  set (w1 := record (DifferCalled old newText) (withGuard g' w)).
  assert (H1 : reaches id newText (withGuard g' w) w1)
    by apply reaches_differ.
  destruct (Differ.findChangedDeclarations (lib env) old newText)
    as [|firstChange rest] eqn:Hdiff.
  { eapply reaches_trans; [exact H1 | apply reaches_updateText]. }
  destruct (localPathOf env id w1) as [found|]; [| exact H1].
  eapply reaches_trans; [exact H1 |].
  pose proof (reaches_modules (firstChange :: rest) w1) as Hmod.
  destruct (JS.or_else found None) as [localPath|].
  - destruct (JS.includes "/.next/" localPath).
    + destruct (handleCSSModuleChanges env id (firstChange :: rest) newText w1)
        as [[|] w2]; cbn [snd] in Hmod; [exact Hmod |].
      eapply reaches_trans; [exact Hmod | apply reaches_patchResolved].
    + apply reaches_patchResolved.
  - destruct (handleCSSModuleChanges env id (firstChange :: rest) newText w1)
      as [[|] w2]; cbn [snd] in Hmod; [exact Hmod |].
    eapply reaches_trans; [exact Hmod | apply reaches_updateText].
Qed.

Lemma patchTask_registry useScss path changes w :
  registry (patchTask env useScss id newText path changes w) = registry w.
Proof.
  unfold patchTask.
  destruct (Patcher.patchMultiple _ _ _ _ _ _ _ _) as [result fs'].
  now destruct (Nat.ltb 0 (Patcher.success result)).
Qed.

Lemma patchEach_registry m :
  forall w, registry (patchEach env id newText m w) = registry w.
Proof.
  induction m as [|[filePath fileChanges] m IH]; intros w; simpl;
    [reflexivity |].
  now rewrite IH, patchTask_registry.
Qed.

Lemma updateText_stored t w :
  is_Some (registry w !! id) ->
  storedText id (updateText id t w) = Some (Some t).
Proof.
  intros [s Hs]. unfold storedText, updateText, Registry.updateText.
  cbn [registry withRegistry]. rewrite Hs.
  now rewrite lookup_insert_eq.
Qed.

Lemma modules_registry changes w :
  is_Some (registry w !! id) ->
  let out := handleCSSModuleChanges env id changes newText w in
  (fst out = true -> storedText id (snd out) = Some (Some newText))
  /\ (fst out = false -> registry (snd out) = registry w).
Proof.
  intros Hreg. unfold handleCSSModuleChanges.
  destruct (groupByFile env (files w) changes [] (caches w)) as [m c'].
  destruct m as [|entry m]; cbn [fst snd].
  - split; [discriminate | reflexivity].
  - split; [| discriminate]. intros _. apply updateText_stored.
    now rewrite patchEach_registry.
Qed.

Lemma patchResolved_stored localPath changes w :
  is_Some (registry w !! id) ->
  (forall fs path selector text,
      findOriginalSource env fs path selector text <> None) ->
  storedText id (patchResolved env id newText localPath changes w)
  = Some (Some newText).
Proof.
  intros Hreg Hsrc. unfold patchResolved.
  destruct (Regex.test scssExtension localPath).
  { apply updateText_stored. now rewrite patchTask_registry. }
  destruct changes as [|firstChange rest].
  { apply updateText_stored. now rewrite patchTask_registry. }
  specialize (Hsrc (files w) localPath (Differ.selector firstChange) newText).
  destruct (findOriginalSource env (files w) localPath
                               (Differ.selector firstChange) newText)
    as [[source|]|]; [| | contradiction].
  - destruct (Regex.test preprocessorExtension source);
      apply updateText_stored; now rewrite patchTask_registry.
  - apply updateText_stored. now rewrite patchTask_registry.
Qed.

End GuardedFacts.

(** X26.  Whenever a run of the change handler has a patcher apply at
    least one change, the loop guard afterwards holds the marker of the
    new text for the sheet: from the instant of the run until the TTL has
    passed, [shouldIgnoreStyleSheet] answers true for that sheet and that
    text, so the echo of the agent's own write is dropped. *)
Theorem applied_patch_is_guarded
        (env : Agent.Env) (id : string) (freshText : option string)
        (newText : string) (w : Agent.World) (e : Agent.Event) (now' : Z) :
  Agent.obtained env id freshText = Some newText ->
  let w' := Agent.handleStyleSheetChange env id freshText w in
  List.In e (Agent.calls w') -> ~ List.In e (Agent.calls w) ->
  (exists scss path changes result,
      e = Agent.PatchCalled scss path changes result
      /\ (0 < Patcher.success result)%nat) ->
  fst (LoopGuard.shouldIgnoreStyleSheet now' id newText (Agent.loopGuard w'))
  = (now' - Agent.now w <=? LoopGuard.ttl (Agent.loopGuard w))%Z.
Proof.
  intros Hnew w' Hin Hnot (scss & path & changes & result & -> & Hpos).
  destruct (handler_reaches env id newText freshText w Hnew)
    as (g' & Httl & news & Hc & Hn & Ht & _ & Hp).
  fold w' in Hc, Hn, Ht, Hp.
  cbn [Agent.calls Agent.now Agent.loopGuard Agent.withGuard] in *.
  rewrite Hc in Hin. apply List.in_app_or in Hin as [Hin | Hin];
    [contradiction |].
  specialize (Hp _ _ _ _ Hin Hpos). unfold Notions.marked in Hp.
  unfold LoopGuard.shouldIgnoreStyleSheet.
  rewrite shouldIgnore_answer, Hp. cbn [LoopGuard.timestamp LoopGuard.hash].
  now rewrite String.eqb_refl, andb_true_r, Hn, Ht, Httl.
Qed.

Lemma applied_patch_is_guarded_witness :
  let w := Samples.world (Samples.sheet Samples.stylesUrl
                                        (Some Samples.redText) None)
                         (LoopGuard.create None) Samples.plainFS in
  let w' := Agent.handleStyleSheetChange Samples.env "1"
                                         (Some Samples.blueText) w in
  fst (LoopGuard.shouldIgnoreStyleSheet 2500 "1" Samples.blueText
                                        (Agent.loopGuard w'))
  = (2500 - Agent.now w <=? LoopGuard.ttl (Agent.loopGuard w))%Z.
Proof.
  intros w.
  apply (applied_patch_is_guarded
           Samples.env "1" (Some Samples.blueText) Samples.blueText w
           (Agent.PatchCalled
              false "/proj/src/styles.css"
              (Differ.findChangedDeclarations Samples.lib Samples.redText
                                              Samples.blueText)
              {| Patcher.success := 1; Patcher.failed := 0 |})
           2500).
  - reflexivity.
  - vm_compute. right. left. reflexivity.
  - intros H. destruct H.
  - eexists _, _, _, _. split; [reflexivity |]. simpl. lia.
Defined.

(** X27.  A run of the change handler that is not ignored by the loop
    guard and in which no collaborator throws leaves the new text as the
    stored text of a registered sheet, whatever the patch did: also when
    nothing could be resolved, when every change failed and when the file
    could not be written.  The same change is therefore not handled a
    second time. *)
Theorem handled_text_is_stored
        (env : Agent.Env) (id : string) (freshText : option string)
        (newText : string) (w : Agent.World) :
  Agent.obtained env id freshText = Some newText ->
  is_Some (Agent.registry w !! id) ->
  fst (LoopGuard.shouldIgnoreStyleSheet (Agent.now w) id newText
                                        (Agent.loopGuard w))
  = false ->
  Agent.localPathOf env id w <> URLResolver.Thrown ->
  (forall fs path selector text,
      Agent.findOriginalSource env fs path selector text <> None) ->
  Notions.storedText id (Agent.handleStyleSheetChange env id freshText w)
  = Some (Some newText).
Proof.
  intros Hnew Hreg Hign Hlp Hsrc. unfold Agent.handleStyleSheetChange.
  rewrite Hnew.
  destruct (LoopGuard.shouldIgnoreStyleSheet (Agent.now w) id newText
                                             (Agent.loopGuard w))
    as [ignore g']. cbn [fst] in Hign. subst ignore.
  destruct (Registry.getPreviousText id (Agent.registry w)) as [old|];
    [| now apply updateText_stored].
  destruct (String.eqb old newText); [now apply updateText_stored |].
  set (w1 := Agent.record (Agent.DifferCalled old newText)
                          (Agent.withGuard g' w)).
  destruct (Differ.findChangedDeclarations (Agent.lib env) old newText)
    as [|firstChange rest]; [now apply updateText_stored |].
  rewrite (localPathOf_same env id w w1) by reflexivity.
  destruct (Agent.localPathOf env id w) as [found|]; [| contradiction].
  destruct (modules_registry env id newText (firstChange :: rest) w1 Hreg)
    as [Hyes Hno].
  destruct (JS.or_else found None) as [localPath|].
  - destruct (JS.includes "/.next/" localPath).
    + destruct (Agent.handleCSSModuleChanges env id (firstChange :: rest)
                                             newText w1)
        as [[|] w2]; cbn [fst snd] in *; [now apply Hyes |].
      apply patchResolved_stored; [| exact Hsrc]. now rewrite Hno.
    + now apply patchResolved_stored.
  - destruct (Agent.handleCSSModuleChanges env id (firstChange :: rest)
                                           newText w1)
      as [[|] w2]; cbn [fst snd] in *; [now apply Hyes |].
    apply updateText_stored. now rewrite Hno.
Qed.

Lemma handled_text_is_stored_witness :
  Notions.storedText
    "1"
    (Agent.handleStyleSheetChange
       Samples.env "1" (Some Samples.brokenText)
       (Samples.world (Samples.sheet Samples.stylesUrl
                                     (Some Samples.redText) None)
                      (LoopGuard.create None) Samples.plainFS))
  = Some (Some Samples.brokenText).
Proof.
  apply (handled_text_is_stored
           Samples.env "1" (Some Samples.brokenText) Samples.brokenText
           (Samples.world (Samples.sheet Samples.stylesUrl
                                         (Some Samples.redText) None)
                          (LoopGuard.create None) Samples.plainFS)).
  - reflexivity.
  - eexists. vm_compute. reflexivity.
  - vm_compute. reflexivity.
  - intros H. vm_compute in H. discriminate H.
  - intros fs path selector text H. discriminate H.
Defined.
